(** * Memgraph query pipeline: interpreter, plan cache, plan printer,
    RPC client and edge records

  A shallow embedding of
  - [Edge::CloneData]                        (storage/edge.hpp),
  - [communication::rpc::Client::Call]       (communication/rpc/client.cpp),
  - [query::plan::PlanPrinter]               (query/plan/pretty_print.cpp),
  - [query::Interpreter::Interpret] and
    [query::Interpreter::ExecutePlan]        (query/interpreter.hpp),
  together with the properties the specification states about them. *)

From Stdlib Require Import ZArith NArith QArith Qround Qpower Lqa.
From Stdlib.Strings Require Import Byte Ascii String.
From stdpp Require Import base option list gmap strings fin_maps.

#[global] Set Warnings "-register-all".

(* ===================================================================== *)
(** * Part I: the model                                                   *)
(* ===================================================================== *)

(** ** Edge records (storage/edge.hpp) *)

Module EdgeModel.
Section Edge.

(** The types the header only names: the vertex address, the edge type, the
    property store, and the state of the [mvcc::Record<Edge>] base class
    with the value its default constructor builds. *)
Context {VertexAddress EdgeType PropertyValueStore MvccRecord : Type}.
Variable MvccRecord_default : MvccRecord.

Record Edge := mkEdge {
  record_base : MvccRecord;          (* mvcc::Record<Edge> sub-object *)
  from_ : VertexAddress;
  to_ : VertexAddress;
  edge_type_ : EdgeType;
  properties_ : PropertyValueStore
}.

(** [Edge(VertexAddress from, VertexAddress to, EdgeType edge_type)]: the
    base class and [properties_] are default-initialised. *)
Definition Edge_new (properties_default : PropertyValueStore)
    (from to : VertexAddress) (edge_type : EdgeType) : Edge :=
  mkEdge MvccRecord_default from to edge_type properties_default.

(** The private copy constructor [Edge(const Edge &other)]. *)
Definition Edge_copy (other : Edge) : Edge :=
  {| record_base := MvccRecord_default;
     from_ := from_ other;
     to_ := to_ other;
     edge_type_ := edge_type_ other;
     properties_ := properties_ other |}.

(** [new T(...)] returns an address that is not live yet; the free store
    maps the addresses of the live [Edge] objects to their state. *)
Definition operator_new (h : gmap positive Edge) : positive := fresh (dom h).

(** [CloneData() { return new Edge( *this ); }], called on the object
    at address [this]; a dangling [this] has no behaviour. *)
Definition CloneData (h : gmap positive Edge) (this : positive)
    : option (positive * gmap positive Edge) :=
  match h !! this with
  | Some self =>
      let p := operator_new h in
      Some (p, <[p := Edge_copy self]> h)
  | None => None
  end.

End Edge.

(** An edge 3 -> 4 of type 1 whose record state (7) is not the default
    one (0). *)
Definition sample_edge : @Edge nat nat (list nat) nat :=
  mkEdge 7 3 4 1 [5; 6].

End EdgeModel.

(** ** The RPC client (communication/rpc/buffer.hpp, client.cpp) *)

Module RpcModel.

(** Integers travel in host byte order through [reinterpret_cast]; on the
    little-endian hosts the server runs on, the least significant byte
    comes first. *)
Fixpoint decode_le (bs : list byte) : N :=
  match bs with
  | [] => 0
  | b :: bs' => Byte.to_N b + 256 * decode_le bs'
  end%N.

Definition byte_of_N (n : N) : byte :=
  default x00 (Byte.of_N (n mod 256)).

Fixpoint encode_le (width : nat) (v : N) : list byte :=
  match width with
  | O => []
  | S w => byte_of_N v :: encode_le w (v / 256)
  end.

Definition sizeof_uint32_t : nat := 4.

(** Initial capacity of the internal buffer. *)
Definition kBufferInitialSize : N := 65536.

(** [Buffer]: [data_] is a vector that only grows and [have_] counts the
    bytes available for reading.  Only the first [have_] bytes of [data_]
    are ever read, so the vector is represented by those bytes ([content])
    and by its size ([capacity]).  The member functions follow their
    documentation in buffer.hpp. *)
Record Buffer := mkBuffer {
  capacity : N;              (* data_.size() *)
  content : list byte        (* data_[0 .. have_) *)
}.

Definition Buffer_new : Buffer := mkBuffer kBufferInitialSize [].

(** [Allocate]: the size of the free region behind the available data. *)
Definition Allocate (b : Buffer) : nat :=
  N.to_nat (capacity b) - length (content b).

(** [Written(len)], after [len] bytes [bs] were stored into the region
    handed out by [Allocate]. *)
Definition Written (bs : list byte) (b : Buffer) : Buffer :=
  mkBuffer (capacity b) (content b ++ bs).

(** [Shift(len)]: removes [len] bytes from the start of the buffer. *)
Definition Shift (len : nat) (b : Buffer) : Buffer :=
  mkBuffer (capacity b) (drop len (content b)).

(** [Resize(len)]: grows the internal array to [len]; a smaller request
    does nothing. *)
Definition Resize (len : nat) (b : Buffer) : Buffer :=
  if (N.of_nat len <? capacity b)%N then b else mkBuffer (N.of_nat len) (content b).

Definition Clear (b : Buffer) : Buffer := mkBuffer (capacity b) [].

Definition data (b : Buffer) : list byte := content b.
Definition size (b : Buffer) : nat := length (content b).

(** The peer and the network, as seen through one [io::network::Socket]:
    whether the connection is reported broken, the outcome of each
    successive [Write], the bytes the peer sends, and how many of them each
    successive [Read] finds ready.  When [read_sizes] runs out the
    connection is closed. *)
Record Socket := mkSocket {
  error_status : bool;
  write_results : list bool;
  sent : list byte;
  incoming : list byte;
  read_sizes : list nat
}.

Definition ErrorStatus (s : Socket) : bool := error_status s.

(** [Write(data, len)]: true when everything was sent. *)
Definition Write (bs : list byte) (s : Socket) : bool * Socket :=
  match write_results s with
  | true :: rest =>
      (true, mkSocket (error_status s) rest (sent s ++ bs) (incoming s) (read_sizes s))
  | false :: rest =>
      (false, mkSocket (error_status s) rest (sent s) (incoming s) (read_sizes s))
  | [] => (false, s)
  end.

(** One response taken out of the buffer by [Call] (ghost record). *)
Record Taken := mkTaken {
  taken_id : N;                    (* response_id *)
  taken_size : nat;                (* response_size *)
  taken_before : list byte;        (* buffer before Shift *)
  taken_after : list byte          (* buffer after Shift *)
}.

Section Client.

Context {Message Endpoint : Type}.

(** [MessageSize] is a typedef of an unsigned integer type that the sources
    at hand only use; its width in bytes is a parameter. *)
Variable sizeof_MessageSize : nat.

(** The boost binary archives: writing a request pointer, and reading a
    response pointer (possibly null) from the payload bytes. *)
Variable serialize : option Message -> list byte.
Variable deserialize : list byte -> option Message.

Definition MessageSize_max : N := 2 ^ (8 * N.of_nat sizeof_MessageSize) - 1.

Record Client := mkClient {
  endpoint_ : Endpoint;
  service_name_ : list byte;
  socket_ : option Socket;
  buffer_ : Buffer;
  next_message_id_ : N            (* uint32_t *)
}.

(** What [Call] hands back: a response pointer ([None] is [nullptr]), or
    the process is stopped by the failed [CHECK]. *)
Inductive CallResult :=
| Returned (response : option Message)
| CheckFailed.

Record CallOutcome := mkOutcome {
  call_result : CallResult;
  call_socket : option Socket;
  call_buffer : Buffer;
  call_taken : list Taken
}.

(** The header fields [Call] reads from the start of the buffer:
    [*reinterpret_cast<uint32_t *>(buffer_.data())] and
    [*reinterpret_cast<MessageSize *>(buffer_.data() + sizeof(uint32_t))]. *)
Definition read_response_id (bs : list byte) : N :=
  decode_le (take sizeof_uint32_t bs).

Definition read_response_data_size (bs : list byte) : nat :=
  N.to_nat (decode_le (take sizeof_MessageSize (drop sizeof_uint32_t bs))).

Definition read_response_size (bs : list byte) : nat :=
  sizeof_uint32_t + sizeof_MessageSize + read_response_data_size bs.

(** The bytes handed to the input archive. *)
Definition read_payload (bs : list byte) : list byte :=
  take (read_response_data_size bs)
       (drop (sizeof_uint32_t + sizeof_MessageSize) bs).

(** The [while (true)] loop that receives the response.  Each round is one
    [Read]; the loop is driven by the rounds the socket still has. *)
Fixpoint receive (request_id : N) (s : Socket) (reads : list nat)
    (inc : list byte) (buffer : Buffer) (taken : list Taken) : CallOutcome :=
  match reads with
  | [] => mkOutcome (Returned None) None buffer taken
  | ready :: reads' =>
      let len := Allocate buffer in
      let got := take (ready `min` len) inc in
      let inc' := drop (ready `min` len) inc in
      if (length got =? 0)%nat
      then mkOutcome (Returned None) None buffer taken
      else
        let buffer := Written got buffer in
        if (size buffer <? sizeof_uint32_t + sizeof_MessageSize)%nat
        then receive request_id s reads' inc' buffer taken
        else
          let response_id := read_response_id (data buffer) in
          let response_size := read_response_size (data buffer) in
          let buffer := Resize response_size buffer in
          if (size buffer <? response_size)%nat
          then receive request_id s reads' inc' buffer taken
          else
            let response := deserialize (read_payload (data buffer)) in
            let shifted := Shift response_size buffer in
            let taken :=
              taken ++ [mkTaken response_id response_size
                                (data buffer) (data shifted)] in
            if negb (response_id =? request_id)%N
            then receive request_id s reads' inc' shifted taken
            else
              mkOutcome (Returned response)
                (Some (mkSocket (error_status s) (write_results s) (sent s)
                                inc' reads'))
                shifted taken
  end.

(** A ghost record is sound when it is what the header at the start of
    [taken_before] says and [taken_after] is [taken_before] without that
    response. *)
Definition well_taken (t : Taken) : Prop :=
  taken_id t = read_response_id (taken_before t)
  /\ taken_size t = read_response_size (taken_before t)
  /\ (taken_size t <= length (taken_before t))%nat
  /\ taken_after t = drop (taken_size t) (taken_before t).

Definition stale (request_id : N) (t : Taken) : Prop := taken_id t <> request_id.

(** What a call did with the responses it took out of the buffer: all but
    the last were stale, and the last, if it was not stale either, is the
    one that was returned. *)
Definition settled (request_id : N) (new : list Taken)
    (result : CallResult) (left_in_buffer : list byte) : Prop :=
  (Forall (stale request_id) new /\ result = Returned None)
  \/ (exists old last,
        new = old ++ [last]
        /\ Forall (stale request_id) old
        /\ taken_id last = request_id
        /\ result = Returned (deserialize (read_payload (taken_before last)))
        /\ left_in_buffer = taken_after last).

(** An outcome answers the request: a response it carries came with the
    request's id, behind stale responses only. *)
Definition answers (request_id : N) (o : CallOutcome) : Prop :=
  Forall well_taken (call_taken o)
  /\ forall response,
       call_result o = Returned (Some response) ->
       exists old last,
         call_taken o = old ++ [last]
         /\ Forall (stale request_id) old
         /\ taken_id last = request_id
         /\ deserialize (read_payload (taken_before last)) = Some response
         /\ content (call_buffer o) = taken_after last.

(** The straight-line part of [Call] after the connection is up: request
    id, request size, request data, then the receive loop. *)
Definition send_and_receive (request_id : N) (request : option Message)
    (s : Socket) (buffer : Buffer) : CallOutcome :=
  let failed := mkOutcome (Returned None) None buffer [] in
  let '(ok, s) := Write (encode_le sizeof_uint32_t request_id) s in
  if negb ok then failed else
  let request_buffer := serialize request in
  if negb (N.of_nat (length request_buffer) <=? MessageSize_max)%N
  then mkOutcome CheckFailed (Some s) buffer [] else
  let '(ok, s) :=
    Write (encode_le sizeof_MessageSize (N.of_nat (length request_buffer))) s in
  if negb ok then failed else
  let '(ok, s) := Write request_buffer s in
  if negb ok then failed else
  receive request_id s (read_sizes s) (incoming s) buffer [].

(** [Client::Call].  [fresh_socket] is the socket a successful [Connect] to
    [endpoint_] yields now, [None] when the peer cannot be reached;
    [SetKeepAlive] changes nothing that is modelled. *)
Definition Call (fresh_socket : option Socket) (request : option Message)
    (c : Client) : CallResult * list Taken * Client :=
  let request_id := ((next_message_id_ c + 1) mod 2 ^ 32)%N in
  let finish (o : CallOutcome) :=
    (call_result o, call_taken o,
     mkClient (endpoint_ c) (service_name_ c) (call_socket o)
              (call_buffer o) request_id) in
  let socket :=
    match socket_ c with
    | Some s => if ErrorStatus s then None else Some s
    | None => None
    end in
  match socket with
  | Some s => finish (send_and_receive request_id request s (buffer_ c))
  | None =>
      let buffer := Clear (buffer_ c) in
      let failed := finish (mkOutcome (Returned None) None buffer []) in
      match fresh_socket with
      | None => failed
      | Some s =>
          let '(ok, s) :=
            Write (encode_le sizeof_MessageSize
                     (N.of_nat (length (service_name_ c)))) s in
          if negb ok then failed else
          let '(ok, s) := Write (service_name_ c) s in
          if negb ok then failed else
          finish (send_and_receive request_id request s buffer)
      end
  end.

(** [Client::Abort]: [Shutdown] and forget the socket, if there is one. *)
Definition Abort (c : Client) : Client :=
  match socket_ c with
  | None => c
  | Some _ =>
      mkClient (endpoint_ c) (service_name_ c) None (buffer_ c)
               (next_message_id_ c)
  end.

(** The bytes [Call] writes when it opens a connection, and the bytes it
    writes for a request. *)
Definition handshake (c : Client) : list byte :=
  encode_le sizeof_MessageSize (N.of_nat (length (service_name_ c)))
    ++ service_name_ c.

Definition request_frame (request_id : N) (request : option Message) : list byte :=
  encode_le sizeof_uint32_t request_id
    ++ encode_le sizeof_MessageSize (N.of_nat (length (serialize request)))
    ++ serialize request.

(** A response on the wire, as [Call] parses it: id, size of the data,
    data. *)
Definition response_frame (response_id : N) (payload : list byte) : list byte :=
  encode_le sizeof_uint32_t response_id
    ++ encode_le sizeof_MessageSize (N.of_nat (length payload))
    ++ payload.

(** Responses on the wire, one behind the other; each is an id with its
    data. *)
Definition response_frames (responses : list (N * list byte)) : list byte :=
  concat (map (fun r => response_frame r.1 r.2) responses).

(** A response that has the layout: the id is a [uint32_t] and the size of
    the data a [MessageSize]. *)
Definition well_framed (r : N * list byte) : Prop :=
  (r.1 < 2 ^ 32)%N /\ (N.of_nat (length r.2) <= MessageSize_max)%N.

(** Successive reads deliver [bs], and nothing else, in [pieces]: every
    read finds something, and together they find as much as [bs] has. *)
Definition in_pieces (pieces : list nat) (bs : list byte) : Prop :=
  Forall (fun ready => 0 < ready) pieces /\ sum_list pieces = length bs.

(** The ghost record of a response that was alone in the buffer when it was
    taken out. *)
Definition taken_whole (r : N * list byte) : Taken :=
  mkTaken r.1 (length (response_frame r.1 r.2)) (response_frame r.1 r.2) [].

(** The id [Call] gives to its request: [++next_message_id_], a [uint32_t]. *)
Definition next_request_id (c : Client) : N :=
  ((next_message_id_ c + 1) mod 2 ^ 32)%N.

(** A buffer has room when the internal array can hold a response header and
    is not full. *)
Definition roomy (b : Buffer) : Prop :=
  (sizeof_uint32_t + sizeof_MessageSize <= N.to_nat (capacity b))%nat
  /\ (size b < N.to_nat (capacity b))%nat.

End Client.

(** *** A sample exchange

    Messages are byte strings.  The peer first sends a late answer to
    request 1 and then the answer to request 2; the bytes arrive in three
    pieces. *)
Definition on_wire (id : N) (payload : list byte) : list byte :=
  encode_le sizeof_uint32_t id ++ encode_le 4 (N.of_nat (length payload))
    ++ payload.

Definition sample_socket : Socket :=
  mkSocket false [true; true; true] []
           (on_wire 1 [x61] ++ on_wire 2 [x62; x63]) [5; 4; 10]%nat.

Definition sample_client : @Client unit :=
  mkClient tt [x72; x70; x63] (Some sample_socket) Buffer_new 1.

Definition sample_serialize (m : option (list byte)) : list byte :=
  default [] m.

Definition sample_deserialize (bs : list byte) : option (list byte) := Some bs.

(** A client that has no connection, a read schedule that delivers one byte
    per [Read], and a request of 256 bytes, too long for a [MessageSize] of
    one byte. *)
Definition disconnected_client : @Client unit :=
  mkClient tt [x72; x70; x63] None Buffer_new 1.

Definition byte_at_a_time : list nat := replicate 10 1%nat.

(** A connection over which the answer to request 2 comes one byte per
    [Read], followed by one more byte, and the client that has it. *)
Definition slow_socket : Socket :=
  mkSocket false [true; true; true] [] (on_wire 2 [x62; x63] ++ [x07])
           (replicate 11 1%nat).

Definition slow_client : @Client unit :=
  mkClient tt [x72; x70; x63] (Some slow_socket) Buffer_new 1.

(** A connection over which the late answer to request 1 and the answer to
    request 2 arrive in one [Read], before the peer closes it. *)
Definition hasty_socket : Socket :=
  mkSocket false [true; true; true] []
           (on_wire 1 [x61] ++ on_wire 2 [x62; x63]) [19]%nat.

Definition hasty_client : @Client unit :=
  mkClient tt [x72; x70; x63] (Some hasty_socket) Buffer_new 1.

Definition oversized_request : option (list byte) := Some (replicate 256 x00).

End RpcModel.

(** ** Symbols and logical operators (query/plan/operator.hpp, as used by the
     interpreter and by the plan printer) *)

Module PlanModel.

Inductive SymbolType := Any | Vertex | Edge | Path.

(** [query::Symbol]: frame slot, user-visible name, whether the user
    declared it, type tag and token position ([-1] when there is none). *)
Record Symbol := mkSymbol {
  name : string;
  position : nat;
  user_declared : bool;
  type_ : SymbolType;
  token_position : Z
}.

(** [EdgeAtom::Direction] *)
Inductive Direction := IN | OUT | BOTH.

Definition Label := nat.
Definition Property := nat.
Definition EdgeTypeId := nat.

(** [ExpandCommon]: what [Expand] and [ExpandVariable] share. *)
Record ExpandCommon := mkExpandCommon {
  input_symbol : Symbol;
  edge_symbol : Symbol;
  node_symbol : Symbol;
  direction : Direction;
  edge_types : list EdgeTypeId
}.

(** Expressions: identifiers are all that the plans below evaluate. *)
Inductive Expression :=
| Identifier (symbol : Symbol)
| OtherExpression (text : string).

(** [NamedExpression]: the projection name, the projected expression, and
    the symbol the symbol table holds for the projection. *)
Record NamedExpression := mkNamedExpression {
  name_ : string;
  expression_ : Expression;
  named_symbol : Symbol
}.

(** The operator classes.  Every operator other than the leaves owns its
    [input]; [Merge], [Optional] and [Cartesian] own further subtrees.
    [Unlisted] stands for an operator class of the hierarchy that the
    visitors below have no overload for. *)
Inductive LogicalOperator :=
| Once
| CreateNode (input : LogicalOperator)
| CreateExpand (input : LogicalOperator)
| ScanAll (input : LogicalOperator) (output_symbol : Symbol)
| ScanAllByLabel (input : LogicalOperator) (output_symbol : Symbol)
    (label : Label)
| ScanAllByLabelPropertyValue (input : LogicalOperator)
    (output_symbol : Symbol) (label : Label) (property : Property)
| ScanAllByLabelPropertyRange (input : LogicalOperator)
    (output_symbol : Symbol) (label : Label) (property : Property)
| Expand (input : LogicalOperator) (common : ExpandCommon)
| ExpandVariable (input : LogicalOperator) (common : ExpandCommon)
| ConstructNamedPath (input : LogicalOperator)
| Filter (input : LogicalOperator)
| Produce (input : LogicalOperator) (named_expressions : list NamedExpression)
| Delete (input : LogicalOperator)
| SetProperty (input : LogicalOperator)
| SetProperties (input : LogicalOperator)
| SetLabels (input : LogicalOperator)
| RemoveProperty (input : LogicalOperator)
| RemoveLabels (input : LogicalOperator)
| ExpandUniquenessFilter_VertexAccessor (input : LogicalOperator)
    (expand_symbol : Symbol) (previous_symbols : list Symbol)
| ExpandUniquenessFilter_EdgeAccessor (input : LogicalOperator)
    (expand_symbol : Symbol) (previous_symbols : list Symbol)
| Accumulate (input : LogicalOperator)
| Aggregate (input : LogicalOperator) (aggregations : list Symbol)
    (remember : list Symbol)
| Skip (input : LogicalOperator)
| Limit (input : LogicalOperator)
| OrderBy (input : LogicalOperator) (output_symbols : list Symbol)
| Merge (input merge_match merge_create : LogicalOperator)
| Optional (input optional : LogicalOperator) (optional_symbols : list Symbol)
| Unwind (input : LogicalOperator)
| Distinct (input : LogicalOperator)
| CreateIndex (label : Label) (property : Property)
| AuthHandler
| CreateStream
| DropStream
| ShowStreams
| StartStopStream
| StartStopAllStreams
| TestStream
| Explain (input : LogicalOperator) (output_symbol : Symbol)
| Cartesian (left_op right_op : LogicalOperator)
    (left_symbols right_symbols : list Symbol)
| Unlisted (input : LogicalOperator).





End PlanModel.

(** ** The plan printer (query/plan/pretty_print.cpp) *)

Module PrinterModel.
Import PlanModel.
Local Open Scope string_scope.

(** [utils::PrintIterable(out, iterable, delim, streamer)] *)
Fixpoint PrintIterable {A} (out : string) (iterable : list A)
    (delim : string) (streamer : A -> string) : string :=
  match iterable with
  | [] => out
  | [x] => out +:+ streamer x
  | x :: rest => PrintIterable (out +:+ streamer x +:+ delim) rest delim streamer
  end.

Definition endl : string := String "010"%char "".

Section Printer.

(** The accessor's name tables. *)
Variable LabelName : Label -> string.
Variable PropertyName : Property -> string.

(** Two things live in pretty_print.hpp only: the line prefix that
    [WithPrintLn] writes at a given depth, and the default value of
    [Branch]'s [branch_name] argument. *)
Variable line_prefix : nat -> string.
Variable default_branch_name : string.

Record PlanPrinter := mkPrinter {
  out_ : string;                (* what was written to *out_ *)
  depth_ : nat
}.

(** Modelled from the spec: [PlanPrinter::WithPrintLn] (pretty_print.hpp is
    not among the sources).  It writes the depth indentation, lets [fun_]
    write the line, and ends the line. *)
Definition WithPrintLn (fun_ : string -> string) (p : PlanPrinter) : PlanPrinter :=
  mkPrinter (fun_ (out_ p +:+ line_prefix (depth_ p)) +:+ endl) (depth_ p).

(** [PlanPrinter::PrintExpand] *)
Definition PrintExpand (op : ExpandCommon) (out : string) : string :=
  out +:+ " (" +:+ name (input_symbol op) +:+ ")"
      +:+ (match direction op with IN => "<-" | _ => "-" end)
      +:+ "[" +:+ name (edge_symbol op) +:+ "]"
      +:+ (match direction op with OUT => "->" | _ => "-" end)
      +:+ "(" +:+ name (node_symbol op) +:+ ")".

(** What each [PreVisit] / [Visit] overload streams inside [WithPrintLn];
    [None] for [Once], whose [Visit] prints nothing. *)
Definition streamed (op : LogicalOperator) : option (string -> string) :=
  match op with
  | Once => None
  | CreateNode _ => Some (fun out => out +:+ "* " +:+ "CreateNode")
  | CreateExpand _ => Some (fun out => out +:+ "* " +:+ "CreateExpand")
  | Delete _ => Some (fun out => out +:+ "* " +:+ "Delete")
  | ScanAll _ s =>
      Some (fun out => out +:+ "* ScanAll" +:+ " (" +:+ name s +:+ ")")
  | ScanAllByLabel _ s l =>
      Some (fun out => out +:+ "* ScanAllByLabel" +:+ " (" +:+ name s +:+ " :"
                           +:+ LabelName l +:+ ")")
  | ScanAllByLabelPropertyValue _ s l pr =>
      Some (fun out => out +:+ "* ScanAllByLabelPropertyValue" +:+ " ("
                           +:+ name s +:+ " :" +:+ LabelName l +:+ " {"
                           +:+ PropertyName pr +:+ "})")
  | ScanAllByLabelPropertyRange _ s l pr =>
      Some (fun out => out +:+ "* ScanAllByLabelPropertyRange" +:+ " ("
                           +:+ name s +:+ " :" +:+ LabelName l +:+ " {"
                           +:+ PropertyName pr +:+ "})")
  | Expand _ c => Some (fun out => PrintExpand c (out +:+ "* Expand"))
  | ExpandVariable _ c =>
      Some (fun out => PrintExpand c (out +:+ "* ExpandVariable"))
  | Produce _ nes =>
      Some (fun out =>
              PrintIterable (out +:+ "* Produce {") nes ", " name_ +:+ "}")
  | ConstructNamedPath _ =>
      Some (fun out => out +:+ "* " +:+ "ConstructNamedPath")
  | Filter _ => Some (fun out => out +:+ "* " +:+ "Filter")
  | SetProperty _ => Some (fun out => out +:+ "* " +:+ "SetProperty")
  | SetProperties _ => Some (fun out => out +:+ "* " +:+ "SetProperties")
  | SetLabels _ => Some (fun out => out +:+ "* " +:+ "SetLabels")
  | RemoveProperty _ => Some (fun out => out +:+ "* " +:+ "RemoveProperty")
  | RemoveLabels _ => Some (fun out => out +:+ "* " +:+ "RemoveLabels")
  | ExpandUniquenessFilter_VertexAccessor _ _ _ =>
      Some (fun out => out +:+ "* " +:+ "ExpandUniquenessFilter<VertexAccessor>")
  | ExpandUniquenessFilter_EdgeAccessor _ _ _ =>
      Some (fun out => out +:+ "* " +:+ "ExpandUniquenessFilter<EdgeAccessor>")
  | Accumulate _ => Some (fun out => out +:+ "* " +:+ "Accumulate")
  | Aggregate _ aggrs rem =>
      Some (fun out =>
              PrintIterable
                (PrintIterable (out +:+ "* Aggregate {") aggrs ", " name +:+ "} {")
                rem ", " name +:+ "}")
  | Skip _ => Some (fun out => out +:+ "* " +:+ "Skip")
  | Limit _ => Some (fun out => out +:+ "* " +:+ "Limit")
  | OrderBy _ syms =>
      Some (fun out =>
              PrintIterable (out +:+ "* OrderBy {") syms ", " name +:+ "}")
  | Merge _ _ _ => Some (fun out => out +:+ "* Merge")
  | Optional _ _ _ => Some (fun out => out +:+ "* Optional")
  | Unwind _ => Some (fun out => out +:+ "* " +:+ "Unwind")
  | Distinct _ => Some (fun out => out +:+ "* " +:+ "Distinct")
  | CreateIndex _ _ => Some (fun out => out +:+ "* CreateIndex")
  | AuthHandler => Some (fun out => out +:+ "* AuthHandler")
  | CreateStream => Some (fun out => out +:+ "* CreateStream")
  | DropStream => Some (fun out => out +:+ "* DropStream")
  | ShowStreams => Some (fun out => out +:+ "* ShowStreams")
  | StartStopStream => Some (fun out => out +:+ "* StartStopStream")
  | StartStopAllStreams => Some (fun out => out +:+ "* StartStopAllStreams")
  | TestStream => Some (fun out => out +:+ "* TestStream")
  | Explain _ s =>
      Some (fun out => out +:+ "* Explain {" +:+ name s +:+ "}")
  | Cartesian _ _ ls rs =>
      Some (fun out =>
              PrintIterable
                (PrintIterable (out +:+ "* Cartesian {") ls ", " name +:+ " : ")
                rs ", " name +:+ "}")
  | Unlisted _ => Some (fun out => out +:+ "* Unknown operator!")
  end.

(** The printing half of a [PreVisit] / [Visit] overload. *)
Definition PrintOperator (op : LogicalOperator) (p : PlanPrinter) : PlanPrinter :=
  match streamed op with
  | Some fun_ => WithPrintLn fun_ p
  | None => p
  end.

(** [PlanPrinter::Branch(op, branch_name)], with [op.Accept( *this )]
    passed in as [accept]. *)
Definition Branch (accept : PlanPrinter -> PlanPrinter) (branch_name : string)
    (p : PlanPrinter) : PlanPrinter :=
  let p := WithPrintLn (fun out => out +:+ "|\ " +:+ branch_name) p in
  let p := mkPrinter (out_ p) (S (depth_ p)) in
  let p := accept p in
  mkPrinter (out_ p) (pred (depth_ p)).

(** [op.Accept(printer)].

    Modelled from the spec: [LogicalOperator::Accept] (query/plan/operator.cpp
    is not among the sources), the visitor entry point of each operator: a
    leaf calls [Visit]; an operator with an input calls [PreVisit], which
    returns whether to descend, and descends into its input when it returns
    true.

    The [PreVisit] overloads for [Merge], [Optional] and [Cartesian] walk
    the children themselves and return false; all others print and return
    true. *)
Fixpoint Accept (op : LogicalOperator) (p : PlanPrinter) : PlanPrinter :=
  match op with
  | Once | CreateIndex _ _ | AuthHandler | CreateStream | DropStream
  | ShowStreams | StartStopStream | StartStopAllStreams | TestStream =>
      PrintOperator op p
  | Merge input merge_match merge_create =>
      let p := PrintOperator op p in
      let p := Branch (Accept merge_match) "On Match" p in
      let p := Branch (Accept merge_create) "On Create" p in
      Accept input p
  | Optional input optional _ =>
      let p := PrintOperator op p in
      let p := Branch (Accept optional) default_branch_name p in
      Accept input p
  | Cartesian left_op right_op _ _ =>
      let p := PrintOperator op p in
      let p := Branch (Accept right_op) default_branch_name p in
      Accept left_op p
  | CreateNode input | CreateExpand input | ScanAll input _
  | ScanAllByLabel input _ _ | ScanAllByLabelPropertyValue input _ _ _
  | ScanAllByLabelPropertyRange input _ _ _ | Expand input _
  | ExpandVariable input _ | ConstructNamedPath input | Filter input
  | Produce input _ | Delete input | SetProperty input | SetProperties input
  | SetLabels input | RemoveProperty input | RemoveLabels input
  | ExpandUniquenessFilter_VertexAccessor input _ _
  | ExpandUniquenessFilter_EdgeAccessor input _ _ | Accumulate input
  | Aggregate input _ _ | Skip input | Limit input | OrderBy input _
  | Unwind input | Distinct input | Explain input _ | Unlisted input =>
      Accept input (PrintOperator op p)
  end.

(** [PrettyPrint(dba, plan_root, out)] on an empty stream. *)
Definition PrettyPrint (plan_root : LogicalOperator) : string :=
  out_ (Accept plan_root (mkPrinter "" 0)).

(** *** The rendering in the specification's words

    A depth-indented tree: one [*] line per operator at the operator's
    depth; a branching operator then emits each non-input child behind a
    [|\ ] line, one level deeper, and its input at its own depth.  The
    [Once] leaf, which ends every branch, has no line. *)

Definition operator_text (op : LogicalOperator) : string :=
  match streamed op with
  | Some fun_ => fun_ ""
  | None => ""
  end.

Definition operator_line (depth : nat) (op : LogicalOperator) : string :=
  line_prefix depth +:+ operator_text op +:+ endl.

Definition branch_line (depth : nat) (branch_name : string) : string :=
  line_prefix depth +:+ "|\ " +:+ branch_name +:+ endl.

Fixpoint render (depth : nat) (op : LogicalOperator) : list string :=
  match op with
  | Once => []
  | CreateIndex _ _ | AuthHandler | CreateStream | DropStream
  | ShowStreams | StartStopStream | StartStopAllStreams | TestStream =>
      [operator_line depth op]
  | Merge input merge_match merge_create =>
      operator_line depth op
        :: (branch_line depth "On Match" :: render (S depth) merge_match)
        ++ (branch_line depth "On Create" :: render (S depth) merge_create)
        ++ render depth input
  | Optional input optional _ =>
      operator_line depth op
        :: (branch_line depth default_branch_name :: render (S depth) optional)
        ++ render depth input
  | Cartesian left_op right_op _ _ =>
      operator_line depth op
        :: (branch_line depth default_branch_name :: render (S depth) right_op)
        ++ render depth left_op
  | CreateNode input | CreateExpand input | ScanAll input _
  | ScanAllByLabel input _ _ | ScanAllByLabelPropertyValue input _ _ _
  | ScanAllByLabelPropertyRange input _ _ _ | Expand input _
  | ExpandVariable input _ | ConstructNamedPath input | Filter input
  | Produce input _ | Delete input | SetProperty input | SetProperties input
  | SetLabels input | RemoveProperty input | RemoveLabels input
  | ExpandUniquenessFilter_VertexAccessor input _ _
  | ExpandUniquenessFilter_EdgeAccessor input _ _ | Accumulate input
  | Aggregate input _ _ | Skip input | Limit input | OrderBy input _
  | Unwind input | Distinct input | Explain input _ | Unlisted input =>
      operator_line depth op :: render depth input
  end.

(** The lines, written one after the other. *)
Definition written (lines : list string) : string :=
  foldr String.append "" lines.

End Printer.

(** The number of operators of a plan. *)
Fixpoint operator_count (op : LogicalOperator) : nat :=
  match op with
  | Once | CreateIndex _ _ | AuthHandler | CreateStream | DropStream
  | ShowStreams | StartStopStream | StartStopAllStreams | TestStream => 1
  | Merge input merge_match merge_create =>
      1 + operator_count merge_match + operator_count merge_create
        + operator_count input
  | Optional input optional _ => 1 + operator_count optional + operator_count input
  | Cartesian left_op right_op _ _ =>
      1 + operator_count right_op + operator_count left_op
  | CreateNode input | CreateExpand input | ScanAll input _
  | ScanAllByLabel input _ _ | ScanAllByLabelPropertyValue input _ _ _
  | ScanAllByLabelPropertyRange input _ _ _ | Expand input _
  | ExpandVariable input _ | ConstructNamedPath input | Filter input
  | Produce input _ | Delete input | SetProperty input | SetProperties input
  | SetLabels input | RemoveProperty input | RemoveLabels input
  | ExpandUniquenessFilter_VertexAccessor input _ _
  | ExpandUniquenessFilter_EdgeAccessor input _ _ | Accumulate input
  | Aggregate input _ _ | Skip input | Limit input | OrderBy input _
  | Unwind input | Distinct input | Explain input _ | Unlisted input =>
      1 + operator_count input
  end.

(** The number of lines of a text: its line ends. *)
Fixpoint line_count (text : string) : nat :=
  match text with
  | EmptyString => 0
  | String c rest =>
      (if Ascii.eqb c "010"%char then 1 else 0) + line_count rest
  end.

(** *** A sample printer and plan

    One space, then a bar per level, in front of each line; no name on an
    unnamed branch; labels and properties print as letters. *)
Fixpoint sample_line_prefix_bars (depth : nat) : string :=
  match depth with
  | O => ""
  | S d => "| " +:+ sample_line_prefix_bars d
  end.

Definition sample_line_prefix (depth : nat) : string :=
  " " +:+ sample_line_prefix_bars depth.

Definition sample_LabelName (l : Label) : string := "L".
Definition sample_PropertyName (p : Property) : string := "p".

Definition sample_PrettyPrint : LogicalOperator -> string :=
  PrettyPrint sample_LabelName sample_PropertyName sample_line_prefix "".

Definition sample_symbol (name : string) (position : nat) : Symbol :=
  mkSymbol name position true Any (-1).

(** [MATCH (n)] *)
Definition sample_scan : LogicalOperator := ScanAll Once (sample_symbol "n" 0).

(** [MATCH (n) MERGE (n)-[r]->(m)] *)
Definition sample_merge : LogicalOperator :=
  Merge sample_scan
    (Expand Once (mkExpandCommon (sample_symbol "n" 0) (sample_symbol "r" 1)
                                 (sample_symbol "m" 2) OUT []))
    (CreateExpand Once).

End PrinterModel.

(** ** The interpreter and its plan cache (query/interpreter.hpp) *)

Module InterpreterModel.
Import PlanModel.

(** *** Doubles

    A [double] is a binary64 number, represented by its value, a ratio.
    The results of conversions and of arithmetic are rounded to 53
    significant bits, to the nearest, ties to even.  The range of the
    exponent is not modelled: the doubles computed here come from 64-bit
    counts of nanoseconds, far from overflow and from the subnormal
    numbers. *)
Definition double : Type := Q.

Definition mkDouble (num : Z) (den : positive) : double := Qmake num den.

(** Rounding to the nearest integer, ties to even. *)
Definition round_half_even (y : Q) : Z :=
  let q := Qfloor y in
  match (y - inject_Z q ?= 1 # 2)%Q with
  | Lt => q
  | Gt => (q + 1)%Z
  | Eq => if Z.even q then q else (q + 1)%Z
  end.

(** The exponent of the last of the 53 leading bits of a positive [x]: the
    [e] with 2^52 <= x / 2^e < 2^53. *)
Definition last_bit_exponent (x : Q) : Z :=
  let e := (Z.log2 (Qnum x) - Z.log2 (Zpos (Qden x)) - 52)%Z in
  if Qle_bool (2 ^ 52) (x * 2 ^ (- e))%Q then e else (e - 1)%Z.

(** Rounding of a positive [x] to 53 bits. *)
Definition rounded (x : Q) : Q :=
  (inject_Z (round_half_even (x * 2 ^ (- last_bit_exponent x)))
   * 2 ^ last_bit_exponent x)%Q.

Definition round_to_double (x : Q) : double :=
  match Qnum x with
  | Z0 => 0%Q
  | Zpos _ => rounded x
  | Zneg _ => (- rounded (- x))%Q
  end.

(** [static_cast<double>(z)] of a 64-bit integer, the division of doubles,
    and [static_cast<long long>(d)], which truncates towards zero. *)
Definition double_of_int64 (z : Z) : double := round_to_double (inject_Z z).

Definition double_div (a b : double) : double := round_to_double (a / b)%Q.

Definition int64_of_double (d : double) : Z :=
  if Qle_bool 0 d then Qfloor d else Qceiling d.

(** [TypedValue]: the tagged union of query values. *)
Inductive TypedValue :=
| TNull
| TBool (b : bool)
| TInt (i : Z)
| TDouble (d : double)
| TString (s : string)
| TList (l : list TypedValue)
| TMap (m : list (string * TypedValue))
| TVertex (v : nat)
| TEdge (e : nat)
| TPath (vertices_and_edges : list nat).

(** *** Symbol table and frame *)

(** Modelled from the spec: [SymbolTable] (query/frontend/semantic is not
    among the sources): a mapping from symbol slot to symbol, with
    [max_position] the next free slot. *)
Record SymbolTable := mkSymbolTable {
  max_position : nat;
  table : gmap nat Symbol
}.

Definition SymbolTable_new : SymbolTable := mkSymbolTable 0 ∅.

(** Modelled from the spec: [SymbolTable::CreateSymbol], which gives the
    new symbol the next free slot. *)
Definition CreateSymbol (st : SymbolTable) (name : string)
    (user_declared : bool) (type : SymbolType) (token_position : Z)
    : Symbol * SymbolTable :=
  let symbol := mkSymbol name (max_position st) user_declared type token_position in
  (symbol, mkSymbolTable (S (max_position st))
                         (<[max_position st := symbol]> (table st))).


(** Modelled from the spec: [Frame] (query/interpret/frame.hpp is not among
    the sources): a fixed-size vector of typed values indexed by symbol
    slot; a new frame holds nulls. *)
Definition Frame := list TypedValue.

Definition Frame_new (size : nat) : Frame := replicate size TNull.

(** [frame[symbol]] as an rvalue and as the target of an assignment.  The
    vector is not bounds-checked; a slot outside it has no defined
    behaviour in the source, and reads as null / is not written here. *)
Definition Frame_at (frame : Frame) (symbol : Symbol) : TypedValue :=
  default TNull (frame !! position symbol).

Definition Frame_assign (frame : Frame) (symbol : Symbol) (v : TypedValue)
    : Frame :=
  <[position symbol := v]> frame.

Definition Frame_assign_all (frame : Frame)
    (writes : list (Symbol * TypedValue)) : Frame :=
  foldl (fun fr w => Frame_assign fr w.1 w.2) frame writes.


(** *** Stripped queries, parameters, exceptions, result stream *)

Definition HashType := N.

(** [Parameters]: positions in the stripped query with their values. *)
Definition Parameters := list (Z * TypedValue).

Definition Parameters_Add (position : Z) (value : TypedValue)
    (ps : Parameters) : Parameters :=
  ps ++ [(position, value)].

(** What the interpreter reads from a [StrippedQuery]. *)
Record StrippedQuery := mkStrippedQuery {
  hash : HashType;
  literals : Parameters;
  parameters : list (Z * string);          (* token position, [$]-name *)
  named_expressions : gmap Z string     (* token position, source text *)
}.

Inductive QueryException :=
| UnprovidedParameterError (what : string)
| QueryRuntimeException (what : string)
| SyntaxException (what : string)
| SemanticException (what : string)
| OtherException (what : string).

(** The calls a [Stream] receives. *)
Inductive StreamCall :=
| Header (fields : list string)
| Result (values : list TypedValue)
| Summary (summary : gmap string TypedValue).

(** [utils::FindOr(map, key, or_value)] *)
Definition FindOr {K V} `{Countable K} (m : gmap K V) (key : K) (or_value : V)
    : V * bool :=
  match m !! key with
  | Some v => (v, true)
  | None => (or_value, false)
  end.

(** *** Time *)

(** Modelled from the spec: [utils::Timer] (utils/timer.hpp is not among
    the sources).  The timer keeps the reading of the steady clock at its
    construction, a count of nanoseconds, and [Elapsed()] is a
    [std::chrono::duration<double>], seconds held in a double (the summary
    reports its [count()] as seconds). *)
Definition time_point := Z.
Definition duration := double.

Definition nanoseconds_per_second : Z := 1000000000.

Record Timer := mkTimer { start_time_ : time_point }.

(** The nanoseconds between the construction of the timer and [now]:
    [std::chrono::steady_clock::now() - start_time_]. *)
Definition ticks_since (now : time_point) (t : Timer) : Z :=
  (now - start_time_ t)%Z.

(** [Elapsed()]: the conversion of that count to [duration<double>] turns
    the count into a double and divides it by the double 1e9. *)
Definition Elapsed (now : time_point) (t : Timer) : duration :=
  double_div (double_of_int64 (ticks_since now t))
             (double_of_int64 nanoseconds_per_second).

(** [elapsed.count()]: seconds, as a double. *)
Definition count (d : duration) : double := d.

(** [std::chrono::duration_cast<std::chrono::seconds>]: the double is
    converted to the integer count of seconds, which truncates towards
    zero. *)
Definition duration_cast_seconds (d : duration) : Z := int64_of_double d.

(** The clock readings of one [Interpret] call, in program order. *)
Record Clock := mkClock {
  at_frontend_start : time_point;      (* frontend_timer constructed *)
  at_cache_lookup : time_point;        (* IsExpired() *)
  at_frontend_end : time_point;        (* frontend_timer.Elapsed() *)
  at_planning_start : time_point;      (* planning_timer constructed *)
  at_plan_created : time_point;        (* CachedPlan constructed *)
  at_planning_end : time_point;        (* planning_timer.Elapsed() *)
  at_execution_start : time_point;     (* execution_timer constructed *)
  at_execution_end : time_point        (* execution_timer.Elapsed() *)
}.

(** *** Results of computations that may throw *)

Inductive Res (A : Type) :=
| Ok (a : A)
| Throw (e : QueryException).
Arguments Ok {A} a.
Arguments Throw {A} e.

Section Interpreter.

(** The state behind a [GraphDbAccessor], and the AST arena. *)
Context {Db AstTreeStorage : Type}.

(** [query::Context] *)
Record Context := mkContext {
  db_accessor_ : Db;
  in_explicit_transaction_ : bool;
  is_query_cached_ : bool;
  parameters_ : Parameters;
  symbol_table_ : SymbolTable;
  is_index_created_ : bool
}.

(** [Context ctx(db_accessor)] *)
Definition Context_new (db : Db) : Context :=
  mkContext db false false [] SymbolTable_new false.

(** Modelled from the spec: [Cursor] (query/plan/operator.hpp is not among
    the sources).  Each [Pull(frame, ctx)] either assigns frame slots and
    returns true, returns false, or throws; the context is updated on the
    way.  Cursors obey [Fresh -> Producing -> Exhausted]: after finitely
    many rows a cursor is exhausted. *)
Inductive Cursor :=
| MkCursor (Pull : Frame -> Context -> PullOutcome)
with PullOutcome :=
| PullTrue (writes : list (Symbol * TypedValue)) (ctx : Context) (next : Cursor)
| PullFalse (ctx : Context)
| PullThrow (e : QueryException) (ctx : Context).

Definition Exhausted : Cursor := MkCursor (fun _ ctx => PullFalse ctx).

(** What the interpreter gets from the rest of the query module and from
    the command line. *)
Class Collaborators := {
  (** [StrippedQuery stripped(query)] *)
  Strip : string -> StrippedQuery;
  (** [Interpreter::QueryToAst] *)
  QueryToAst : StrippedQuery -> Context -> Res (AstTreeStorage * Context);
  (** [ast_storage.query()->Accept(symbol_generator)], filling the table *)
  SymbolGenerator : AstTreeStorage -> SymbolTable -> Res SymbolTable;
  (** [Interpreter::MakeLogicalPlan] *)
  MakeLogicalPlan :
    AstTreeStorage -> Context ->
    Res (LogicalOperator * double * AstTreeStorage * Context);
  (** [LogicalOperator::OutputSymbols] *)
  OutputSymbols : LogicalOperator -> SymbolTable -> list Symbol;
  (** [LogicalOperator::MakeCursor] of every operator but [CreateIndex] *)
  OperatorCursor : LogicalOperator -> Db -> Cursor;
  (** [GraphDbAccessor::BuildIndex], as the [CreateIndex] cursor calls it *)
  BuildIndex : Label -> Property -> Context -> Res Db;
  FLAGS_query_plan_cache : bool;
  FLAGS_query_plan_cache_ttl : Z
}.
Context `{Collaborators}.

(** Modelled from the spec: the cursor of [CreateIndex] (query/plan/
    operator.cpp is not among the sources).  A single-shot control
    operation: it runs during the first pull, after which the context
    reports that an index was created, and then it is exhausted. *)
Definition CreateIndexCursor (label : Label) (property : Property) : Cursor :=
  MkCursor (fun _ ctx =>
    match BuildIndex label property ctx with
    | Ok db =>
        PullTrue []
          (mkContext db (in_explicit_transaction_ ctx) (is_query_cached_ ctx)
                     (parameters_ ctx) (symbol_table_ ctx) true)
          Exhausted
    | Throw e => PullThrow e ctx
    end).

Definition MakeCursor (op : LogicalOperator) (db : Db) : Cursor :=
  match op with
  | CreateIndex label property => CreateIndexCursor label property
  | _ => OperatorCursor op db
  end.

(** [Interpreter::CachedPlan] *)
Record CachedPlan := mkCachedPlan {
  plan_ : LogicalOperator;
  cost_ : double;
  plan_symbol_table_ : SymbolTable;
  ast_storage_ : AstTreeStorage;
  cache_timer_ : Timer
}.

Definition IsExpired (now : time_point) (p : CachedPlan) : bool :=
  let elapsed := Elapsed now (cache_timer_ p) in
  (FLAGS_query_plan_cache_ttl <? duration_cast_seconds elapsed)%Z.

(** Everything one [Interpret] call can change: [plan_cache_], the stream,
    its local [ctx] (and, through it, the database).  [frontend_runs] and
    [plans_executed] are ghost counters of the calls to [QueryToAst] and
    to [ExecutePlan]. *)
Record World := mkWorld {
  plan_cache_ : gmap HashType CachedPlan;
  stream_ : list StreamCall;
  ctx_ : Context;
  frontend_runs : nat;
  plans_executed : nat
}.

Definition with_plan_cache (c : gmap HashType CachedPlan) (w : World) : World :=
  mkWorld c (stream_ w) (ctx_ w) (frontend_runs w) (plans_executed w).
Definition with_ctx (ctx : Context) (w : World) : World :=
  mkWorld (plan_cache_ w) (stream_ w) ctx (frontend_runs w) (plans_executed w).
Definition stream_call (c : StreamCall) (w : World) : World :=
  mkWorld (plan_cache_ w) (stream_ w ++ [c]) (ctx_ w) (frontend_runs w)
          (plans_executed w).

(** [w'] differs from [w] at most in what the local [ctx] holds besides
    the accessor. *)
Definition untouched (w w' : World) : Prop :=
  plan_cache_ w' = plan_cache_ w
  /\ stream_ w' = stream_ w
  /\ frontend_runs w' = frontend_runs w
  /\ plans_executed w' = plans_executed w
  /\ db_accessor_ (ctx_ w') = db_accessor_ (ctx_ w).

(** State and exceptions. *)
Definition M (A : Type) : Type := World -> Res A * World.

Definition ret {A} (a : A) : M A := fun w => (Ok a, w).
Definition throw {A} (e : QueryException) : M A := fun w => (Throw e, w).
Definition bind {A B} (m : M A) (k : A -> M B) : M B :=
  fun w => match m w with
           | (Ok a, w') => k a w'
           | (Throw e, w') => (Throw e, w')
           end.
Definition get : M World := fun w => (Ok w, w).
Definition modify (f : World -> World) : M unit := fun w => (Ok tt, f w).
Definition lift {A} (r : Res A) : M A := fun w => (r, w).

Notation "'let*' x ':=' m 'in' k" := (bind m (fun x => k))
  (at level 10, x pattern, m at level 100, k at level 200).

Definition set_parameters (ps : Parameters) (ctx : Context) : Context :=
  mkContext (db_accessor_ ctx) (in_explicit_transaction_ ctx)
            (is_query_cached_ ctx) ps (symbol_table_ ctx)
            (is_index_created_ ctx).

Definition set_symbol_table (st : SymbolTable) (ctx : Context) : Context :=
  mkContext (db_accessor_ ctx) (in_explicit_transaction_ ctx)
            (is_query_cached_ ctx) (parameters_ ctx) st
            (is_index_created_ ctx).

(** The first statements of [Interpret]: a new [ctx] over the accessor. *)
Definition InitContext (in_explicit_transaction : bool) (w : World) : World :=
  with_ctx (mkContext (db_accessor_ (ctx_ w)) in_explicit_transaction true []
                      SymbolTable_new false) w.

(** The loop over [stripped.parameters()]. *)
Fixpoint AddParameters (stripped_parameters : list (Z * string))
    (params : gmap string TypedValue) : M unit :=
  match stripped_parameters with
  | [] => ret tt
  | param_pair :: rest =>
      match params !! param_pair.2 with
      | None =>
          throw (UnprovidedParameterError
                   ("Parameter$ " +:+ param_pair.2 +:+ " not provided"))
      | Some value =>
          let* _ := modify (fun w =>
            with_ctx (set_parameters
                        (Parameters_Add param_pair.1 value (parameters_ (ctx_ w)))
                        (ctx_ w)) w) in
          AddParameters rest params
      end
  end.

(** The lambda that looks for a cached plan. *)
Definition FindCachedPlan (now : time_point) (stripped : StrippedQuery)
    : M (option CachedPlan) :=
  let* w := get in
  match plan_cache_ w !! hash stripped with
  | Some cached =>
      if IsExpired now cached
      then
        (* Remove the expired plan. *)
        let* _ := modify (with_plan_cache (delete (hash stripped) (plan_cache_ w))) in
        ret None
      else ret (Some cached)
  | None => ret None
  end.

(** An entry survives the lookup unless it is the expired entry of this
    query. *)
Definition kept (now : time_point) (stripped : StrippedQuery)
    (h : HashType) (cached : CachedPlan) : Prop :=
  h <> hash stripped \/ IsExpired now cached = false.

(** [ConcurrentMap::insert]: inserts when the key is absent and hands back
    the entry that is in the map. *)
Definition ConcurrentMap_insert (key : HashType) (value : CachedPlan)
    (m : gmap HashType CachedPlan)
    : CachedPlan * bool * gmap HashType CachedPlan :=
  match m !! key with
  | Some present => (present, false, m)
  | None => (value, true, <[key := value]> m)
  end.

(** The body of [if (!cached_plan)]: query to AST to logical plan. *)
Definition CompilePlan (clock : Clock) (stripped : StrippedQuery) : M CachedPlan :=
  let* _ := modify (fun w =>
    mkWorld (plan_cache_ w) (stream_ w) (ctx_ w) (S (frontend_runs w))
            (plans_executed w)) in
  let* w := get in
  let* (ast_storage, ctx) := lift (QueryToAst stripped (ctx_ w)) in
  let* symbol_table := lift (SymbolGenerator ast_storage (symbol_table_ ctx)) in
  let ctx := set_symbol_table symbol_table ctx in
  let* (tmp_logical_plan, query_plan_cost_estimation, ast_storage, ctx) :=
    lift (MakeLogicalPlan ast_storage ctx) in
  let* _ := modify (with_ctx ctx) in
  let cached_plan :=
    mkCachedPlan tmp_logical_plan query_plan_cost_estimation
                 (symbol_table_ ctx) ast_storage
                 (mkTimer (at_plan_created clock)) in
  if FLAGS_query_plan_cache
  then
    (* Cache the generated plan. *)
    let* w := get in
    let '(entry, _, cache) :=
      ConcurrentMap_insert (hash stripped) cached_plan (plan_cache_ w) in
    let* _ := modify (with_plan_cache cache) in
    ret entry
  else ret cached_plan.

(** [while (cursor->Pull(frame, ctx))] with the row streamed out. *)
Fixpoint StreamResults (cursor : Cursor) (frame : Frame)
    (output_symbols : list Symbol) (w : World) : Res unit * World :=
  match cursor with
  | MkCursor Pull =>
      match Pull frame (ctx_ w) with
      | PullTrue writes ctx next =>
          let frame := Frame_assign_all frame writes in
          let values := map (Frame_at frame) output_symbols in
          StreamResults next frame output_symbols
            (stream_call (Result values) (with_ctx ctx w))
      | PullFalse ctx => (Ok tt, with_ctx ctx w)
      | PullThrow e ctx => (Throw e, with_ctx ctx w)
      end
  end.

(** [while (cursor->Pull(frame, ctx)) continue;] *)
Fixpoint Drain (cursor : Cursor) (frame : Frame) (w : World)
    : Res unit * World :=
  match cursor with
  | MkCursor Pull =>
      match Pull frame (ctx_ w) with
      | PullTrue writes ctx next =>
          Drain next (Frame_assign_all frame writes) (with_ctx ctx w)
      | PullFalse ctx => (Ok tt, with_ctx ctx w)
      | PullThrow e ctx => (Throw e, with_ctx ctx w)
      end
  end.

(** [pulled cursor frame ctx rows r ctx']: pulling [cursor] again and
    again, first on [frame] and [ctx] and then on what the pull before left
    of them, returns true [rows] times and then either returns false ([r] is
    [Ok tt]) or throws ([r] throws the same); [ctx'] is the context after
    that last pull. *)
Inductive pulled
  : Cursor -> Frame -> Context -> nat -> Res unit -> Context -> Prop :=
| pulled_false Pull frame ctx ctx' :
    Pull frame ctx = PullFalse ctx' ->
    pulled (MkCursor Pull) frame ctx 0 (Ok tt) ctx'
| pulled_throw Pull frame ctx e ctx' :
    Pull frame ctx = PullThrow e ctx' ->
    pulled (MkCursor Pull) frame ctx 0 (Throw e) ctx'
| pulled_true Pull frame ctx writes ctx1 next rows r ctx' :
    Pull frame ctx = PullTrue writes ctx1 next ->
    pulled next (Frame_assign_all frame writes) ctx1 rows r ctx' ->
    pulled (MkCursor Pull) frame ctx (S rows) r ctx'.

(** The chain of [dynamic_cast]s in [ExecutePlan]. *)
Definition is_write_root (logical_plan : LogicalOperator) : bool :=
  match logical_plan with
  | CreateNode _ | CreateExpand _ | SetProperty _ | SetProperties _
  | SetLabels _ | RemoveProperty _ | RemoveLabels _ | Delete _
  | Merge _ _ _ | CreateIndex _ _ => true
  | _ => false
  end.

(** [Frame frame(ctx.symbol_table_.max_position())] *)
Definition ExecutePlan_frame (ctx : Context) : Frame :=
  Frame_new (max_position (symbol_table_ ctx)).

(** The header entry of one output symbol. *)
Definition header_field (stripped : StrippedQuery) (symbol : Symbol) : string :=
  (FindOr (named_expressions stripped) (token_position symbol) (name symbol)).1.

(** [Interpreter::ExecutePlan] *)
Definition ExecutePlan (logical_plan : LogicalOperator)
    (stripped : StrippedQuery) : M unit :=
  let* _ := modify (fun w =>
    mkWorld (plan_cache_ w) (stream_ w) (ctx_ w) (frontend_runs w)
            (S (plans_executed w))) in
  let* w := get in
  (* Generate frame based on symbol table max_position. *)
  let frame := ExecutePlan_frame (ctx_ w) in
  let output_symbols := OutputSymbols logical_plan (symbol_table_ (ctx_ w)) in
  if negb (bool_decide (output_symbols = []))
  then
    let header := map (header_field stripped) output_symbols in
    let* _ := modify (stream_call (Header header)) in
    StreamResults (MakeCursor logical_plan (db_accessor_ (ctx_ w))) frame
                  output_symbols
  else if is_write_root logical_plan
  then
    let* _ := modify (stream_call (Header [])) in
    Drain (MakeCursor logical_plan (db_accessor_ (ctx_ w))) frame
  else
    throw (QueryRuntimeException "Unknown top level LogicalOperator").

(** The loop that removes every entry the accessor iterates over. *)
Definition InvalidateCache (cache : gmap HashType CachedPlan)
    : gmap HashType CachedPlan :=
  foldl (fun acc cached_plan => delete cached_plan.1 acc) cache
        (map_to_list cache).

Definition MakeSummary (frontend_time planning_time execution_time : duration)
    (cost : double) : gmap string TypedValue :=
  <["type" := TString "rw"]>
    (<["cost_estimate" := TDouble cost]>
       (<["plan_execution_time" := TDouble (count execution_time)]>
          (<["planning_time" := TDouble (count planning_time)]>
             (<["parsing_time" := TDouble (count frontend_time)]> ∅)))).

(** The plan [Interpret] runs: the cached one, or a newly compiled one. *)
Definition ObtainPlan (clock : Clock) (stripped : StrippedQuery) : M CachedPlan :=
  let* cached_plan := FindCachedPlan (at_cache_lookup clock) stripped in
  match cached_plan with
  | Some cached_plan => ret cached_plan
  | None => CompilePlan clock stripped
  end.

(** [Interpreter::Interpret] *)
Definition Interpret (query : string) (params : gmap string TypedValue)
    (in_explicit_transaction : bool) (clock : Clock) : M unit :=
  let frontend_timer := mkTimer (at_frontend_start clock) in
  let* _ := modify (InitContext in_explicit_transaction) in
  (* query -> stripped query *)
  let stripped := Strip query in
  (* Update context with provided parameters. *)
  let* _ := modify (fun w => with_ctx (set_parameters (literals stripped) (ctx_ w)) w) in
  let* _ := AddParameters (parameters stripped) params in
  let frontend_time := Elapsed (at_frontend_end clock) frontend_timer in
  let planning_timer := mkTimer (at_planning_start clock) in
  let* cached_plan := ObtainPlan clock stripped in
  let* _ := modify (fun w =>
    with_ctx (set_symbol_table (plan_symbol_table_ cached_plan) (ctx_ w)) w) in
  let planning_time := Elapsed (at_planning_end clock) planning_timer in
  let execution_timer := mkTimer (at_execution_start clock) in
  let* _ := ExecutePlan (plan_ cached_plan) stripped in
  let execution_time := Elapsed (at_execution_end clock) execution_timer in
  let* w := get in
  let* _ :=
    if is_index_created_ (ctx_ w)
    then modify (with_plan_cache (InvalidateCache (plan_cache_ w)))
    else ret tt in
  let summary :=
    MakeSummary frontend_time planning_time execution_time (cost_ cached_plan) in
  modify (stream_call (Summary summary)).

(** The phases of [Interpret] around [ExecutePlan], for the properties:
    everything up to [ctx.symbol_table_ = cached_plan->symbol_table()],
    and everything after the plan has run. *)
Definition Prepare (query : string) (params : gmap string TypedValue)
    (in_explicit_transaction : bool) (clock : Clock) : M CachedPlan :=
  let* _ := modify (InitContext in_explicit_transaction) in
  let stripped := Strip query in
  let* _ := modify (fun w => with_ctx (set_parameters (literals stripped) (ctx_ w)) w) in
  let* _ := AddParameters (parameters stripped) params in
  let* cached_plan := ObtainPlan clock stripped in
  let* _ := modify (fun w =>
    with_ctx (set_symbol_table (plan_symbol_table_ cached_plan) (ctx_ w)) w) in
  ret cached_plan.

Definition Finish (clock : Clock) (cached_plan : CachedPlan) : M unit :=
  let frontend_time :=
    Elapsed (at_frontend_end clock) (mkTimer (at_frontend_start clock)) in
  let planning_time :=
    Elapsed (at_planning_end clock) (mkTimer (at_planning_start clock)) in
  let execution_time :=
    Elapsed (at_execution_end clock) (mkTimer (at_execution_start clock)) in
  let* w := get in
  let* _ :=
    if is_index_created_ (ctx_ w)
    then modify (with_plan_cache (InvalidateCache (plan_cache_ w)))
    else ret tt in
  modify (stream_call
            (Summary (MakeSummary frontend_time planning_time execution_time
                                  (cost_ cached_plan)))).

(** The world in which the plan starts to run. *)
Definition started (w : World) : World :=
  mkWorld (plan_cache_ w) (stream_ w) (ctx_ w) (frontend_runs w)
          (S (plans_executed w)).

(** The world after the plan has run without error. *)
Definition finished (clock : Clock) (cached_plan : CachedPlan) (w : World)
    : World :=
  stream_call
    (Summary (MakeSummary
                (Elapsed (at_frontend_end clock) (mkTimer (at_frontend_start clock)))
                (Elapsed (at_planning_end clock) (mkTimer (at_planning_start clock)))
                (Elapsed (at_execution_end clock) (mkTimer (at_execution_start clock)))
                (cost_ cached_plan)))
    (if is_index_created_ (ctx_ w)
     then with_plan_cache (InvalidateCache (plan_cache_ w)) w
     else w).

(** What running a cursor leaves alone, and what it streams. *)
Definition ran (only : StreamCall -> bool) (w w' : World) : Prop :=
  plan_cache_ w' = plan_cache_ w
  /\ frontend_runs w' = frontend_runs w
  /\ plans_executed w' = plans_executed w
  /\ exists calls,
       stream_ w' = stream_ w ++ calls /\ Forall (fun c => only c = true) calls.

Definition is_Summary (c : StreamCall) : bool :=
  match c with Summary _ => true | _ => false end.

Definition is_Result (c : StreamCall) : bool :=
  match c with Result _ => true | _ => false end.

(** An [Interpreter] holding [cache], called with [stream] on the accessor
    state [db]. *)
Definition enter (cache : gmap HashType CachedPlan) (stream : list StreamCall)
    (db : Db) : World :=
  mkWorld cache stream (Context_new db) 0 0.

End Interpreter.
End InterpreterModel.

(** ** Operator cursors, row by row (specification, section 4.5) *)

Module OperatorModel.
Import PlanModel InterpreterModel.

(** The graph a transaction sees. *)
Record EdgeRecord := mkEdgeRecord {
  edge_id : nat;
  edge_from : nat;
  edge_to : nat;
  edge_type : EdgeTypeId
}.

Record Graph := mkGraph {
  vertices : list nat;
  edges : list EdgeRecord
}.

(** Equality of the handles two frame slots hold. *)
Definition same_handle (a b : TypedValue) : bool :=
  match a, b with
  | TVertex x, TVertex y => (x =? y)%nat
  | TEdge x, TEdge y => (x =? y)%nat
  | _, _ => false
  end.

Definition type_matches (types : list EdgeTypeId) (e : EdgeRecord) : bool :=
  match types with
  | [] => true
  | _ => existsb (Nat.eqb (edge_type e)) types
  end.

(** The edges of [v] in one direction, each with its far end. *)
Definition incident (g : Graph) (v : nat) (d : Direction)
    (types : list EdgeTypeId) : list (nat * nat) :=
  let out_edges :=
    map (fun e => (edge_id e, edge_to e))
        (filter (fun e => edge_from e = v ∧ type_matches types e) (edges g)) in
  let in_edges :=
    map (fun e => (edge_id e, edge_from e))
        (filter (fun e => edge_to e = v ∧ type_matches types e) (edges g)) in
  match d with
  | OUT => out_edges
  | IN => in_edges
  | BOTH => in_edges ++ out_edges
  end.

(** Modelled from the spec: the [Expand] cursor on one input row.  For the
    current [input_symbol] vertex it yields one row per matching edge, with
    [edge_symbol] and the far-end [node_symbol] bound; on a null
    [input_symbol] it yields once with both null. *)
Definition ExpandRow (g : Graph) (c : ExpandCommon) (row : Frame)
    : option (list Frame) :=
  match Frame_at row (input_symbol c) with
  | TNull =>
      Some [Frame_assign (Frame_assign row (edge_symbol c) TNull)
                         (node_symbol c) TNull]
  | TVertex v =>
      Some (map (fun en =>
                   Frame_assign (Frame_assign row (edge_symbol c) (TEdge en.1))
                                (node_symbol c) (TVertex en.2))
                (incident g v (direction c) (edge_types c)))
  | _ => None
  end.

(** Modelled from the spec: the test of [ExpandUniquenessFilter] on one
    row.  The row is dropped if [current_sym] equals any of
    [previous_syms]; the check is skipped if [current_sym] is null. *)
Definition UniquenessPasses (current_sym : Symbol)
    (previous_syms : list Symbol) (row : Frame) : bool :=
  match Frame_at row current_sym with
  | TNull => true
  | current =>
      forallb (fun previous => negb (same_handle current (Frame_at row previous)))
              previous_syms
  end.

(** Modelled from the spec: [Optional] on one input row and the rows its
    branch yielded for it. *)
Definition OptionalRows (optional_symbols : list Symbol) (row : Frame)
    (branch_rows : list Frame) : list Frame :=
  match branch_rows with
  | [] => [Frame_assign_all row (map (fun s => (s, TNull)) optional_symbols)]
  | _ => branch_rows
  end.

(** Modelled from the spec: [Produce] evaluates and binds the projections. *)
Definition Evaluate (e : Expression) (row : Frame) : option TypedValue :=
  match e with
  | Identifier symbol => Some (Frame_at row symbol)
  | OtherExpression _ => None
  end.

Fixpoint ProduceRow (named_expressions : list NamedExpression) (row : Frame)
    : option Frame :=
  match named_expressions with
  | [] => Some row
  | ne :: rest =>
      match Evaluate (expression_ ne) row with
      | Some v => ProduceRow rest (Frame_assign row (named_symbol ne) v)
      | None => None
      end
  end.

(** Modelled from the spec: the rows an operator's cursor yields when it is
    pulled until exhaustion, starting on the frame [frame]
    (query/plan/operator.cpp is not among the sources).  [None] for the
    operators whose cursors are not modelled. *)
Fixpoint PullAll (g : Graph) (op : LogicalOperator) (frame : Frame)
    : option (list Frame) :=
  match op with
  | Once => Some [frame]
  | ScanAll input output_symbol =>
      rows ← PullAll g input frame;
      Some (flat_map (fun row =>
                        map (fun v => Frame_assign row output_symbol (TVertex v))
                            (vertices g))
                     rows)
  | Expand input common =>
      rows ← PullAll g input frame;
      @concat _ <$> mapM (ExpandRow g common) rows
  | ExpandUniquenessFilter_VertexAccessor input expand_symbol previous_symbols
  | ExpandUniquenessFilter_EdgeAccessor input expand_symbol previous_symbols =>
      rows ← PullAll g input frame;
      Some (filter (fun row => UniquenessPasses expand_symbol previous_symbols row
                               = true) rows)
  | Optional input optional optional_symbols =>
      rows ← PullAll g input frame;
      @concat _ <$> mapM (fun row =>
                         OptionalRows optional_symbols row <$> PullAll g optional row)
                      rows
  | Produce input named_expressions =>
      rows ← PullAll g input frame;
      mapM (ProduceRow named_expressions) rows
  | _ => None
  end.

(** *** A cursor that hands out given rows *)

Definition writes_of_row (row : Frame) : list (Symbol * TypedValue) :=
  imap (fun slot v => (mkSymbol "" slot false Any (-1), v)) row.

Fixpoint Replay (rows : list Frame) : @Cursor Graph :=
  match rows with
  | [] => Exhausted
  | row :: rest =>
      MkCursor (fun _ ctx => PullTrue (writes_of_row row) ctx (Replay rest))
  end.

End OperatorModel.

(** ** Sample queries *)

Module Scenarios.
Import PlanModel InterpreterModel OperatorModel.

(** The graph made by [CREATE (), ()-[:Type]->()]. *)
Definition graph : Graph := mkGraph [0; 1; 2] [mkEdgeRecord 0 1 2 0].

(** The symbols of
    [MATCH (n) OPTIONAL MATCH (n)-[r1]->(), (n)-[r2]->() RETURN n, r1, r2],
    in the order the symbol table hands them out. *)
Definition symbol_specs : list (string * bool * SymbolType * Z) :=
  [("n", true, Vertex, -1); ("r1", true, Edge, -1); ("anon1", false, Vertex, -1);
   ("r2", true, Edge, -1); ("anon2", false, Vertex, -1);
   ("n", true, Any, 20); ("r1", true, Any, 23); ("r2", true, Any, 27)]%Z.

Definition symbol_table : SymbolTable :=
  foldl (fun st spec =>
           (CreateSymbol st spec.1.1.1 spec.1.1.2 spec.1.2 spec.2).2)
        SymbolTable_new symbol_specs.

Definition symbol_at (slot : nat) : Symbol :=
  default (mkSymbol "" slot false Any (-1)) (table symbol_table !! slot).

Definition n := symbol_at 0.
Definition r1 := symbol_at 1.
Definition anon1 := symbol_at 2.
Definition r2 := symbol_at 3.
Definition anon2 := symbol_at 4.

(** The plan of the query: a scan for [n]; the optional part expands [r1]
    and [r2] from [n] and keeps the rows whose [r2] differs from [r1]. *)
Definition optional_branch : LogicalOperator :=
  ExpandUniquenessFilter_EdgeAccessor
    (Expand (Expand Once (mkExpandCommon n r1 anon1 OUT []))
            (mkExpandCommon n r2 anon2 OUT []))
    r2 [r1].

Definition optional_match_plan : LogicalOperator :=
  Produce
    (Optional (ScanAll Once n) optional_branch [r1; anon1; r2; anon2])
    [mkNamedExpression "n" (Identifier n) (symbol_at 5);
     mkNamedExpression "r1" (Identifier r1) (symbol_at 6);
     mkNamedExpression "r2" (Identifier r2) (symbol_at 7)].

Definition optional_match_query : string :=
  "MATCH (n) OPTIONAL MATCH (n)-[r1]->(), (n)-[r2]->() RETURN n, r1, r2".

(** A cursor that hands out the rows of [PullAll]. *)
Definition RowsCursor (op : LogicalOperator) : @Cursor Graph :=
  MkCursor (fun frame ctx =>
    match PullAll (db_accessor_ ctx) op frame with
    | Some (row :: rest) => PullTrue (writes_of_row row) ctx (Replay rest)
    | Some [] => PullFalse ctx
    | None => PullThrow (OtherException "no cursor") ctx
    end).

(** Collaborators that strip every query text to [stripped] and compile it
    to [plan] over [symbol_table]; only a [Produce] root has output
    symbols, and creating an index always succeeds. *)
Definition collaborators (stripped : StrippedQuery) (plan : LogicalOperator)
    (cache_on : bool) (ttl : Z) : @Collaborators Graph unit :=
  {| Strip _ := stripped;
     QueryToAst _ ctx := Ok (tt, ctx);
     SymbolGenerator _ _ := Ok symbol_table;
     MakeLogicalPlan ast ctx := Ok (plan, mkDouble 1 1, ast, ctx);
     OutputSymbols op _ :=
       match op with
       | Produce _ named_expressions => map named_symbol named_expressions
       | _ => []
       end;
     OperatorCursor op _ := RowsCursor op;
     BuildIndex _ _ ctx := Ok (db_accessor_ ctx);
     FLAGS_query_plan_cache := cache_on;
     FLAGS_query_plan_cache_ttl := ttl |}.

Definition stripped_optional_match : StrippedQuery :=
  mkStrippedQuery 11%N [] []
    (<[20%Z := "n"]> (<[23%Z := "r1"]> (<[27%Z := "r2"]> ∅))).

(** A stripped query that names the user parameter [$id]. *)
Definition stripped_with_parameter : StrippedQuery :=
  mkStrippedQuery 12%N [] [(17%Z, "id")] ∅.

Definition stripped_create_index : StrippedQuery := mkStrippedQuery 13%N [] [] ∅.

Definition stripped_match_only : StrippedQuery := mkStrippedQuery 14%N [] [] ∅.

Definition clock : Clock := mkClock 0%Z 1%Z 2%Z 3%Z 4%Z 5%Z 6%Z 7%Z.

(** A clock whose cache lookup happens five and a half seconds after time
    0. *)
Definition late_clock : Clock :=
  mkClock 5400000000%Z 5500000000%Z 5500000001%Z 5500000002%Z 5500000003%Z
          5500000004%Z 5500000005%Z 5500000006%Z.

(** A clock whose cache lookup happens seven seconds after time 0. *)
Definition expiry_clock : Clock :=
  mkClock 6900000000%Z 7000000000%Z 7000000001%Z 7000000002%Z 7000000003%Z
          7000000004%Z 7000000005%Z 7000000006%Z.

(** The sample interpreters: one per query, all with the plan cache on; the
    entries live for sixty seconds, or for five. *)
Definition optional_match_interpreter : @Collaborators Graph unit :=
  collaborators stripped_optional_match optional_match_plan true 60.

Definition create_index_interpreter : @Collaborators Graph unit :=
  collaborators stripped_create_index (CreateIndex 0 0) true 60.

Definition match_only_interpreter : @Collaborators Graph unit :=
  collaborators stripped_match_only (ScanAll Once n) true 60.

Definition short_lived_interpreter : @Collaborators Graph unit :=
  collaborators stripped_match_only (ScanAll Once n) true 5.

Definition parameter_interpreter : @Collaborators Graph unit :=
  collaborators stripped_with_parameter (ScanAll Once n) true 60.

(** An interpreter whose cache entries have a negative time to live. *)
Definition forgetful_interpreter : @Collaborators Graph unit :=
  collaborators stripped_match_only (ScanAll Once n) true (-1).

(** A sample cursor of a write root: each pull deletes the first vertex the
    accessor still has, and throws when an edge starts or ends there;
    without vertices, or after [pulls] pulls, it is exhausted. *)
Definition delete_first_vertex (rest : list nat) (ctx : @Context Graph)
    : @Context Graph :=
  mkContext (mkGraph rest (edges (db_accessor_ ctx)))
            (in_explicit_transaction_ ctx) (is_query_cached_ ctx)
            (parameters_ ctx) (symbol_table_ ctx) (is_index_created_ ctx).

Fixpoint DeleteCursor (pulls : nat) : @Cursor Graph :=
  match pulls with
  | 0 => Exhausted
  | S pulls =>
      MkCursor (fun _ ctx =>
        match vertices (db_accessor_ ctx) with
        | [] => PullFalse ctx
        | v :: rest =>
            if bool_decide (incident (db_accessor_ ctx) v BOTH [] = [])
            then PullTrue [] (delete_first_vertex rest ctx) (DeleteCursor pulls)
            else PullThrow (OtherException "vertex has edges") ctx
        end)
  end.

Definition stripped_delete : StrippedQuery := mkStrippedQuery 15%N [] [] ∅.

(** An interpreter that compiles every query to a [Delete] root, which has
    no output symbols. *)
Definition delete_interpreter : @Collaborators Graph unit :=
  {| Strip _ := stripped_delete;
     QueryToAst _ ctx := Ok (tt, ctx);
     SymbolGenerator _ _ := Ok symbol_table;
     MakeLogicalPlan ast ctx :=
       Ok (Delete (ScanAll Once n), mkDouble 1 1, ast, ctx);
     OutputSymbols _ _ := [];
     OperatorCursor _ _ := DeleteCursor 3;
     BuildIndex _ _ ctx := Ok (db_accessor_ ctx);
     FLAGS_query_plan_cache := true;
     FLAGS_query_plan_cache_ttl := 60 |}.

Definition delete_plan : @CachedPlan unit :=
  mkCachedPlan (Delete (ScanAll Once n)) (mkDouble 1 1) symbol_table tt
               (mkTimer 4%Z).

(** Two vertices and no edge. *)
Definition lonely_graph : Graph := mkGraph [0; 1] [].

(** A plan that was cached at time 0, and the cache that holds it under
    the hash of another query, or under the hash of [MATCH (n)]. *)
Definition old_plan : @CachedPlan unit :=
  mkCachedPlan (ScanAll Once n) (mkDouble 1 1) symbol_table tt (mkTimer 0%Z).

Definition other_cache : gmap HashType (@CachedPlan unit) := {[ 5%N := old_plan ]}.

Definition match_only_cache : gmap HashType (@CachedPlan unit) :=
  {[ 14%N := old_plan ]}.

(** What [Interpret] compiles for [CREATE INDEX] and for [MATCH (n)] at
    [clock]. *)
Definition create_index_plan : @CachedPlan unit :=
  mkCachedPlan (CreateIndex 0 0) (mkDouble 1 1) symbol_table tt (mkTimer 4%Z).

Definition match_only_plan : @CachedPlan unit :=
  mkCachedPlan (ScanAll Once n) (mkDouble 1 1) symbol_table tt (mkTimer 4%Z).

(** What a lookup at [expiry_clock] compiles for [MATCH (n)] in place of an
    expired plan. *)
Definition recompiled_plan : @CachedPlan unit :=
  mkCachedPlan (ScanAll Once n) (mkDouble 1 1) symbol_table tt
               (mkTimer 7000000003%Z).

(** A plan that is one nanosecond short of ten million seconds old at
    time 0. *)
Definition aged_plan : @CachedPlan unit :=
  mkCachedPlan (ScanAll Once n) (mkDouble 1 1) symbol_table tt
               (mkTimer (-9999999999999999)%Z).

End Scenarios.

(** ** The console (query/console.cpp) *)

Module ConsoleModel.
Import InterpreterModel.

Definition endl : string := String "010"%char "".

(** The local helper [PrintIterable(stream, iterable, delim, converter)]:
    the loop with its [first] flag. *)
Fixpoint PrintIterable_from {A} (first : bool) (stream : string)
    (iterable : list A) (delim : string) (converter : A -> string) : string :=
  match iterable with
  | [] => stream
  | item :: rest =>
      let stream := if first then stream else stream +:+ delim in
      PrintIterable_from false (stream +:+ converter item) rest delim converter
  end.

Definition PrintIterable {A} (stream : string) (iterable : list A)
    (delim : string) (converter : A -> string) : string :=
  PrintIterable_from true stream iterable delim converter.

(** A value stored into an [int] (32 bits, two's complement), and into a
    [size_t] or [unsigned long] (64 bits). *)
Definition int_of (z : Z) : Z := ((z + 2 ^ 31) mod 2 ^ 32 - 2 ^ 31)%Z.
Definition size_t_of (z : Z) : Z := (z mod 2 ^ 64)%Z.

(** A loop [for (int i = 0; i < v.size(); ++i)] ends without overflow of
    [i] when the vector has fewer than 2^31 elements. *)
Definition int_indexable {A} (v : list A) : bool :=
  (Z.of_nat (length v) <? 2 ^ 31)%Z.

(** What [PrintResults] reads from a [ResultStreamFaker]; the summary is a
    [std::map], listed here in the order of its keys. *)
Record ResultStreamFaker := mkResults {
  GetHeader : list string;
  GetResults : list (list TypedValue);
  GetSummary : list (string * TypedValue)
}.

(** How a piece of the console ends: normally; with an access outside a
    vector or an overflow of a loop index, where the behaviour is
    undefined; or with the [std::length_error] of a string that would be
    too long. *)
Inductive Outcome (A : Type) :=
| Done (a : A)
| Undefined
| LengthError.
Arguments Done {A} a.
Arguments Undefined {A}.
Arguments LengthError {A}.

Definition and_then {A B} (o : Outcome A) (k : A -> Outcome B) : Outcome B :=
  match o with
  | Done a => k a
  | Undefined => Undefined
  | LengthError => LengthError
  end.

Notation "'do' x '<-' o ';' k" := (and_then o (fun x => k))
  (at level 10, x pattern, o at level 100, k at level 200).

(** [count] copies of [ch]. *)
Fixpoint copies (count : nat) (ch : ascii) : string :=
  match count with
  | O => ""
  | S count => String ch (copies count ch)
  end.

Section Console.

(** [TypedValueToString] prints vertices and edges through their accessors
    and everything else with the stream operator of [TypedValue]; neither is
    among the sources, and [PrintResults] only needs the text. *)
Variable TypedValueToString : TypedValue -> string.

(** [std::string::max_size()] *)
Variable string_max_size : Z.

(** [std::string(count, ch)] with [count] a [size_t]. *)
Definition string_of_copies (count : Z) (ch : ascii) : Outcome string :=
  if (string_max_size <? count)%Z then LengthError
  else Done (copies (Z.to_nat count) ch).

(** The inner loop of the conversion, over the columns of one row:
    [remaining] columns are left, the next one is [col_ind]. *)
Fixpoint convert_columns (remaining col_ind : nat) (row : list TypedValue)
    (column_widths : list Z) (strings : list string)
    : Outcome (list Z * list string) :=
  match remaining with
  | O => Done (column_widths, strings)
  | S remaining =>
      match row !! col_ind with
      | None => Undefined
      | Some value =>
          let string_val := TypedValueToString value in
          let column_widths :=
            <[col_ind := Z.max (default 0%Z (column_widths !! col_ind))
                               (int_of (Z.of_nat (String.length string_val)))]>
              column_widths in
          convert_columns remaining (S col_ind) row column_widths
                          (<[col_ind := string_val]> strings)
      end
  end.

(** The outer loop: all the results into strings, tracking the widths. *)
Fixpoint convert_rows (results_data : list (list TypedValue))
    (column_widths : list Z) : Outcome (list Z * list (list string)) :=
  match results_data with
  | [] => Done (column_widths, [])
  | row :: rest =>
      do (column_widths, strings) <-
        convert_columns (length column_widths) 0 row column_widths
                        (replicate (length column_widths) "");
      do (column_widths, result_strings) <- convert_rows rest column_widths;
      Done (column_widths, strings :: result_strings)
  end.

(** The lambda [emit_horizontal_line]. *)
Fixpoint horizontal_cells (column_widths : list Z) (out : string)
    : Outcome string :=
  match column_widths with
  | [] => Done out
  | col_width :: rest =>
      do dashes <-
        string_of_copies (size_t_of (size_t_of col_width + 2)) "-"%char;
      horizontal_cells rest (out +:+ dashes +:+ "+")
  end.

Definition emit_horizontal_line (column_widths : list Z) (out : string)
    : Outcome string :=
  do out <- horizontal_cells column_widths (out +:+ "+");
  Done (out +:+ endl).

(** The lambda [emit_result_vec]. *)
Fixpoint result_cells (remaining col_ind : nat) (column_widths : list Z)
    (result_vec : list string) (out : string) : Outcome string :=
  match remaining with
  | O => Done out
  | S remaining =>
      match result_vec !! col_ind with
      | None => Undefined
      | Some res =>
          do padding <-
            string_of_copies
              (size_t_of (default 0%Z (column_widths !! col_ind)
                          - Z.of_nat (String.length res))) " "%char;
          result_cells remaining (S col_ind) column_widths result_vec
                       (out +:+ res +:+ padding +:+ " | ")
      end
  end.

Definition emit_result_vec (column_widths : list Z) (result_vec : list string)
    (out : string) : Outcome string :=
  do out <-
    result_cells (length column_widths) 0 column_widths result_vec
                 (out +:+ "| ");
  Done (out +:+ endl).

Fixpoint emit_result_vecs (column_widths : list Z)
    (result_strings : list (list string)) (out : string) : Outcome string :=
  match result_strings with
  | [] => Done out
  | result_vec :: rest =>
      do out <- emit_result_vec column_widths result_vec out;
      emit_result_vecs column_widths rest out
  end.

(** [PrintResults(results)]; [out] is what [std::cout] holds. *)
Definition PrintResults (results : ResultStreamFaker) (out : string)
    : Outcome string :=
  let header := GetHeader results in
  let column_widths :=
    map (fun s => int_of (Z.of_nat (String.length s))) header in
  (* convert all the results into strings, and track max column width *)
  let results_data := GetResults results in
  if negb (int_indexable results_data && int_indexable column_widths)
  then Undefined
  else
    do (column_widths, result_strings) <- convert_rows results_data column_widths;
    (* final output of results *)
    do out <- emit_horizontal_line column_widths out;
    do out <- emit_result_vec column_widths header out;
    do out <- emit_horizontal_line column_widths out;
    do out <- emit_result_vecs column_widths result_strings out;
    do out <- emit_horizontal_line column_widths out;
    (* output the summary *)
    Done (PrintIterable (out +:+ "Query summary: {") (GetSummary results) ", "
            (fun kv => kv.1 +:+ ": " +:+ TypedValueToString kv.2)
          +:+ "}" +:+ endl).

(** *** The table, column by column

    The texts of the first cells of a row, the width of a column after a
    row of texts, and the lines of the table for given widths. *)
Definition cell_texts (columns : nat) (row : list TypedValue) : list string :=
  map TypedValueToString (take columns row).

Definition widen (column_widths : list Z) (texts : list string) : list Z :=
  zip_with Z.max column_widths (map (fun s => Z.of_nat (String.length s)) texts).

Definition joined (texts : list string) : string :=
  foldr String.append "" texts.

Definition rule_line (column_widths : list Z) : string :=
  "+" +:+ joined (map (fun w => copies (Z.to_nat w + 2) "-"%char +:+ "+")
                      column_widths)
      +:+ endl.

Definition row_line (column_widths : list Z) (texts : list string) : string :=
  "| " +:+ joined (zip_with
                     (fun w s =>
                        s +:+ copies (Z.to_nat w - String.length s) " "%char
                          +:+ " | ")
                     column_widths texts)
       +:+ endl.

End Console.

(** A text whose size fits an [int], and widths that cover a row of texts:
    each text is at most as wide as its column. *)
Definition short (text : string) : Prop :=
  (Z.of_nat (String.length text) < 2 ^ 31)%Z.

Definition covers (column_widths : list Z) (texts : list string) : Prop :=
  Forall2 (fun w text => (Z.of_nat (String.length text) <= w < 2 ^ 31)%Z)
          column_widths texts.

(** *** The read-eval-print loop *)

(** The terminal as the console sees it: the lines still to come on the
    standard input, what was written to [std::cout], and the history of the
    readline library. *)
Record Terminal := mkTerminal {
  cin : list string;
  cout : string;
  history : list string
}.

(** [ReadLine(prompt)], in its two variants.  With the readline library the
    prompt is shown by the library and a line that is not empty goes to the
    history; without it the prompt goes to [std::cout].  At the end of the
    input both return the empty string. *)
Definition ReadLine (HAS_READLINE : bool) (prompt : string) (t : Terminal)
    : string * Terminal :=
  if HAS_READLINE
  then
    match cin t with
    | [] => ("", t)
    | line :: rest =>
        (line,
         mkTerminal rest (cout t)
           (if bool_decide (line = "") then history t else history t ++ [line]))
    end
  else
    match cin t with
    | [] => ("", mkTerminal [] (cout t +:+ prompt) (history t))
    | line :: rest => (line, mkTerminal rest (cout t +:+ prompt) (history t))
    end.

(** Two outcomes that end the same way. *)
Definition same_end {A} (a b : Outcome A) : Prop :=
  match a, b with
  | Done _, Done _ | Undefined, Undefined | LengthError, LengthError => True
  | _, _ => False
  end.

(** How [Repl] ends. *)
Inductive ReplEnd :=
| Quit                                   (* the loop was left by [break] *)
| Uncaught (e : QueryException)          (* an exception left [Repl] *)
| UncaughtLengthError
| UndefinedBehaviour.

Section Repl.

(** The database behind [Dbms], with what the loop calls on it: opening an
    accessor with [dbms.active()], the query itself, [dba->commit()], and
    the end of the accessor's life at the end of the [try] block or when an
    exception leaves it. *)
Context {Db : Type}.
Variable HAS_READLINE : bool.
Variable TypedValueToString : TypedValue -> string.
Variable string_max_size : Z.
Variable active : Db -> Db.
Variable Interpret : string -> Db -> Res ResultStreamFaker * Db.
Variable commit : Db -> Db.
Variable release : Db -> Db.

(** The state of the loop, with two ghost records: the commands handed to
    the interpreter and the number of commits. *)
Record ReplState := mkRepl {
  terminal : Terminal;
  db : Db;
  interpreted : list string;
  commits : nat
}.

Definition print (text : string) (t : Terminal) : Terminal :=
  mkTerminal (cin t) (cout t +:+ text) (history t).

(** The [while (true)] loop of [query::Repl]; [SyntaxException] and
    [SemanticException] stand for what the two handlers catch.  The loop
    need not end: [None] when [fuel] rounds were not enough. *)
Fixpoint Repl_loop (fuel : nat) (s : ReplState) : option (ReplEnd * ReplState) :=
  match fuel with
  | O => None
  | S fuel =>
      let '(command, t) := ReadLine HAS_READLINE ">" (terminal s) in
      let s := mkRepl t (db s) (interpreted s) (commits s) in
      if (String.length command =? 0)%nat then Repl_loop fuel s
      (* special commands *)
      else if bool_decide (command = "quit") then Some (Quit, s)
      (* regular cypher queries *)
      else
        let dba := active (db s) in
        let '(results, dba) := Interpret command dba in
        let interpreted := interpreted s ++ [command] in
        match results with
        | Ok results =>
            match PrintResults TypedValueToString string_max_size results
                               (cout t) with
            | Done out =>
                Repl_loop fuel
                  (mkRepl (mkTerminal (cin t) out (history t))
                          (release (commit dba)) interpreted (S (commits s)))
            | Undefined =>
                Some (UndefinedBehaviour, mkRepl t dba interpreted (commits s))
            | LengthError =>
                Some (UncaughtLengthError,
                      mkRepl t (release dba) interpreted (commits s))
            end
        | Throw (SyntaxException what) =>
            Repl_loop fuel
              (mkRepl (print ("SYNTAX EXCEPTION: " +:+ what +:+ endl) t)
                      (release dba) interpreted (commits s))
        | Throw (SemanticException what) =>
            Repl_loop fuel
              (mkRepl (print ("SEMANTIC EXCEPTION: " +:+ what +:+ endl) t)
                      (release dba) interpreted (commits s))
        | Throw e =>
            Some (Uncaught e, mkRepl t (release dba) interpreted (commits s))
        end
  end.

(** Results that [PrintResults] prints. *)
Definition printable (results : ResultStreamFaker) : Prop :=
  exists out out',
    PrintResults TypedValueToString string_max_size results out = Done out'.

(** [handled lines db]: when the loop reads [lines] one after the other,
    starting on the database [db], every query among them returns printable
    results or throws what one of the two handlers catches.  Each query runs
    on the database as the queries before it have left it: committed and
    released after results, released after an exception. *)
Fixpoint handled (lines : list string) (db : Db) : Prop :=
  match lines with
  | [] => True
  | line :: lines =>
      if bool_decide (line = "") then handled lines db
      else
        match Interpret line (active db) with
        | (Ok results, dba) =>
            printable results /\ handled lines (release (commit dba))
        | (Throw (SyntaxException _), dba)
        | (Throw (SemanticException _), dba) => handled lines (release dba)
        | (Throw _, _) => False
        end
  end.

(** [query::Repl(dbms)] *)
Definition Repl (fuel : nat) (s : ReplState) : option (ReplEnd * ReplState) :=
  let welcome :=
    "Welcome to *Awesome* Memgraph Read Evaluate Print Loop (AM-REPL)" +:+ endl in
  Repl_loop fuel
    (mkRepl (print welcome (terminal s)) (db s) (interpreted s) (commits s)).

End Repl.

(** *** A sample session

    Values print as a word per kind; the database counts the commits; the
    query [boom] has a syntax error and the query [n] returns two rows. *)
Definition sample_TypedValueToString (value : TypedValue) : string :=
  match value with
  | TInt _ => "int"
  | TString s => s
  | TNull => "Null"
  | _ => "value"
  end.

Definition sample_results : ResultStreamFaker :=
  mkResults ["n"; "name"]
            [[TInt 1; TString "Sanjay"]; [TInt 2; TString "Li"; TNull]]
            [("type", TString "rw")].

Definition sample_Interpret (command : string) (db : nat)
    : Res ResultStreamFaker * nat :=
  if bool_decide (command = "boom") then (Throw (SyntaxException "boom"), db)
  else (Ok sample_results, db).

Definition sample_session : @ReplState nat :=
  mkRepl (mkTerminal [""; "n"; "boom"; "quit"; "n"] "" []) 0 [] 0.

Definition sample_Repl (fuel : nat) (s : @ReplState nat)
    : option (ReplEnd * @ReplState nat) :=
  Repl false sample_TypedValueToString (2 ^ 62) id sample_Interpret S id fuel s.

End ConsoleModel.

(* ===================================================================== *)
(** * Part II: properties                                                 *)
(* ===================================================================== *)

(** ** Edge::CloneData *)

Module EdgeFacts.
Import EdgeModel.

Section Edge.
Context {VertexAddress EdgeType PropertyValueStore MvccRecord : Type}.
Variable MvccRecord_default : MvccRecord.

#[local] Abbreviation Edge := (@Edge VertexAddress EdgeType PropertyValueStore MvccRecord).

Lemma operator_new_fresh (h : gmap positive Edge) : h !! operator_new h = None.
Proof.
  unfold operator_new. apply not_elem_of_dom. apply is_fresh.
Qed.

(** C10.  [CloneData] returns a newly allocated edge whose [from_], [to_],
    [edge_type_] and [properties_] equal those of the source edge, while
    the [mvcc::Record] base-class state is the default-constructed one,
    whatever the source's base-class state is; no other object changes. *)
Theorem CloneData_copies_data_only (h : gmap positive Edge) (this : positive)
    (self : Edge) :
  h !! this = Some self ->
  exists (p : positive) (clone : Edge) (h' : gmap positive Edge),
    CloneData MvccRecord_default h this = Some (p, h')
    /\ h !! p = None
    /\ h' !! p = Some clone
    /\ from_ clone = from_ self
    /\ to_ clone = to_ self
    /\ edge_type_ clone = edge_type_ self
    /\ properties_ clone = properties_ self
    /\ record_base clone = MvccRecord_default
    /\ (forall q, q <> p -> h' !! q = h !! q).
Proof.
  intros Hself.
  exists (operator_new h), (Edge_copy MvccRecord_default self),
         (<[operator_new h := Edge_copy MvccRecord_default self]> h).
  unfold CloneData. rewrite Hself. cbn.
  repeat split.
  - apply operator_new_fresh.
  - apply lookup_insert_eq.
  - intros q Hq. apply lookup_insert_ne. congruence.
Qed.

End Edge.

Lemma CloneData_copies_data_only_witness :
  exists (p : positive) (clone : @Edge nat nat (list nat) nat) h',
    CloneData 0 {[ 1%positive := sample_edge ]} 1%positive = Some (p, h')
    /\ ({[ 1%positive := sample_edge ]} : gmap positive _) !! p = None
    /\ h' !! p = Some clone
    /\ from_ clone = 3
    /\ to_ clone = 4
    /\ edge_type_ clone = 1
    /\ properties_ clone = [5; 6]
    /\ record_base clone = 0
    /\ (forall q, q <> p -> h' !! q = ({[ 1%positive := sample_edge ]} : gmap positive _) !! q).
Proof.
  apply (CloneData_copies_data_only 0 {[ 1%positive := sample_edge ]}
           1%positive sample_edge).
  reflexivity.
Defined.

End EdgeFacts.

(** ** RPC messages on the wire *)

Module RpcFrames.
Import RpcModel.

Lemma to_N_byte_of_N (n : N) : Byte.to_N (byte_of_N n) = (n mod 256)%N.
Proof.
  unfold byte_of_N.
  destruct (Byte.of_N (n mod 256)) as [b|] eqn:Hb.
  - cbn. by apply Byte.to_of_N.
  - apply Byte.of_N_None_iff in Hb.
    pose proof (N.mod_upper_bound n 256 ltac:(lia)). lia.
Qed.

Lemma length_encode_le width : forall v, length (encode_le width v) = width.
Proof. induction width as [|w IH]; intros v; cbn; [done | by rewrite IH]. Qed.

Lemma decode_encode_le width :
  forall v, decode_le (encode_le width v) = (v mod 2 ^ (8 * N.of_nat width))%N.
Proof.
  induction width as [|w IH]; intros v.
  - cbn. by rewrite N.mod_1_r.
  - cbn [encode_le decode_le]. rewrite IH, to_N_byte_of_N.
    replace (8 * N.of_nat (S w))%N with (8 + 8 * N.of_nat w)%N by lia.
    rewrite N.pow_add_r. change (2 ^ 8)%N with 256%N.
    rewrite N.Div0.mod_mul_r. lia.
Qed.

(** A window that lies inside a prefix reads the same in the whole. *)
Lemma window_of_prefix {A} (prefix suffix : list A) (from len : nat) :
  from + len <= length prefix ->
  take len (drop from (prefix ++ suffix)) = take len (drop from prefix).
Proof.
  intros Hfits. rewrite drop_app_le by lia.
  apply take_app_le. rewrite length_drop. lia.
Qed.

Lemma content_Resize_more len b : content (Resize len b) = content b.
Proof. unfold Resize. by destruct (N.of_nat len <? capacity b)%N. Qed.

Lemma capacity_Resize len b :
  (len <= N.to_nat (capacity (Resize len b)))%nat
  /\ (N.to_nat (capacity b) <= N.to_nat (capacity (Resize len b)))%nat.
Proof.
  unfold Resize. destruct (N.of_nat len <? capacity b)%N eqn:Hlt; cbn.
  - apply N.ltb_lt in Hlt. lia.
  - apply N.ltb_ge in Hlt. lia.
Qed.

Lemma Resize_fits len b : len <= N.to_nat (capacity b) -> Resize len b = b.
Proof.
  intros Hfits. unfold Resize. destruct (N.of_nat len <? capacity b)%N eqn:Hlt;
    [done|].
  apply N.ltb_ge in Hlt. destruct b as [cap bytes]; cbn in *. f_equal. lia.
Qed.

Lemma Write_true bs s s' :
  Write bs s = (true, s') ->
  sent s' = sent s ++ bs /\ error_status s' = error_status s
  /\ incoming s' = incoming s /\ read_sizes s' = read_sizes s.
Proof.
  unfold Write. destruct (write_results s) as [|[] rest]; intros [= <-]; done.
Qed.

Lemma Write_false bs s s' : Write bs s = (false, s') -> sent s' = sent s.
Proof.
  unfold Write. destruct (write_results s) as [|[] rest]; intros [= <-]; done.
Qed.

Section Client.
Context {Message Endpoint : Type}.
Variable sizeof_MessageSize : nat.
Variable serialize : option Message -> list byte.
Variable deserialize : list byte -> option Message.

#[local] Abbreviation header_size := (sizeof_uint32_t + sizeof_MessageSize).
#[local] Abbreviation read_response_data_size :=
  (read_response_data_size sizeof_MessageSize).
#[local] Abbreviation read_response_size := (read_response_size sizeof_MessageSize).
#[local] Abbreviation read_payload := (read_payload sizeof_MessageSize).
#[local] Abbreviation receive := (receive sizeof_MessageSize deserialize).
#[local] Abbreviation request_frame := (request_frame sizeof_MessageSize serialize).
#[local] Abbreviation response_frame := (response_frame sizeof_MessageSize).
#[local] Abbreviation response_frames := (response_frames sizeof_MessageSize).
#[local] Abbreviation well_framed := (well_framed sizeof_MessageSize).
#[local] Abbreviation taken_whole := (taken_whole sizeof_MessageSize).
#[local] Abbreviation MessageSize_max := (MessageSize_max sizeof_MessageSize).
#[local] Abbreviation send_and_receive :=
  (send_and_receive sizeof_MessageSize serialize deserialize).

Lemma MessageSize_fits (len : nat) :
  (N.of_nat len <= MessageSize_max)%N ->
  (N.of_nat len < 2 ^ (8 * N.of_nat sizeof_MessageSize))%N.
Proof.
  unfold RpcModel.MessageSize_max. intros Hmax.
  assert (0 < 2 ^ (8 * N.of_nat sizeof_MessageSize))%N
    by (apply N.neq_0_lt_0, N.pow_nonzero; lia).
  lia.
Qed.

(** The layout of a message: id, size of the data, data. *)
Lemma message_reads_back (id : N) (payload : list byte) (bs : list byte) :
  (id < 2 ^ 32)%N ->
  (N.of_nat (length payload) < 2 ^ (8 * N.of_nat sizeof_MessageSize))%N ->
  take header_size bs
  = encode_le sizeof_uint32_t id
      ++ encode_le sizeof_MessageSize (N.of_nat (length payload)) ->
  read_response_id bs = id
  /\ read_response_data_size bs = length payload.
Proof.
  intros Hid Hsize Hheader.
  assert (Hid_bytes : take sizeof_uint32_t bs = encode_le sizeof_uint32_t id).
  { replace (take sizeof_uint32_t bs)
      with (take sizeof_uint32_t (take header_size bs))
      by (rewrite take_take; f_equal; lia).
    rewrite Hheader. apply take_app_length'. by rewrite length_encode_le. }
  assert (Hsize_bytes :
            take sizeof_MessageSize (drop sizeof_uint32_t bs)
            = encode_le sizeof_MessageSize (N.of_nat (length payload))).
  { rewrite take_drop_commute.
    replace (sizeof_uint32_t + sizeof_MessageSize) with header_size by done.
    rewrite Hheader. rewrite drop_app_length'; [done | by rewrite length_encode_le]. }
  split.
  - unfold read_response_id. rewrite Hid_bytes, decode_encode_le.
    apply N.mod_small. exact Hid.
  - unfold RpcModel.read_response_data_size. rewrite Hsize_bytes, decode_encode_le.
    rewrite N.mod_small by exact Hsize. lia.
Qed.

Lemma length_response_frame id payload :
  length (response_frame id payload) = header_size + length payload.
Proof.
  unfold RpcModel.response_frame. rewrite !length_app, !length_encode_le. lia.
Qed.

(** What the parser reads from a buffer that holds the start of a response
    followed by more. *)
Lemma response_prefix_reads (id : N) (payload rest buffered unread : list byte) :
  (id < 2 ^ 32)%N ->
  (N.of_nat (length payload) < 2 ^ (8 * N.of_nat sizeof_MessageSize))%N ->
  buffered ++ unread = response_frame id payload ++ rest ->
  header_size <= length buffered ->
  read_response_id buffered = id
  /\ read_response_size buffered = length (response_frame id payload)
  /\ (length (response_frame id payload) <= length buffered ->
      read_payload buffered = payload).
Proof.
  intros Hid Hsize Hsplit Hheader.
  assert (Htake : take header_size buffered
                  = encode_le sizeof_uint32_t id
                      ++ encode_le sizeof_MessageSize (N.of_nat (length payload))).
  { change (take header_size buffered)
      with (take header_size (drop 0 buffered)).
    rewrite <- (window_of_prefix buffered unread 0 header_size) by lia.
    rewrite Hsplit. unfold RpcModel.response_frame. cbn [drop].
    rewrite <- !app_assoc. rewrite (app_assoc (encode_le _ _) (encode_le _ _)).
    apply take_app_length'. by rewrite length_app, !length_encode_le. }
  destruct (message_reads_back _ _ _ Hid Hsize Htake) as [Hrid Hdata].
  split; [exact Hrid|]. split.
  - unfold RpcModel.read_response_size. rewrite Hdata, length_response_frame. lia.
  - intros Hwhole. rewrite length_response_frame in Hwhole.
    unfold RpcModel.read_payload. rewrite Hdata.
    rewrite <- (window_of_prefix buffered unread) by lia.
    rewrite Hsplit. unfold RpcModel.response_frame.
    rewrite <- !app_assoc. rewrite (app_assoc (encode_le _ _) (encode_le _ _)).
    rewrite drop_app_length' by (by rewrite length_app, !length_encode_le).
    by apply take_app_length.
Qed.

(** The loop invariant of [receive] while the awaited response is arriving. *)
Lemma receive_reassembles (request_id : N) (s : Socket)
    (payload rest : list byte) (reads : list nat) :
  (request_id < 2 ^ 32)%N ->
  (N.of_nat (length payload) < 2 ^ (8 * N.of_nat sizeof_MessageSize))%N ->
  Forall (fun ready => 0 < ready) reads ->
  forall inc buffer taken,
    content buffer ++ inc = response_frame request_id payload ++ rest ->
    length (content buffer) < length (response_frame request_id payload) ->
    header_size <= N.to_nat (capacity buffer) ->
    (header_size <= length (content buffer) ->
     length (response_frame request_id payload) <= N.to_nat (capacity buffer)) ->
    length (response_frame request_id payload) - length (content buffer)
      <= length reads ->
    let o := receive request_id s reads inc buffer taken in
    call_result o = Returned (deserialize payload)
    /\ is_Some (call_socket o)
    /\ exists last,
         call_taken o = taken ++ [last]
         /\ taken_id last = request_id
         /\ taken_size last = length (response_frame request_id payload).
Proof.
  intros Hid Hsize Hreads.
  induction Hreads as [|ready reads Hready Hreads IH];
    intros inc buffer taken Hsplit Hpart Hcap Hcap' Henough.
  { cbn [length] in Henough. lia. }
  set (frame := response_frame request_id payload) in *.
  cbn zeta. cbn [RpcModel.receive].
  assert (Hroom : 0 < Allocate buffer).
  { unfold Allocate. destruct (decide (header_size <= length (content buffer)));
      [specialize (Hcap' ltac:(done)); lia|].
    lia. }
  assert (Hinc : 0 < length inc).
  { apply (f_equal length) in Hsplit. rewrite !length_app in Hsplit. lia. }
  set (got := take (ready `min` Allocate buffer) inc).
  set (inc' := drop (ready `min` Allocate buffer) inc).
  assert (Hgot : 0 < length got).
  { unfold got. rewrite length_take. lia. }
  destruct (length got =? 0)%nat eqn:Hzero; [apply Nat.eqb_eq in Hzero; lia|].
  set (b1 := Written got buffer).
  assert (Hsplit1 : content b1 ++ inc' = frame ++ rest).
  { unfold b1, Written, got, inc'; cbn [content].
    rewrite <- app_assoc, take_drop. exact Hsplit. }
  assert (Hlen1 : length (content b1) = length (content buffer) + length got).
  { unfold b1, Written; cbn [content]. by rewrite length_app. }
  assert (Hframe : length frame = header_size + length payload)
    by apply length_response_frame.
  unfold size, data.
  destruct (length (content b1) <? header_size)%nat eqn:Hheader.
  { apply Nat.ltb_lt in Hheader.
    apply IH; try done; cbn [length] in Henough; try lia. }
  apply Nat.ltb_ge in Hheader.
  destruct (response_prefix_reads _ _ _ _ _ Hid Hsize Hsplit1 Hheader)
    as (Hrid & Hrsize & Hrpayload).
  rewrite !content_Resize_more, Hrid, Hrsize. fold frame.
  destruct (length (content b1) <? length frame)%nat eqn:Hwhole.
  { apply Nat.ltb_lt in Hwhole.
    destruct (capacity_Resize (length frame) b1) as [Hfits Hgrows].
    apply IH; rewrite ?content_Resize_more; try done;
      cbn [length] in Henough; try lia. }
  apply Nat.ltb_ge in Hwhole.
  rewrite N.eqb_refl. cbn [negb call_result call_socket call_taken].
  rewrite (Hrpayload Hwhole). split; [done|]. split; [by eexists|].
  eexists. split; [reflexivity|]. by split.
Qed.

(** One response that arrives alone, in pieces, into a buffer that has room
    for it: the reads that bring it end with the response taken out of the
    buffer, which is empty again; it is returned when it has the id of the
    request, and the loop goes on with the next read when it has not. *)
Lemma receive_takes_frame (request_id id : N) (s : Socket) (payload : list byte) :
  well_framed (id, payload) ->
  forall pieces reads inc rest buffer taken,
    Forall (fun ready => 0 < ready) pieces ->
    content buffer ++ inc = response_frame id payload ++ rest ->
    length (content buffer) + sum_list pieces
    = length (response_frame id payload) ->
    pieces <> [] ->
    length (response_frame id payload) <= N.to_nat (capacity buffer) ->
    receive request_id s (pieces ++ reads) inc buffer taken
    = if (id =? request_id)%N
      then mkOutcome (Returned (deserialize payload))
             (Some (mkSocket (error_status s) (write_results s) (sent s)
                             rest reads))
             (mkBuffer (capacity buffer) []) (taken ++ [taken_whole (id, payload)])
      else receive request_id s reads rest (mkBuffer (capacity buffer) [])
             (taken ++ [taken_whole (id, payload)]).
Proof.
  intros [Hid Hsize%MessageSize_fits]. cbn [fst snd] in Hid, Hsize.
  set (frame := response_frame id payload).
  assert (Hframe : length frame = header_size + length payload)
    by apply length_response_frame.
  induction pieces as [|ready pieces IH];
    intros reads inc rest buffer taken Hpieces Hsplit Hsum Hsome Hcap; [done|].
  apply Forall_cons in Hpieces as [Hready Hpieces].
  cbn [sum_list_with Datatypes.id] in Hsum. cbn [app RpcModel.receive].
  assert (Hinc : length (content buffer) + length inc = length frame + length rest).
  { apply (f_equal length) in Hsplit. by rewrite !length_app in Hsplit. }
  assert (Hmin : ready `min` Allocate buffer = ready)
    by (unfold Allocate; lia).
  rewrite Hmin.
  set (got := take ready inc). set (inc' := drop ready inc).
  assert (Hgot : length got = ready) by (unfold got; rewrite length_take; lia).
  destruct (length got =? 0)%nat eqn:Hzero; [apply Nat.eqb_eq in Hzero; lia|].
  set (b1 := Written got buffer).
  assert (Hsplit1 : content b1 ++ inc' = frame ++ rest).
  { unfold b1, Written, got, inc'; cbn [content].
    rewrite <- app_assoc, take_drop. exact Hsplit. }
  assert (Hlen1 : length (content b1) = length (content buffer) + ready).
  { unfold b1, Written; cbn [content]. rewrite length_app. lia. }
  assert (Hcap1 : capacity b1 = capacity buffer) by done.
  unfold size, data.
  destruct pieces as [|next pieces].
  - cbn [sum_list_with Datatypes.id] in Hsum.
    assert (Hwhole : length (content b1) = length frame) by lia.
    apply app_inj_1 in Hsplit1 as [Hcontent Hrest]; [|exact Hwhole].
    assert (Hlong : (length (content b1) <? header_size)%nat = false)
      by (apply Nat.ltb_ge; lia).
    rewrite Hlong.
    destruct (response_prefix_reads id payload rest
                (content b1) inc' Hid Hsize)
      as (Hrid & Hrsize & Hrpayload);
      [by rewrite Hcontent, Hrest | lia |].
    fold frame in Hrsize, Hrpayload.
    rewrite Hrsize, Resize_fits by (rewrite Hcap1; lia).
    assert (Hfull : (length (content b1) <? length frame)%nat = false)
      by (apply Nat.ltb_ge; lia).
    rewrite Hfull, Hrid, Hrpayload by lia.
    unfold Shift. rewrite Hcap1, Hcontent, drop_all, Hrest. cbn [content app].
    unfold RpcModel.taken_whole. cbn [fst snd]. fold frame.
    by destruct (id =? request_id)%N.
  - apply Forall_cons in Hpieces as Hnext. destruct Hnext as [Hnext _].
    cbn [sum_list_with Datatypes.id] in Hsum.
    assert (Hpart : length (content b1) < length frame) by lia.
    assert (Hstep : receive request_id s ((next :: pieces) ++ reads) inc' b1 taken
                    = if (id =? request_id)%N
                      then mkOutcome (Returned (deserialize payload))
                             (Some (mkSocket (error_status s) (write_results s)
                                             (sent s) rest reads))
                             (mkBuffer (capacity buffer) [])
                             (taken ++ [taken_whole (id, payload)])
                      else receive request_id s reads rest
                             (mkBuffer (capacity buffer) [])
                             (taken ++ [taken_whole (id, payload)])).
    { rewrite <- Hcap1. apply IH; try done; rewrite ?Hcap1;
        cbn [sum_list_with Datatypes.id]; lia. }
    destruct (length (content b1) <? header_size)%nat eqn:Hheader;
      [exact Hstep|].
    apply Nat.ltb_ge in Hheader.
    destruct (response_prefix_reads id payload rest
                (content b1) inc' Hid Hsize Hsplit1 Hheader)
      as (_ & Hrsize & _).
    fold frame in Hrsize.
    rewrite Hrsize, Resize_fits by (rewrite Hcap1; lia).
    assert (Hshort : (length (content b1) <? length frame)%nat = true)
      by (apply Nat.ltb_lt; lia).
    rewrite Hshort. exact Hstep.
Qed.

(** Stale responses that arrive one by one, each alone and in pieces, are
    taken out of the buffer one by one, and the loop goes on reading. *)
Lemma receive_skips_stale (request_id : N) (s : Socket)
    (stales : list (N * list byte)) (pieces_of_stales : list (list nat)) :
  Forall2 (fun r pieces => in_pieces pieces (response_frame r.1 r.2))
          stales pieces_of_stales ->
  forall cap reads rest taken,
    Forall (fun r => r.1 <> request_id /\ well_framed r
                     /\ length (response_frame r.1 r.2) <= N.to_nat cap)
           stales ->
    receive request_id s (concat pieces_of_stales ++ reads)
            (response_frames stales ++ rest) (mkBuffer cap []) taken
    = receive request_id s reads rest (mkBuffer cap [])
              (taken ++ map taken_whole stales).
Proof.
  induction 1 as [|[id payload] pieces stales pieces_of_stales [Hpos Hsum] _ IH];
    intros cap reads rest taken Hstales.
  { cbn. by rewrite app_nil_r. }
  apply Forall_cons in Hstales as [(Hid & Hframed & Hfits) Hstales].
  cbn [fst snd] in *.
  unfold RpcModel.response_frames. cbn [map concat].
  fold (response_frames stales). rewrite <- !app_assoc.
  rewrite (receive_takes_frame request_id id s payload Hframed pieces
             (concat pieces_of_stales ++ reads) _
             (response_frames stales ++ rest) (mkBuffer cap []) taken);
    try done.
  - apply N.eqb_neq in Hid. rewrite Hid. cbn [capacity].
    rewrite (IH cap reads rest _ Hstales). by rewrite <- app_assoc.
  - intros ->. cbn [sum_list_with] in Hsum. rewrite length_response_frame in Hsum.
    unfold sizeof_uint32_t in Hsum. lia.
Qed.

(** When the three writes of a request go through, the socket has sent the
    request and the receive loop starts. *)
Lemma send_and_receive_sent request_id request s writes buffer :
  write_results s = true :: true :: true :: writes ->
  (N.of_nat (length (serialize request)) <= MessageSize_max)%N ->
  send_and_receive request_id request s buffer
  = receive request_id
      (mkSocket (error_status s) writes
                (sent s ++ request_frame request_id request)
                (incoming s) (read_sizes s))
      (read_sizes s) (incoming s) buffer [].
Proof.
  intros Hwrites Hmax. apply N.leb_le in Hmax.
  unfold RpcModel.send_and_receive, Write, RpcModel.request_frame.
  rewrite Hwrites. cbn [negb write_results error_status sent incoming read_sizes].
  rewrite Hmax. cbn [negb]. by rewrite <- !app_assoc.
Qed.

End Client.

End RpcFrames.

(** ** rpc::Client::Call *)

Module RpcFacts.
Import RpcModel RpcFrames.

Section Client.
Context {Message Endpoint : Type}.
Variable sizeof_MessageSize : nat.
Variable serialize : option Message -> list byte.
Variable deserialize : list byte -> option Message.

#[local] Abbreviation well_taken := (well_taken sizeof_MessageSize).
#[local] Abbreviation receive := (receive sizeof_MessageSize deserialize).
#[local] Abbreviation read_payload := (read_payload sizeof_MessageSize).
#[local] Abbreviation read_response_size := (read_response_size sizeof_MessageSize).
#[local] Abbreviation settled := (settled sizeof_MessageSize deserialize).
#[local] Abbreviation Call := (Call sizeof_MessageSize serialize deserialize).
#[local] Abbreviation send_and_receive :=
  (send_and_receive sizeof_MessageSize serialize deserialize).
#[local] Abbreviation Client := (@Client Endpoint).
#[local] Abbreviation answers := (answers sizeof_MessageSize deserialize).
#[local] Abbreviation request_frame := (request_frame sizeof_MessageSize serialize).
#[local] Abbreviation response_frame := (response_frame sizeof_MessageSize).
#[local] Abbreviation response_frames := (response_frames sizeof_MessageSize).
#[local] Abbreviation well_framed := (well_framed sizeof_MessageSize).
#[local] Abbreviation taken_whole := (taken_whole sizeof_MessageSize).
#[local] Abbreviation MessageSize_max := (MessageSize_max sizeof_MessageSize).

Lemma content_Resize n b : content (Resize n b) = content b.
Proof. unfold Resize. by destruct (N.of_nat n <? capacity b)%N. Qed.

Lemma receive_settled reads :
  forall request_id s inc buffer taken,
    let o := receive request_id s reads inc buffer taken in
    exists new,
      call_taken o = taken ++ new
      /\ Forall well_taken new
      /\ settled request_id new (call_result o) (content (call_buffer o)).
Proof.
  induction reads as [|ready reads IH]; intros request_id s inc buffer taken.
  - cbn. exists []. rewrite app_nil_r. repeat split; [constructor|].
    left. split; [constructor | done].
  - cbn zeta. cbn [RpcModel.receive].
    set (got := take (ready `min` Allocate buffer) inc).
    set (inc' := drop (ready `min` Allocate buffer) inc).
    destruct (length got =? 0)%nat.
    { cbn. exists []. rewrite app_nil_r. repeat split; [constructor|].
      left. split; [constructor | done]. }
    set (b1 := Written got buffer).
    destruct (size b1 <? sizeof_uint32_t + sizeof_MessageSize)%nat.
    { apply IH. }
    unfold data. rewrite !content_Resize.
    set (rs := RpcModel.read_response_size sizeof_MessageSize (content b1)).
    destruct (size (Resize rs b1) <? rs)%nat eqn:Hsize.
    { apply IH. }
    set (t := mkTaken _ _ _ _).
    assert (Ht : well_taken t).
    { unfold RpcModel.well_taken, t.
      cbn [taken_id taken_size taken_before taken_after].
      apply Nat.ltb_ge in Hsize. unfold size in Hsize.
      rewrite content_Resize in Hsize.
      unfold Shift; cbn [content]. rewrite content_Resize.
      repeat split; done. }
    destruct (negb (read_response_id (content b1) =? request_id)%N) eqn:Hid.
    + destruct (IH request_id s inc' (Shift rs (Resize rs b1)) (taken ++ [t]))
        as (new & Hnew & Hwell & Hsettled).
      exists (t :: new). cbn zeta in Hnew. rewrite Hnew, <- app_assoc.
      split; [done|]. split; [by constructor|].
      apply negb_true_iff, N.eqb_neq in Hid.
      assert (Hstale : stale request_id t) by exact Hid.
      destruct Hsettled as [[Hall Hres] | (old & last & -> & Hold & Hlast & Hres & Hbuf)].
      * left. split; [by constructor | done].
      * right. exists (t :: old), last. repeat split; try done.
        by constructor.
    + exists [t]. cbn. split; [done|]. split; [by apply Forall_singleton|].
      right. exists [], t. repeat split; try done.
      apply negb_false_iff, N.eqb_eq in Hid. exact Hid.
Qed.

Lemma answers_failed request_id socket buffer :
  answers request_id (mkOutcome (Returned None) socket buffer []).
Proof. split; [constructor | intros r [=]]. Qed.

Lemma answers_receive request_id s reads inc buffer :
  answers request_id (receive request_id s reads inc buffer []).
Proof.
  destruct (receive_settled reads request_id s inc buffer [])
    as (new & Hnew & Hwell & Hsettled).
  cbn zeta in *. rewrite app_nil_l in Hnew. split; [by rewrite Hnew|].
  intros response Hres.
  destruct Hsettled as [[_ Hnone] | (old & last & -> & Hold & Hlast & Hret & Hbuf)].
  - congruence.
  - exists old, last. rewrite Hret in Hres. injection Hres as Hres.
    by repeat split.
Qed.

Lemma answers_send_and_receive request_id request s buffer :
  answers request_id (send_and_receive request_id request s buffer).
Proof.
  unfold RpcModel.send_and_receive.
  destruct (Write _ s) as [[] s1]; cbn [negb]; [|apply answers_failed].
  destruct (negb _); [split; [constructor | intros r [=]]|].
  destruct (Write _ s1) as [[] s2]; cbn [negb]; [|apply answers_failed].
  destruct (Write _ s2) as [[] s3]; cbn [negb]; [|apply answers_failed].
  apply answers_receive.
Qed.

(** [Call] over a connection that is alive and takes the three writes of the
    request, with an empty buffer: the receive loop runs on what the peer
    sends. *)
Lemma Call_on_live_connection
    (fresh_socket : option Socket) (request : option Message) (c : Client)
    (s : Socket) (writes : list bool) :
  let request_id := ((next_message_id_ c + 1) mod 2 ^ 32)%N in
  socket_ c = Some s ->
  ErrorStatus s = false ->
  write_results s = true :: true :: true :: writes ->
  (N.of_nat (length (serialize request)) <= MessageSize_max)%N ->
  content (buffer_ c) = [] ->
  forall o,
    receive request_id
      (mkSocket (error_status s) writes
                (sent s ++ request_frame request_id request)
                (incoming s) (read_sizes s))
      (read_sizes s) (incoming s) (mkBuffer (capacity (buffer_ c)) []) [] = o ->
    Call fresh_socket request c
    = (call_result o, call_taken o,
       mkClient (endpoint_ c) (service_name_ c) (call_socket o) (call_buffer o)
                request_id).
Proof.
  intros request_id Hsocket Halive Hwrites Hmax Hempty o <-.
  unfold RpcModel.Call. fold request_id. rewrite Hsocket, Halive.
  rewrite (send_and_receive_sent sizeof_MessageSize serialize deserialize
             _ _ _ writes _ Hwrites Hmax).
  destruct (buffer_ c) as [cap bytes]. cbn in Hempty. by subst bytes.
Qed.

(** C9.  Whenever [Call] returns a non-null response, the id read from the
    received message equals the id of the request just sent: the responses
    taken out of the buffer before it all carried another id.  A complete
    response with another (stale) id is dropped, its bytes are shifted out
    of the buffer, and the loop goes on with the next [Read].  So, over a
    connection that is alive and takes the request, with an empty buffer
    that has room for the responses, when stale responses arrive one by one
    and the response to the request arrives behind them, [Call] takes every
    stale response out of the buffer, returns the data of the response to
    the request, and keeps the connection with what the peer sent behind
    that response still unread; and when nothing arrives behind the stale
    responses, [Call] returns [nullptr] and gives up the connection: a
    stale response is never returned. *)
Theorem Call_returns_the_matching_response
    (fresh_socket : option Socket) (request : option Message) (c : Client) :
  let request_id := ((next_message_id_ c + 1) mod 2 ^ 32)%N in
  (forall result taken c',
      Call fresh_socket request c = (result, taken, c') ->
      Forall well_taken taken
      /\ forall response,
           result = Returned (Some response) ->
           exists old last,
             taken = old ++ [last]
             /\ Forall (stale request_id) old
             /\ taken_id last = request_id
             /\ deserialize (read_payload (taken_before last)) = Some response
             /\ content (buffer_ c') = taken_after last)
  /\ (forall s ready reads inc buffer taken,
        let got := take (ready `min` Allocate buffer) inc in
        let received := Written got buffer in
        let response_size := read_response_size (data received) in
        got <> [] ->
        (sizeof_uint32_t + sizeof_MessageSize <= size received)%nat ->
        (response_size <= size received)%nat ->
        read_response_id (data received) <> request_id ->
        receive request_id s (ready :: reads) inc buffer taken =
        receive request_id s reads (drop (ready `min` Allocate buffer) inc)
          (Shift response_size (Resize response_size received))
          (taken ++ [mkTaken (read_response_id (data received)) response_size
                             (data received)
                             (drop response_size (data received))]))
  /\ (forall s writes stales pieces_of_stales,
        socket_ c = Some s ->
        ErrorStatus s = false ->
        write_results s = true :: true :: true :: writes ->
        (N.of_nat (length (serialize request)) <= MessageSize_max)%N ->
        content (buffer_ c) = [] ->
        Forall (fun r => r.1 <> request_id /\ well_framed r
                         /\ length (response_frame r.1 r.2)
                            <= N.to_nat (capacity (buffer_ c)))
               stales ->
        Forall2 (fun r pieces => in_pieces pieces (response_frame r.1 r.2))
                stales pieces_of_stales ->
        (forall payload pieces rest reads,
            (N.of_nat (length payload) <= MessageSize_max)%N ->
            length (response_frame request_id payload)
            <= N.to_nat (capacity (buffer_ c)) ->
            in_pieces pieces (response_frame request_id payload) ->
            incoming s = response_frames stales
                           ++ response_frame request_id payload ++ rest ->
            read_sizes s = concat pieces_of_stales ++ pieces ++ reads ->
            Call fresh_socket request c
            = (Returned (deserialize payload),
               map taken_whole stales ++ [taken_whole (request_id, payload)],
               mkClient (endpoint_ c) (service_name_ c)
                 (Some (mkSocket (error_status s) writes
                          (sent s ++ request_frame request_id request)
                          rest reads))
                 (Clear (buffer_ c)) request_id))
        /\ (incoming s = response_frames stales ->
            read_sizes s = concat pieces_of_stales ->
            Call fresh_socket request c
            = (Returned None, map taken_whole stales,
               mkClient (endpoint_ c) (service_name_ c) None
                        (Clear (buffer_ c)) request_id))).
Proof.
  intros request_id. split; [|split].
  - intros result taken c' HCall.
    assert (Hfinish : forall o : CallOutcome,
               answers request_id o ->
               (call_result o, call_taken o,
                mkClient (endpoint_ c) (service_name_ c) (call_socket o)
                         (call_buffer o) request_id) = (result, taken, c') ->
               Forall well_taken taken
               /\ forall response,
                    result = Returned (Some response) ->
                    exists old last,
                      taken = old ++ [last]
                      /\ Forall (stale request_id) old
                      /\ taken_id last = request_id
                      /\ deserialize (read_payload (taken_before last)) = Some response
                      /\ content (buffer_ c') = taken_after last).
    { intros o Ho [= <- <- <-]. exact Ho. }
    unfold RpcModel.Call in HCall. fold request_id in HCall.
    destruct (match socket_ c with
              | Some s => if ErrorStatus s then None else Some s
              | None => None
              end) as [s|].
    + eapply Hfinish; [|exact HCall]. apply answers_send_and_receive.
    + destruct fresh_socket as [s|].
      * destruct (Write _ s) as [[] s1]; cbn [negb] in HCall;
          [|eapply Hfinish; [|exact HCall]; apply answers_failed].
        destruct (Write _ s1) as [[] s2]; cbn [negb] in HCall;
          [|eapply Hfinish; [|exact HCall]; apply answers_failed].
        eapply Hfinish; [|exact HCall]. apply answers_send_and_receive.
      * eapply Hfinish; [|exact HCall]. apply answers_failed.
  - intros s ready reads inc buffer taken got received response_size
           Hgot Hheader Hcomplete Hstale.
    cbn [RpcModel.receive]. fold got. fold received.
    destruct (length got =? 0)%nat eqn:Hlen.
    { apply Nat.eqb_eq in Hlen. by destruct got. }
    apply Nat.ltb_ge in Hheader. rewrite Hheader.
    unfold data. rewrite !content_Resize.
    unfold data in response_size. fold response_size.
    assert (Hfits : (size (Resize response_size received) <? response_size)%nat = false).
    { apply Nat.ltb_ge. unfold size. rewrite content_Resize. exact Hcomplete. }
    rewrite Hfits.
    apply N.eqb_neq in Hstale. unfold data in Hstale. rewrite Hstale.
    cbn [negb]. unfold Shift at 2. cbn [content]. rewrite content_Resize.
    reflexivity.
  - intros s writes stales pieces_of_stales Hsocket Halive Hwrites Hmax Hempty
           Hstales Hpieces.
    pose proof (Call_on_live_connection fresh_socket request c s writes
                  Hsocket Halive Hwrites Hmax Hempty) as Hcall.
    cbv zeta in Hcall. fold request_id in Hcall.
    split.
    + intros payload pieces rest reads Hsize Hfits [Hpos Hsum] Hinc Hreads.
      rewrite (Hcall _ eq_refl), Hinc, Hreads.
      rewrite (receive_skips_stale sizeof_MessageSize deserialize request_id _
                 stales pieces_of_stales Hpieces _ _ _ _ Hstales).
      assert (Hframed : well_framed (request_id, payload)).
      { split; [|exact Hsize]. apply N.mod_lt. lia. }
      assert (Hsome : pieces <> []).
      { intros ->. cbn [sum_list_with] in Hsum.
        rewrite length_response_frame in Hsum. unfold sizeof_uint32_t in Hsum.
        lia. }
      epose proof (receive_takes_frame sizeof_MessageSize deserialize request_id
                     request_id _ payload Hframed pieces reads
                     (response_frame request_id payload ++ rest) rest
                     (mkBuffer (capacity (buffer_ c)) []) _ Hpos eq_refl Hsum
                     Hsome Hfits) as Htake.
      rewrite Htake, N.eqb_refl. reflexivity.
    + intros Hinc Hreads.
      rewrite (Hcall _ eq_refl), Hinc, Hreads.
      rewrite <- (app_nil_r (concat pieces_of_stales)).
      rewrite <- (app_nil_r (response_frames stales)).
      by rewrite (receive_skips_stale sizeof_MessageSize deserialize request_id _
                    stales pieces_of_stales Hpieces _ _ _ _ Hstales).
Qed.

End Client.

Lemma Call_returns_the_matching_response_witness :
  (Forall (RpcModel.well_taken 4)
     [mkTaken 1 9 (on_wire 1 [x61]) []; mkTaken 2 10 (on_wire 2 [x62; x63]) []]
   /\ forall response,
        Returned (Some [x62; x63]) = Returned (Some response) ->
        exists old last,
          [mkTaken 1 9 (on_wire 1 [x61]) []; mkTaken 2 10 (on_wire 2 [x62; x63]) []]
            = old ++ [last]
          /\ Forall (stale 2) old
          /\ taken_id last = 2%N
          /\ sample_deserialize (RpcModel.read_payload 4 (taken_before last))
               = Some response
          /\ [] = taken_after last)
  /\ RpcModel.receive 4 sample_deserialize 2 sample_socket [9; 10]%nat
       (incoming sample_socket) Buffer_new []
     = RpcModel.receive 4 sample_deserialize 2 sample_socket [10]%nat
         (on_wire 2 [x62; x63]) Buffer_new
         [mkTaken 1 9 (on_wire 1 [x61]) []]
  /\ RpcModel.Call 4 sample_serialize sample_deserialize None (Some [x01])
       sample_client
     = (Returned (Some [x62; x63]),
        [mkTaken 1 9 (on_wire 1 [x61]) []; mkTaken 2 10 (on_wire 2 [x62; x63]) []],
        mkClient tt [x72; x70; x63]
          (Some (mkSocket false [] (on_wire 2 [x01]) [] []))
          Buffer_new 2).
Proof.
  split; [|split].
  - pose proof (proj1 (Call_returns_the_matching_response
                         (Endpoint := unit) 4 sample_serialize sample_deserialize
                         None (Some [x01]) sample_client)) as H.
    specialize (H (Returned (Some [x62; x63]))
                  [mkTaken 1 9 (on_wire 1 [x61]) [];
                   mkTaken 2 10 (on_wire 2 [x62; x63]) []]
                  (mkClient tt [x72; x70; x63]
                     (Some (mkSocket false []
                              (encode_le 4 2 ++ encode_le 4 1 ++ [x01]) [] []))
                     Buffer_new 2)).
    apply H. vm_compute. reflexivity.
  - pose proof (proj1 (proj2 (Call_returns_the_matching_response
                         (Endpoint := unit) 4 sample_serialize sample_deserialize
                         None (Some [x01]) sample_client))
                      sample_socket 9%nat [10]%nat (incoming sample_socket)
                      Buffer_new []) as H.
    cbv zeta in H. etransitivity; [apply H|].
    + vm_compute. discriminate.
    + vm_compute. lia.
    + vm_compute. lia.
    + vm_compute. discriminate.
    + vm_compute. reflexivity.
  - refine (proj1 (proj2 (proj2 (Call_returns_the_matching_response
                         (Endpoint := unit) 4 sample_serialize sample_deserialize
                         None (Some [x01]) sample_client))
                      sample_socket [] [(1%N, [x61])] [[5; 4]%nat]
                      eq_refl eq_refl eq_refl _ eq_refl _ _)
                   [x62; x63] [10]%nat [] [] _ _ _ eq_refl eq_refl).
    + vm_compute. discriminate.
    + constructor; [|constructor].
      split; [vm_compute; discriminate|].
      split; [split; [reflexivity | vm_compute; discriminate]|].
      apply (Nat.le_trans _ 9); [reflexivity|].
      unfold sample_client, Buffer_new, kBufferInitialSize.
      cbn [buffer_ capacity]. lia.
    + constructor; [|constructor].
      split; [repeat constructor | reflexivity].
    + vm_compute. discriminate.
    + apply (Nat.le_trans _ 10); [reflexivity|].
      unfold sample_client, Buffer_new, kBufferInitialSize.
      cbn [buffer_ capacity]. lia.
    + split; [repeat constructor | reflexivity].
Defined.

(** Two responses that one [Read] brings are not taken out in one round:
    when the late answer to request 1 and the answer to request 2 arrive
    together and the peer closes the connection, [Call] drops the first,
    reads again, finds nothing, and returns [nullptr] with the answer in the
    buffer. *)
Lemma Call_reads_again_after_a_stale_response :
  RpcModel.Call 4 sample_serialize sample_deserialize None (Some [x01])
    hasty_client
  = (Returned None,
     [mkTaken 1 9 (on_wire 1 [x61] ++ on_wire 2 [x62; x63])
              (on_wire 2 [x62; x63])],
     mkClient tt [x72; x70; x63] None
              (mkBuffer kBufferInitialSize (on_wire 2 [x62; x63])) 2).
Proof. vm_compute. reflexivity. Qed.

End RpcFacts.

(** ** The plan printer *)

Module PrinterFacts.
Import PlanModel PrinterModel.

Lemma append_nil_l (s : string) : "" +:+ s = s.
Proof. reflexivity. Qed.

Lemma append_cons c (s1 s2 : string) : String c s1 +:+ s2 = String c (s1 +:+ s2).
Proof. reflexivity. Qed.

Lemma append_nil_r (s : string) : s +:+ "" = s.
Proof. induction s as [|c s IH]; rewrite ?append_cons; [done | congruence]. Qed.

Lemma append_assoc (s1 s2 s3 : string) : (s1 +:+ s2) +:+ s3 = s1 +:+ s2 +:+ s3.
Proof. induction s1 as [|c s1 IH]; rewrite ?append_cons; [done | congruence]. Qed.

Lemma PrintIterable_app {A} (iterable : list A) delim (streamer : A -> string) :
  forall out,
    PrintIterable out iterable delim streamer
    = out +:+ PrintIterable "" iterable delim streamer.
Proof.
  induction iterable as [|x rest IH]; intros out.
  - cbn. by rewrite append_nil_r.
  - destruct rest as [|y rest'].
    + reflexivity.
    + change (PrintIterable out (x :: y :: rest') delim streamer)
        with (PrintIterable (out +:+ streamer x +:+ delim) (y :: rest') delim streamer).
      change (PrintIterable "" (x :: y :: rest') delim streamer)
        with (PrintIterable ("" +:+ streamer x +:+ delim) (y :: rest') delim streamer).
      rewrite (IH (out +:+ _)), (IH ("" +:+ _)).
      by rewrite !append_nil_l, !append_assoc.
Qed.

Lemma written_cons line lines : written (line :: lines) = line +:+ written lines.
Proof. reflexivity. Qed.

Lemma written_app lines1 lines2 :
  written (lines1 ++ lines2) = written lines1 +:+ written lines2.
Proof.
  induction lines1 as [|l lines1 IH]; [done|].
  cbn [app]. by rewrite !written_cons, IH, append_assoc.
Qed.

Lemma line_count_app s1 s2 : line_count (s1 +:+ s2) = line_count s1 + line_count s2.
Proof.
  induction s1 as [|c s1 IH]; [done|].
  rewrite append_cons. cbn [line_count]. rewrite IH. lia.
Qed.

Section Printer.
Variable LabelName : Label -> string.
Variable PropertyName : Property -> string.
Variable line_prefix : nat -> string.
Variable default_branch_name : string.

#[local] Abbreviation streamed := (streamed LabelName PropertyName).
#[local] Abbreviation PrintOperator := (PrintOperator LabelName PropertyName line_prefix).
#[local] Abbreviation Accept :=
  (Accept LabelName PropertyName line_prefix default_branch_name).
#[local] Abbreviation PrettyPrint :=
  (PrettyPrint LabelName PropertyName line_prefix default_branch_name).
#[local] Abbreviation operator_text := (operator_text LabelName PropertyName).
#[local] Abbreviation operator_line := (operator_line LabelName PropertyName line_prefix).
#[local] Abbreviation branch_line := (branch_line line_prefix).
#[local] Abbreviation render :=
  (render LabelName PropertyName line_prefix default_branch_name).

(** Every overload only appends to the stream. *)
Lemma streamed_appends op fun_ :
  streamed op = Some fun_ -> forall out, fun_ out = out +:+ fun_ "".
Proof.
  destruct op; cbn; intros [= <-] out; try reflexivity;
    unfold PrintExpand;
    repeat (rewrite (PrintIterable_app _ _ _ (_ +:+ _)));
    cbn [String.append]; by rewrite ?append_assoc.
Qed.

Lemma streamed_Once op : streamed op = None -> op = Once.
Proof. by destruct op. Qed.

(** Every line of an operator starts with the star. *)
Lemma operator_text_star op :
  op <> Once -> exists rest, operator_text op = "* " +:+ rest.
Proof.
  unfold PrinterModel.operator_text.
  destruct op; cbn; intros Hop; try done; eauto;
    unfold PrintExpand; rewrite ?append_nil_l;
    repeat first [ rewrite (PrintIterable_app _ _ _ (String _ _))
                 | rewrite (PrintIterable_app _ _ _ (_ +:+ _)) ];
    rewrite ?append_assoc; eexists; reflexivity.
Qed.

Lemma PrintOperator_line op p :
  op <> Once ->
  PrintOperator op p = mkPrinter (out_ p +:+ operator_line (depth_ p) op) (depth_ p).
Proof.
  intros Hop. unfold PrinterModel.PrintOperator, PrinterModel.operator_line,
    PrinterModel.operator_text.
  destruct (streamed op) as [fun_|] eqn:Hs.
  - unfold WithPrintLn. rewrite (streamed_appends _ _ Hs (_ +:+ _)).
    by rewrite !append_assoc.
  - by apply streamed_Once in Hs.
Qed.

Lemma Branch_line accept branch_name p lines :
  (forall q, accept q = mkPrinter (out_ q +:+ written (lines (depth_ q))) (depth_ q)) ->
  Branch line_prefix accept branch_name p
  = mkPrinter (out_ p +:+ written (branch_line (depth_ p) branch_name
                                     :: lines (S (depth_ p))))
              (depth_ p).
Proof.
  intros Haccept. unfold Branch, WithPrintLn. rewrite Haccept. cbn.
  unfold PrinterModel.branch_line. by rewrite !append_assoc.
Qed.

(** The visitor writes the rendering of the subtree at the current depth
    and leaves the depth as it found it. *)
Lemma Accept_render op :
  forall p,
    Accept op p = mkPrinter (out_ p +:+ written (render (depth_ p) op)) (depth_ p).
Proof.
  induction op; intros p;
    try (cbn [PrinterModel.Accept PrinterModel.render];
         rewrite IHop, PrintOperator_line by done;
         cbn [out_ depth_]; by rewrite written_cons, append_assoc);
    try (cbn [PrinterModel.Accept PrinterModel.render];
         rewrite PrintOperator_line by done;
         rewrite written_cons; change (written []) with "";
         by rewrite append_nil_r).
  - destruct p. cbn. by rewrite append_nil_r.
  - cbn [PrinterModel.Accept PrinterModel.render].
    rewrite PrintOperator_line by done.
    rewrite (Branch_line (Accept op2) _ _ (fun d => render d op2)) by apply IHop2.
    rewrite (Branch_line (Accept op3) _ _ (fun d => render d op3)) by apply IHop3.
    rewrite IHop1. cbn [out_ depth_].
    rewrite (written_cons (operator_line _ _)), !written_app.
    by rewrite !append_assoc.
  - cbn [PrinterModel.Accept PrinterModel.render].
    rewrite PrintOperator_line by done.
    rewrite (Branch_line (Accept op2) _ _ (fun d => render d op2)) by apply IHop2.
    rewrite IHop1. cbn [out_ depth_].
    rewrite (written_cons (operator_line _ _)), !written_app.
    by rewrite !append_assoc.
  - cbn [PrinterModel.Accept PrinterModel.render].
    rewrite PrintOperator_line by done.
    rewrite (Branch_line (Accept op2) _ _ (fun d => render d op2)) by apply IHop2.
    rewrite IHop1. cbn [out_ depth_].
    rewrite (written_cons (operator_line _ _)), !written_app.
    by rewrite !append_assoc.
Qed.

(** C8 (as amended).  The printed text is the depth-indented rendering of
    the plan: every operator other than the [Once] leaf, which prints
    nothing, has a line of its own that starts with [*] behind the prefix
    of its depth; [Merge], [Optional] and [Cartesian] print each non-input
    child behind a [|\ ] line, one level deeper ([Merge] naming its
    branches "On Match" and "On Create"), and then their input at their
    own depth. *)
Theorem PrettyPrint_renders_the_tree (plan : LogicalOperator) :
  PrettyPrint plan = written (render 0 plan)
  /\ (forall op, op = Once \/ exists rest, operator_text op = "* " +:+ rest)
  /\ (forall depth input merge_match merge_create,
        render depth (Merge input merge_match merge_create)
        = (line_prefix depth +:+ "* Merge" +:+ endl)
            :: ((line_prefix depth +:+ "|\ On Match" +:+ endl)
                  :: render (S depth) merge_match)
            ++ ((line_prefix depth +:+ "|\ On Create" +:+ endl)
                  :: render (S depth) merge_create)
            ++ render depth input)
  /\ (forall depth input optional optional_symbols,
        render depth (Optional input optional optional_symbols)
        = (line_prefix depth +:+ "* Optional" +:+ endl)
            :: ((line_prefix depth +:+ "|\ " +:+ default_branch_name +:+ endl)
                  :: render (S depth) optional)
            ++ render depth input)
  /\ (forall depth left_op right_op left_symbols right_symbols,
        render depth (Cartesian left_op right_op left_symbols right_symbols)
        = operator_line depth (Cartesian left_op right_op left_symbols right_symbols)
            :: ((line_prefix depth +:+ "|\ " +:+ default_branch_name +:+ endl)
                  :: render (S depth) right_op)
            ++ render depth left_op).
Proof.
  split; [|split; [|repeat split]].
  - unfold PrinterModel.PrettyPrint. rewrite Accept_render. reflexivity.
  - intros op.
    assert (Hop : op = Once \/ op <> Once) by (destruct op; (by left) || (by right)).
    destruct Hop as [->|Hop]; [by left | right].
    by apply operator_text_star.
Qed.

End Printer.

(** C8 (as stated) fails: [MATCH (n)] is a [ScanAll] over [Once], two
    operators, and prints as one line. *)
Lemma PrettyPrint_Once_has_no_line :
  sample_PrettyPrint sample_scan = " * ScanAll (n)" +:+ endl
  /\ ~ (operator_count sample_scan <= line_count (sample_PrettyPrint sample_scan)).
Proof. split; [reflexivity | vm_compute; lia]. Qed.

End PrinterFacts.

(** ** Doubles and elapsed times *)

Module DoubleFacts.
Import InterpreterModel.
Local Open Scope Q_scope.

Lemma two_pow_pos (e : Z) : 0 < 2 ^ e.
Proof. apply Qpower_0_lt. reflexivity. Qed.

Lemma two_pow_plus (a b : Z) : 2 ^ (a + b) == 2 ^ a * 2 ^ b.
Proof. apply Qpower_plus. discriminate. Qed.

Lemma two_pow_le (a b : Z) : (a <= b)%Z -> 2 ^ a <= 2 ^ b.
Proof. intros H. apply Qpower_le_compat_l; [exact H | discriminate]. Qed.

Lemma two_pow_cancel (e : Z) : 2 ^ (- e) * 2 ^ e == 1.
Proof. rewrite <- two_pow_plus. replace (- e + e)%Z with 0%Z by lia. reflexivity. Qed.

Lemma two_pow_Z (k : Z) : (0 <= k)%Z -> inject_Z (2 ^ k) == 2 ^ k.
Proof. intros Hk. apply (Zpower_Qpower 2 k Hk). Qed.

(** *** Rounding to the nearest integer *)
Lemma round_half_even_cases (y : Q) :
  let q := Qfloor y in
  (round_half_even y = q /\ y - inject_Z q <= 1 # 2)
  \/ (round_half_even y = (q + 1)%Z /\ 1 # 2 <= y - inject_Z q).
Proof.
  intros q. unfold round_half_even. fold q.
  destruct (y - inject_Z q ?= 1 # 2) eqn:Hcmp.
  - apply Qeq_alt in Hcmp. destruct (Z.even q).
    + left. split; [reflexivity|]. rewrite Hcmp. apply Qle_refl.
    + right. split; [reflexivity|]. rewrite Hcmp. apply Qle_refl.
  - apply Qlt_alt in Hcmp. left. split; [reflexivity|]. apply Qlt_le_weak, Hcmp.
  - apply Qgt_alt in Hcmp. right. split; [reflexivity|]. apply Qlt_le_weak, Hcmp.
Qed.

Lemma round_half_even_near (y : Q) :
  y - (1 # 2) <= inject_Z (round_half_even y) <= y + (1 # 2).
Proof.
  pose proof (Qfloor_le y) as Hlo. pose proof (Qlt_floor y) as Hhi.
  rewrite inject_Z_plus in Hhi.
  pose proof (round_half_even_cases y) as Hc. cbv zeta in Hc.
  destruct Hc as [[-> H]|[-> H]]; rewrite ?inject_Z_plus;
    change (inject_Z 1) with 1 in *; split; lra.
Qed.

Lemma round_half_even_mono (y1 y2 : Q) :
  y1 <= y2 -> (round_half_even y1 <= round_half_even y2)%Z.
Proof.
  intros Hle.
  pose proof (Qfloor_resp_le _ _ Hle) as Hfloor.
  destruct (Z.eq_dec (Qfloor y1) (Qfloor y2)) as [Heq|Hne].
  - unfold round_half_even. rewrite <- Heq.
    destruct (Qcompare_spec (y1 - inject_Z (Qfloor y1)) (1 # 2)) as [H1|H1|H1];
      destruct (Qcompare_spec (y2 - inject_Z (Qfloor y1)) (1 # 2)) as [H2|H2|H2];
      try (destruct (Z.even (Qfloor y1))); try lia; exfalso; lra.
  - destruct (round_half_even_cases y1) as [[-> _]|[-> _]];
      destruct (round_half_even_cases y2) as [[-> _]|[-> _]]; lia.
Qed.

Lemma round_half_even_exact (y : Q) (k : Z) :
  y == inject_Z k -> round_half_even y = k.
Proof.
  intros Hy. unfold round_half_even.
  assert (Hfloor : Qfloor y = k) by (rewrite Hy; apply Qfloor_Z).
  rewrite Hfloor.
  destruct (Qcompare_spec (y - inject_Z k) (1 # 2)) as [H|H|H];
    [exfalso; lra | reflexivity | exfalso; lra].
Qed.

(** *** The exponent of the last bit *)
Lemma last_bit_exponent_spec (x : Q) :
  0 < x ->
  2 ^ 52 <= x * 2 ^ (- last_bit_exponent x) < 2 ^ 53.
Proof.
  intros Hx. destruct x as [n d]. 
  assert (Hn : (0 < n)%Z) by (unfold Qlt in Hx; cbn in Hx; lia).
  unfold last_bit_exponent. cbn [Qnum Qden].
  set (ln := Z.log2 n). set (ld := Z.log2 (Z.pos d)).
  set (e0 := (ln - ld - 52)%Z).
  destruct (Z.log2_spec n Hn) as [Hn1 Hn2]. fold ln in Hn1, Hn2.
  destruct (Z.log2_spec (Z.pos d) ltac:(lia)) as [Hd1 Hd2]. fold ld in Hd1, Hd2.
  assert (Hln : (0 <= ln)%Z) by apply Z.log2_nonneg.
  assert (Hld : (0 <= ld)%Z) by apply Z.log2_nonneg.
  rewrite Zle_Qle, two_pow_Z in Hn1, Hd1 by lia.
  rewrite Zlt_Qlt, two_pow_Z in Hn2, Hd2 by lia.
  assert (Hx' : n # d == inject_Z n / inject_Z (Z.pos d)) by apply Qmake_Qdiv.
  set (N := inject_Z n) in *. set (D := inject_Z (Z.pos d)) in *.
  assert (HD : 0 < D) by (unfold D, Qlt; cbn; lia).
  set (S := 2 ^ (- e0)).
  assert (HS : 0 < S) by apply two_pow_pos.
  (* 2^ln * S == 2^ld * 2^52 *)
  assert (Hrel : 2 ^ ln * S == 2 ^ ld * 2 ^ 52).
  { unfold S. rewrite <- !two_pow_plus. replace (ln + - e0)%Z with (ld + 52)%Z by (unfold e0; lia). reflexivity. }
  assert (Hsucc_n : 2 ^ Z.succ ln == 2 * 2 ^ ln).
  { unfold Z.succ. rewrite two_pow_plus. rewrite Qmult_comm. reflexivity. }
  assert (Hsucc_d : 2 ^ Z.succ ld == 2 * 2 ^ ld).
  { unfold Z.succ. rewrite two_pow_plus. rewrite Qmult_comm. reflexivity. }
  rewrite Hsucc_n in Hn2. rewrite Hsucc_d in Hd2.
  assert (Hp52 : 2 ^ 52 == 4503599627370496) by reflexivity.
  assert (Hp53 : 2 ^ 53 == 9007199254740992) by reflexivity.
  set (A := 2 ^ ln) in *. set (B := 2 ^ ld) in *.
  assert (HA : 0 < A) by apply two_pow_pos.
  assert (HB : 0 < B) by apply two_pow_pos.
  (* x * S bounds *)
  assert (Hxs : (n # d) * S == N * S / D).
  { rewrite Hx'. field. lra. }
  assert (Hup : N * S < 9007199254740992 * D).
  { assert (N * S < 2 * A * S) by (apply Qmult_lt_compat_r; [exact HS | exact Hn2]).
    assert (2 * A * S == 2 * (A * S)) by ring.
    assert (2 * (B * 2^52) <= 9007199254740992 * D).
    { rewrite Hp52. lra. }
    rewrite Hrel in H0. lra. }
  assert (Hlo : 2251799813685248 * D < N * S).
  { assert (A * S <= N * S) by (apply Qmult_le_compat_r; [exact Hn1 | lra]).
    rewrite Hrel, Hp52 in H. lra. }
  destruct (Qle_bool (2 ^ 52) ((n # d) * S)) eqn:Htest.
  - apply Qle_bool_iff in Htest. split; [exact Htest|].
    fold S. rewrite Hxs, Hp53. apply Qlt_shift_div_r; [exact HD | exact Hup].
  - assert (Hnot : ~ 2 ^ 52 <= (n # d) * S).
    { intros H. apply Qle_bool_iff in H. congruence. }
    apply Qnot_le_lt in Hnot.
    assert (Hshift : 2 ^ (- (e0 - 1)) == 2 * S).
    { unfold S. replace (- (e0 - 1))%Z with (1 + - e0)%Z by lia.
      rewrite two_pow_plus. reflexivity. }
    rewrite Hshift.
    assert (Hxs2 : (n # d) * (2 * S) == 2 * (N * S / D)).
    { rewrite Hx'. field. lra. }
    rewrite Hxs2, Hp52, Hp53. rewrite Hxs, Hp52 in Hnot.
    assert (Hlo' : 2251799813685248 < N * S / D).
    { apply Qlt_shift_div_l; [exact HD | exact Hlo]. }
    lra.
Qed.

Lemma scale_back (x : Q) (e : Z) : x * 2 ^ (- e) * 2 ^ e == x.
Proof. rewrite <- Qmult_assoc, two_pow_cancel. ring. Qed.

Lemma last_bit_exponent_bounds (x : Q) :
  0 < x ->
  2 ^ (52 + last_bit_exponent x) <= x < 2 ^ (53 + last_bit_exponent x).
Proof.
  intros Hx. destruct (last_bit_exponent_spec x Hx) as [Hlo Hhi].
  set (e := last_bit_exponent x) in *.
  pose proof (two_pow_pos e) as He.
  rewrite !two_pow_plus, <- (scale_back x e). split.
  - apply Qmult_le_compat_r; [exact Hlo | lra].
  - apply Qmult_lt_compat_r; [exact He | exact Hhi].
Qed.

Lemma last_bit_exponent_mono (x1 x2 : Q) :
  0 < x1 -> x1 <= x2 -> (last_bit_exponent x1 <= last_bit_exponent x2)%Z.
Proof.
  intros H1 Hle.
  assert (H2 : 0 < x2) by lra.
  destruct (last_bit_exponent_bounds x1 H1) as [Hlo1 _].
  destruct (last_bit_exponent_bounds x2 H2) as [_ Hhi2].
  destruct (Z.le_gt_cases (last_bit_exponent x1) (last_bit_exponent x2)) as [?|Hgt];
    [assumption|].
  exfalso.
  pose proof (two_pow_le (53 + last_bit_exponent x2) (52 + last_bit_exponent x1)
                ltac:(lia)).
  lra.
Qed.

Lemma mantissa_bounds (y : Q) :
  2 ^ 52 <= y < 2 ^ 53 ->
  (2 ^ 52 <= round_half_even y <= 2 ^ 53)%Z.
Proof.
  intros [Hlo Hhi]. split.
  - rewrite <- (round_half_even_exact (2 ^ 52) (2 ^ 52)%Z) at 1 by reflexivity.
    apply round_half_even_mono. exact Hlo.
  - rewrite <- (round_half_even_exact (2 ^ 53) (2 ^ 53)%Z) at 1 by reflexivity.
    apply round_half_even_mono. lra.
Qed.

Lemma rounded_bounds (x : Q) :
  0 < x ->
  2 ^ (52 + last_bit_exponent x) <= rounded x <= 2 ^ (53 + last_bit_exponent x).
Proof.
  intros Hx. unfold rounded. set (e := last_bit_exponent x).
  destruct (mantissa_bounds _ (last_bit_exponent_spec x Hx)) as [Hlo Hhi].
  fold e in Hlo, Hhi.
  rewrite Zle_Qle in Hlo, Hhi.
  assert (H52 : inject_Z (2 ^ 52) == 2 ^ 52) by reflexivity.
  assert (H53 : inject_Z (2 ^ 53) == 2 ^ 53) by reflexivity.
  rewrite H52 in Hlo. rewrite H53 in Hhi.
  pose proof (two_pow_pos e) as He.
  rewrite !two_pow_plus. split; apply Qmult_le_compat_r; (assumption || lra).
Qed.

Lemma rounded_mono (x1 x2 : Q) : 0 < x1 -> x1 <= x2 -> rounded x1 <= rounded x2.
Proof.
  intros H1 Hle.
  assert (H2 : 0 < x2) by lra.
  pose proof (last_bit_exponent_mono x1 x2 H1 Hle) as He.
  destruct (Z.eq_dec (last_bit_exponent x1) (last_bit_exponent x2)) as [Heq|Hne].
  - unfold rounded. rewrite <- Heq. set (e := last_bit_exponent x1).
    apply Qmult_le_compat_r; [|apply Qlt_le_weak, two_pow_pos].
    rewrite <- Zle_Qle. apply round_half_even_mono.
    apply Qmult_le_compat_r; [exact Hle | apply Qlt_le_weak, two_pow_pos].
  - destruct (rounded_bounds x1 H1) as [_ Hhi]. destruct (rounded_bounds x2 H2) as [Hlo _].
    pose proof (two_pow_le (53 + last_bit_exponent x1) (52 + last_bit_exponent x2)
                  ltac:(lia)).
    lra.
Qed.

Lemma rounded_pos (x : Q) : 0 < x -> 0 < rounded x.
Proof.
  intros Hx. destruct (rounded_bounds x Hx) as [Hlo _].
  pose proof (two_pow_pos (52 + last_bit_exponent x)). lra.
Qed.

Lemma round_to_double_pos (x : Q) : 0 < x -> round_to_double x = rounded x.
Proof.
  intros Hx. unfold round_to_double.
  destruct x as [[|p|p] d]; unfold Qlt in Hx; cbn in Hx; try lia. reflexivity.
Qed.

Lemma round_to_double_neg (x : Q) : x < 0 -> round_to_double x = - rounded (- x).
Proof.
  intros Hx. unfold round_to_double.
  destruct x as [[|p|p] d]; unfold Qlt in Hx; cbn in Hx; try lia. reflexivity.
Qed.

Lemma round_to_double_zero (x : Q) : x == 0 -> round_to_double x = 0.
Proof.
  intros Hx. unfold round_to_double.
  destruct x as [[|p|p] d]; unfold Qeq in Hx; cbn in Hx; try lia. reflexivity.
Qed.

Lemma round_to_double_mono (x1 x2 : Q) :
  x1 <= x2 -> round_to_double x1 <= round_to_double x2.
Proof.
  intros Hle.
  destruct (Q_dec x1 0) as [[H1|H1]|H1]; destruct (Q_dec x2 0) as [[H2|H2]|H2].
  - rewrite !round_to_double_neg by assumption.
    assert (rounded (- x2) <= rounded (- x1)) by (apply rounded_mono; lra). lra.
  - rewrite round_to_double_neg, round_to_double_pos by assumption.
    pose proof (rounded_pos (- x1) ltac:(lra)). pose proof (rounded_pos x2 H2). lra.
  - rewrite round_to_double_neg, (round_to_double_zero x2) by assumption.
    pose proof (rounded_pos (- x1) ltac:(lra)). lra.
  - exfalso; lra.
  - rewrite !round_to_double_pos by assumption. apply rounded_mono; assumption.
  - exfalso; lra.
  - exfalso; lra.
  - rewrite (round_to_double_zero x1), round_to_double_pos by assumption.
    pose proof (rounded_pos x2 H2). lra.
  - rewrite !round_to_double_zero by assumption. lra.
Qed.

Lemma round_to_double_nonneg (x : Q) : 0 <= x -> 0 <= round_to_double x.
Proof.
  intros Hx. change 0 with (round_to_double 0) at 1.
  apply round_to_double_mono; assumption.
Qed.

Lemma int64_of_double_mono (x1 x2 : Q) :
  x1 <= x2 -> (int64_of_double x1 <= int64_of_double x2)%Z.
Proof.
  intros Hle. unfold int64_of_double.
  destruct (Qle_bool 0 x1) eqn:H1; destruct (Qle_bool 0 x2) eqn:H2.
  - apply Qfloor_resp_le; assumption.
  - apply Qle_bool_iff in H1.
    assert (~ 0 <= x2) by (intros H; apply Qle_bool_iff in H; congruence).
    exfalso. lra.
  - assert (Hneg : ~ 0 <= x1) by (intros H; apply Qle_bool_iff in H; congruence).
    apply Qle_bool_iff in H2.
    transitivity 0%Z.
    + change 0%Z with (Qceiling 0). apply Qceiling_resp_le. lra.
    + change 0%Z with (Qfloor 0). apply Qfloor_resp_le; assumption.
  - apply Qceiling_resp_le; assumption.
Qed.

Lemma rounded_exact (x : Q) (t : Z) :
  x == inject_Z t -> (0 < t < 2 ^ 53)%Z -> rounded x == inject_Z t.
Proof.
  intros Hx [Hpos Hsmall].
  assert (H0 : 0 < x).
  { rewrite Hx. change 0 with (inject_Z 0). rewrite <- Zlt_Qlt. exact Hpos. }
  assert (Hlt : x < 2 ^ 53).
  { rewrite Hx. change (2 ^ 53) with (inject_Z (2 ^ 53)). rewrite <- Zlt_Qlt.
    exact Hsmall. }
  destruct (last_bit_exponent_bounds x H0) as [Hlo _].
  unfold rounded. set (e := last_bit_exponent x) in *.
  assert (He : (e <= 0)%Z).
  { assert (H : 2 ^ (52 + e) < 2 ^ 53) by lra.
    apply Qpower_lt_compat_l_inv in H; [lia | reflexivity]. }
  assert (Hy : x * 2 ^ (- e) == inject_Z (t * 2 ^ (- e))).
  { rewrite inject_Z_mult, two_pow_Z by lia. rewrite Hx. reflexivity. }
  rewrite (round_half_even_exact _ _ Hy).
  rewrite inject_Z_mult, two_pow_Z by lia.
  rewrite <- Qmult_assoc, two_pow_cancel. ring.
Qed.

Lemma round_to_double_exact (t : Z) :
  (0 <= t < 2 ^ 53)%Z -> round_to_double (inject_Z t) == inject_Z t.
Proof.
  intros [Hpos Hsmall]. destruct (Z.eq_dec t 0%Z) as [->|Hne]; [reflexivity|].
  rewrite round_to_double_pos.
  - apply rounded_exact; [reflexivity | lia].
  - change 0 with (inject_Z 0). rewrite <- Zlt_Qlt. lia.
Qed.

Lemma rounded_above (x : Q) :
  0 < x -> rounded x <= x + 2 ^ last_bit_exponent x * (1 # 2).
Proof.
  intros Hx. unfold rounded. set (e := last_bit_exponent x).
  destruct (round_half_even_near (x * 2 ^ (- e))) as [_ Hnear].
  pose proof (two_pow_pos e) as He.
  assert (H : inject_Z (round_half_even (x * 2 ^ (- e))) * 2 ^ e
              <= (x * 2 ^ (- e) + (1 # 2)) * 2 ^ e).
  { apply Qmult_le_compat_r; [exact Hnear | lra]. }
  assert (Heq : (x * 2 ^ (- e) + (1 # 2)) * 2 ^ e == x + 2 ^ e * (1 # 2)).
  { rewrite Qmult_plus_distr_l, scale_back. ring. }
  rewrite Heq in H. exact H.
Qed.

Lemma double_of_one_second :
  double_of_int64 nanoseconds_per_second == 1000000000.
Proof. vm_compute. reflexivity. Qed.

Lemma Qfloor_between (q : Q) (k : Z) :
  inject_Z k <= q -> q < inject_Z (k + 1) -> Qfloor q = k.
Proof.
  intros Hlo Hhi.
  pose proof (Qfloor_le q) as H1. pose proof (Qlt_floor q) as H2.
  assert (Ha : (Qfloor q < k + 1)%Z) by (rewrite Zlt_Qlt; lra).
  assert (Hb : (k < Qfloor q + 1)%Z) by (rewrite Zlt_Qlt; lra).
  lia.
Qed.

(** *** Whole seconds of an elapsed time *)

(** The whole seconds [IsExpired] sees grow with the nanoseconds that have
    passed. *)
Lemma whole_seconds_mono (now later : time_point) (t : Timer) :
  (now <= later)%Z ->
  (duration_cast_seconds (Elapsed now t)
   <= duration_cast_seconds (Elapsed later t))%Z.
Proof.
  intros Hle. unfold duration_cast_seconds, Elapsed, double_div, ticks_since.
  apply int64_of_double_mono, round_to_double_mono.
  pose proof double_of_one_second as Hone.
  set (b := double_of_int64 nanoseconds_per_second) in *.
  unfold Qdiv. apply Qmult_le_compat_r.
  - apply round_to_double_mono. rewrite <- Zle_Qle. lia.
  - apply Qinv_le_0_compat. lra.
Qed.

(** Below 2^53 nanoseconds, some 104 days, the count of nanoseconds is a
    double, and the double of seconds has the whole seconds of the count. *)
Lemma whole_seconds_exact (now : time_point) (t : Timer) :
  (0 <= ticks_since now t < 2 ^ 53)%Z ->
  duration_cast_seconds (Elapsed now t)
  = (ticks_since now t / nanoseconds_per_second)%Z.
Proof.
  unfold duration_cast_seconds, Elapsed. generalize (ticks_since now t).
  clear now t. intros t [Hpos Hsmall].
  destruct (Z.eq_dec t 0%Z) as [->|Hne]; [reflexivity|].
  unfold double_div.
  pose proof double_of_one_second as Hone.
  pose proof (round_to_double_exact t ltac:(lia)) as Hticks.
  fold (double_of_int64 t) in Hticks.
  set (a := double_of_int64 t) in *.
  set (b := double_of_int64 nanoseconds_per_second) in *.
  set (k := (t / nanoseconds_per_second)%Z).
  assert (Hk : (k * 1000000000 <= t < (k + 1) * 1000000000)%Z).
  { unfold k, nanoseconds_per_second.
    pose proof (Z.mul_div_le t 1000000000 ltac:(lia)).
    pose proof (Z.mul_succ_div_gt t 1000000000 ltac:(lia)). lia. }
  assert (Hk0 : (0 <= k < 2 ^ 53)%Z).
  { unfold k, nanoseconds_per_second. split; [apply Z.div_pos; lia|].
    apply Z.div_lt_upper_bound; lia. }
  assert (Ht : inject_Z t < 9007199254740992).
  { change 9007199254740992 with (inject_Z (2 ^ 53)). rewrite <- Zlt_Qlt.
    exact Hsmall. }
  assert (Ht0 : 0 < inject_Z t).
  { change 0 with (inject_Z 0). rewrite <- Zlt_Qlt. lia. }
  assert (Hx : a / b == inject_Z t / 1000000000).
  { rewrite Hticks, Hone. reflexivity. }
  set (x := a / b) in *.
  assert (Hxt : x * 1000000000 == inject_Z t).
  { rewrite Hx. field. }
  assert (Hlo : inject_Z k * 1000000000 <= inject_Z t).
  { change 1000000000 with (inject_Z 1000000000).
    rewrite <- inject_Z_mult, <- Zle_Qle. lia. }
  assert (Hhi : inject_Z t + 1 <= (inject_Z k + 1) * 1000000000).
  { change 1000000000 with (inject_Z 1000000000). change 1 with (inject_Z 1).
    rewrite <- !inject_Z_plus, <- inject_Z_mult, <- Zle_Qle. lia. }
  assert (Hx0 : 0 < x) by lra.
  assert (Hround : inject_Z k <= round_to_double x < inject_Z (k + 1)).
  { split.
    - rewrite <- (round_to_double_exact k Hk0).
      apply round_to_double_mono. lra.
    - rewrite round_to_double_pos by exact Hx0.
      pose proof (rounded_above x Hx0) as Habove.
      destruct (last_bit_exponent_bounds x Hx0) as [Hlow _].
      set (e := last_bit_exponent x) in *.
      assert (He : (e <= -29)%Z).
      { assert (H : 2 ^ (52 + e) < 2 ^ 24).
        { assert (H24 : 2 ^ 24 == 16777216) by reflexivity. rewrite H24. lra. }
        apply Qpower_lt_compat_l_inv in H; [lia | reflexivity]. }
      pose proof (two_pow_le e (-29) He) as Hulp.
      assert (H29 : 2 ^ (-29) == 1 # 536870912) by reflexivity.
      rewrite H29 in Hulp. rewrite inject_Z_plus. change (inject_Z 1) with 1.
      assert (Hsmall_ulp : 2 ^ e * (1 # 2) <= 1 # 1073741824) by lra.
      lra. }
  destruct Hround as [Hr1 Hr2].
  unfold int64_of_double.
  assert (Hnonneg : Qle_bool 0 (round_to_double x) = true).
  { apply Qle_bool_iff. apply round_to_double_nonneg. lra. }
  rewrite Hnonneg. apply Qfloor_between; assumption.
Qed.

End DoubleFacts.

(** ** Frames and the symbols of a plan *)

Module FrameFacts.
Import PlanModel InterpreterModel OperatorModel.














End FrameFacts.

(** ** The interpreter *)

Module InterpreterFacts.
Import PlanModel InterpreterModel OperatorModel DoubleFacts FrameFacts.

Section Interpreter.
Context {Db AstTreeStorage : Type} `{!@Collaborators Db AstTreeStorage}.

#[local] Abbreviation World := (@World Db AstTreeStorage).
#[local] Abbreviation CachedPlan := (@CachedPlan AstTreeStorage).
#[local] Abbreviation M := (@M Db AstTreeStorage).

Implicit Types (w : World) (e : QueryException).

Lemma bind_ok {A B} (m : M A) (k : A -> M B) w a w' :
  m w = (Ok a, w') -> bind m k w = k a w'.
Proof. unfold bind. by intros ->. Qed.

Lemma bind_throw {A B} (m : M A) (k : A -> M B) w e w' :
  m w = (Throw e, w') -> bind m k w = (Throw e, w').
Proof. unfold bind. by intros ->. Qed.

Lemma bind_inv {A B} (m : M A) (k : A -> M B) w r w' :
  bind m k w = (r, w') ->
  (exists e, m w = (Throw e, w') /\ r = Throw e)
  \/ (exists a w1, m w = (Ok a, w1) /\ k a w1 = (r, w')).
Proof.
  unfold bind. destruct (m w) as [[a|e] w1]; intros Hk.
  - right. eauto.
  - left. exists e. by injection Hk as <- <-.
Qed.

Lemma untouched_refl w : untouched w w.
Proof. by repeat split. Qed.

Lemma untouched_trans w1 w2 w3 :
  untouched w1 w2 -> untouched w2 w3 -> untouched w1 w3.
Proof.
  unfold untouched. intros (? & ? & ? & ? & ?) (? & ? & ? & ? & ?).
  repeat split; congruence.
Qed.

(** *** Parameters *)

Lemma AddParameters_outcome stripped_parameters params :
  forall w r w',
    AddParameters stripped_parameters params w = (r, w') ->
    untouched w w'
    /\ match r with
       | Ok _ => forall name, name ∈ stripped_parameters.*2 -> is_Some (params !! name)
       | Throw e =>
           exists name,
             name ∈ stripped_parameters.*2 /\ params !! name = None
             /\ e = UnprovidedParameterError
                      ("Parameter$ " +:+ name +:+ " not provided")
       end.
Proof.
  induction stripped_parameters as [|[position name] rest IH]; intros w r w' Hrun.
  - injection Hrun as <- <-. split; [apply untouched_refl|].
    intros name Hin. by apply elem_of_nil in Hin.
  - cbn [AddParameters] in Hrun. cbn [snd fst] in Hrun.
    destruct (params !! name) as [value|] eqn:Hname.
    + apply IH in Hrun as [Hsame Hr]. split.
      * eapply untouched_trans; [|exact Hsame]. by repeat split.
      * destruct r as [[]|e].
        -- intros name' Hin. cbn in Hin. apply elem_of_cons in Hin as [->|Hin]; eauto.
        -- destruct Hr as (name' & Hin & Hnone & ->). exists name'.
           split; [|done]. cbn. apply elem_of_cons. by right.
    + injection Hrun as <- <-. split; [apply untouched_refl|].
      exists name. split; [|done]. cbn. apply elem_of_cons. by left.
Qed.

(** *** The plan cache *)

Lemma FindCachedPlan_eq now stripped w :
  FindCachedPlan now stripped w
  = match plan_cache_ w !! hash stripped with
    | Some cached =>
        if IsExpired now cached
        then (Ok None, with_plan_cache (delete (hash stripped) (plan_cache_ w)) w)
        else (Ok (Some cached), w)
    | None => (Ok None, w)
    end.
Proof.
  unfold FindCachedPlan, bind, get. cbn.
  destruct (plan_cache_ w !! hash stripped) as [cached|]; [|done].
  by destruct (IsExpired now cached).
Qed.

Lemma FindCachedPlan_outcome now stripped w r w' :
  FindCachedPlan now stripped w = (r, w') ->
  stream_ w' = stream_ w /\ ctx_ w' = ctx_ w
  /\ frontend_runs w' = frontend_runs w /\ plans_executed w' = plans_executed w
  /\ (forall h cached,
        plan_cache_ w !! h = Some cached -> kept now stripped h cached ->
        plan_cache_ w' !! h = Some cached)
  /\ (r = Ok None -> plan_cache_ w' !! hash stripped = None).
Proof.
  rewrite FindCachedPlan_eq.
  destruct (plan_cache_ w !! hash stripped) as [cached|] eqn:Hlookup.
  - destruct (IsExpired now cached) eqn:Hexp; intros [= <- <-]; cbn.
    + repeat split; try done.
      * intros h c Hh [Hne|Hfresh].
        -- by rewrite lookup_delete_ne.
        -- destruct (decide (h = hash stripped)) as [->|Hne].
           ++ congruence.
           ++ by rewrite lookup_delete_ne.
      * intros _. apply lookup_delete_eq.
    + repeat split; try done.
  - intros [= <- <-]. by repeat split.
Qed.

Lemma CompilePlan_outcome clock stripped w r w' :
  CompilePlan clock stripped w = (r, w') ->
  stream_ w' = stream_ w
  /\ frontend_runs w' = S (frontend_runs w)
  /\ plans_executed w' = plans_executed w
  /\ (forall h cached,
        plan_cache_ w !! h = Some cached -> plan_cache_ w' !! h = Some cached)
  /\ (forall cached_plan,
        r = Ok cached_plan ->
        plan_cache_ w !! hash stripped = None ->
        cache_timer_ cached_plan = mkTimer (at_plan_created clock)
        /\ plan_cache_ w' !! hash stripped
           = if FLAGS_query_plan_cache then Some cached_plan else None).
Proof.
  unfold CompilePlan, bind, modify, get, lift, ret. cbn.
  destruct (QueryToAst stripped (ctx_ w)) as [[ast ctx]|e]; cbn;
    [|intros [= <- <-]; by repeat split].
  destruct (SymbolGenerator ast (symbol_table_ ctx)) as [st|e]; cbn;
    [|intros [= <- <-]; by repeat split].
  destruct (MakeLogicalPlan ast (set_symbol_table st ctx))
    as [[[[plan cost] ast'] ctx']|e]; cbn;
    [|intros [= <- <-]; by repeat split].
  destruct FLAGS_query_plan_cache; cbn.
  - unfold ConcurrentMap_insert.
    destruct (plan_cache_ w !! hash stripped) as [present|] eqn:Hpresent; cbn;
      intros [= <- <-]; cbn.
    + by repeat split.
    + split; [done|]. split; [done|]. split; [done|]. split.
      * intros h cached Hh.
        destruct (decide (h = hash stripped)) as [->|Hne]; [congruence|].
        by rewrite lookup_insert_ne.
      * intros cp [= <-] _. split; [done|]. apply lookup_insert_eq.
  - intros [= <- <-]; cbn. split; [done|]. split; [done|]. split; [done|].
    split; [done|]. by intros cp [= <-] Hnone.
Qed.

Lemma ObtainPlan_outcome clock stripped w r w' :
  ObtainPlan clock stripped w = (r, w') ->
  stream_ w' = stream_ w
  /\ plans_executed w' = plans_executed w
  /\ (forall h cached,
        plan_cache_ w !! h = Some cached ->
        kept (at_cache_lookup clock) stripped h cached ->
        plan_cache_ w' !! h = Some cached).
Proof.
  unfold ObtainPlan. intros Hrun.
  apply bind_inv in Hrun as [(e & Hfind & _)|(found & w1 & Hfind & Hrest)].
  - rewrite FindCachedPlan_eq in Hfind.
    destruct (plan_cache_ w !! hash stripped) as [c|]; [destruct (IsExpired _ c)|];
      discriminate.
  - apply FindCachedPlan_outcome in Hfind as (Hs & Hc & Hf & Hp & Hkept & _).
    destruct found as [cached|].
    + injection Hrest as <- <-. by repeat split.
    + apply CompilePlan_outcome in Hrest as (Hs' & _ & Hp' & Hkeep & _).
      repeat split; [congruence | congruence |].
      intros h cached Hh Hk. apply Hkeep. by apply Hkept.
Qed.

(** *** Running a plan *)

Scheme Cursor_pulls := Induction for Cursor Sort Prop
  with PullOutcome_pulls := Induction for PullOutcome Sort Prop.

(** Induction on the rows a cursor still has. *)
Lemma Cursor_rows_ind (P : @Cursor Db -> Prop) :
  (forall Pull,
      (forall frame ctx writes ctx' next,
          Pull frame ctx = PullTrue writes ctx' next -> P next) ->
      P (MkCursor Pull)) ->
  forall cursor, P cursor.
Proof.
  intros Hstep.
  apply (Cursor_pulls Db P
           (fun o => match o with PullTrue _ _ next => P next | _ => True end));
    try done.
  intros Pull IH. apply Hstep. intros frame ctx writes ctx' next Hpull.
  specialize (IH frame ctx). by rewrite Hpull in IH.
Qed.

Lemma ran_refl only w : ran only w w.
Proof. repeat split. exists []. by rewrite app_nil_r. Qed.

Lemma StreamResults_outcome cursor :
  forall frame output_symbols w r w',
    StreamResults cursor frame output_symbols w = (r, w') -> ran is_Result w w'.
Proof.
  induction cursor as [Pull IH] using Cursor_rows_ind.
  intros frame output_symbols w r w' Hrun. cbn [StreamResults] in Hrun.
  destruct (Pull frame (ctx_ w)) as [writes ctx next|ctx|e ctx] eqn:Hpull.
  - apply (IH _ _ _ _ _ Hpull) in Hrun
      as (Hcache & Hruns & Hexec & calls & Hstream & Hcalls).
    repeat split; try done. cbn in Hstream.
    exists (Result (map (Frame_at (Frame_assign_all frame writes)) output_symbols)
              :: calls).
    split; [by rewrite Hstream, <- app_assoc | by constructor].
  - injection Hrun as <- <-. repeat split. exists []. cbn. by rewrite app_nil_r.
  - injection Hrun as <- <-. repeat split. exists []. cbn. by rewrite app_nil_r.
Qed.

Lemma Drain_outcome cursor :
  forall frame w r w',
    Drain cursor frame w = (r, w') ->
    plan_cache_ w' = plan_cache_ w /\ frontend_runs w' = frontend_runs w
    /\ plans_executed w' = plans_executed w /\ stream_ w' = stream_ w.
Proof.
  induction cursor as [Pull IH] using Cursor_rows_ind.
  intros frame w r w' Hrun. cbn [Drain] in Hrun.
  destruct (Pull frame (ctx_ w)) as [writes ctx next|ctx|e ctx] eqn:Hpull.
  - by apply (IH _ _ _ _ _ Hpull) in Hrun.
  - by injection Hrun as <- <-.
  - by injection Hrun as <- <-.
Qed.

Lemma Drain_pulled (cursor : @Cursor Db) frame ctx rows r ctx' :
  pulled cursor frame ctx rows r ctx' ->
  forall w, ctx_ w = ctx -> Drain cursor frame w = (r, with_ctx ctx' w).
Proof.
  induction 1 as [Pull frame ctx ctx' Hpull|Pull frame ctx e ctx' Hpull
                 |Pull frame ctx writes ctx1 next rows r ctx' Hpull _ IH];
    intros w <-; cbn [Drain]; rewrite Hpull; try done.
  by rewrite (IH (with_ctx ctx1 w) eq_refl).
Qed.

(** Every cursor is exhausted, or throws, after finitely many rows. *)
Lemma pulled_total (cursor : @Cursor Db) :
  forall frame ctx, exists rows r ctx', pulled cursor frame ctx rows r ctx'.
Proof.
  induction cursor as [Pull IH] using Cursor_rows_ind. intros frame ctx.
  destruct (Pull frame ctx) as [writes ctx1 next|ctx'|e ctx'] eqn:Hpull.
  - destruct (IH _ _ _ _ _ Hpull (Frame_assign_all frame writes) ctx1)
      as (rows & r & ctx' & Hrest).
    exists (S rows), r, ctx'. by eapply pulled_true.
  - exists 0, (Ok tt), ctx'. by apply pulled_false.
  - exists 0, (Throw e), ctx'. by apply pulled_throw.
Qed.

Lemma pulled_unique (cursor : @Cursor Db) frame ctx rows r ctx' :
  pulled cursor frame ctx rows r ctx' ->
  forall rows2 r2 ctx2,
    pulled cursor frame ctx rows2 r2 ctx2 ->
    rows2 = rows /\ r2 = r /\ ctx2 = ctx'.
Proof.
  induction 1 as [Pull frame ctx ctx' Hpull|Pull frame ctx e ctx' Hpull
                 |Pull frame ctx writes ctx1 next rows r ctx' Hpull _ IH];
    intros rows2 r2 ctx2 Hother; inversion Hother; subst; try congruence.
  - assert (ctx2 = ctx') by congruence. by subst.
  - assert (e0 = e /\ ctx2 = ctx') as [-> ->] by (split; congruence). done.
  - assert (writes0 = writes /\ ctx3 = ctx1 /\ next0 = next) as (-> & -> & ->)
      by (repeat split; congruence).
    match goal with
    | Hrest : pulled next _ _ _ _ _ |- _ =>
        apply IH in Hrest as (-> & -> & ->)
    end.
    done.
Qed.

Lemma ExecutePlan_eq logical_plan stripped w :
  ExecutePlan logical_plan stripped w
  = let output_symbols := OutputSymbols logical_plan (symbol_table_ (ctx_ w)) in
    if negb (bool_decide (output_symbols = []))
    then StreamResults (MakeCursor logical_plan (db_accessor_ (ctx_ w)))
           (ExecutePlan_frame (ctx_ w)) output_symbols
           (stream_call (Header (map (header_field stripped) output_symbols))
                        (started w))
    else if is_write_root logical_plan
    then Drain (MakeCursor logical_plan (db_accessor_ (ctx_ w)))
           (ExecutePlan_frame (ctx_ w)) (stream_call (Header []) (started w))
    else (Throw (QueryRuntimeException "Unknown top level LogicalOperator"),
          started w).
Proof.
  unfold ExecutePlan, bind, modify, get, throw. cbn.
  destruct (negb _); [done|]. by destruct (is_write_root logical_plan).
Qed.

Lemma ExecutePlan_outcome logical_plan stripped w r w' :
  ExecutePlan logical_plan stripped w = (r, w') ->
  plan_cache_ w' = plan_cache_ w
  /\ frontend_runs w' = frontend_runs w
  /\ exists calls,
       stream_ w' = stream_ w ++ calls
       /\ Forall (fun c => is_Summary c = false) calls.
Proof.
  rewrite ExecutePlan_eq. cbn zeta.
  destruct (negb _).
  - intros Hrun. apply StreamResults_outcome in Hrun
      as (Hcache & Hruns & _ & calls & Hstream & Hcalls).
    repeat split; try done. cbn in Hstream.
    eexists (_ :: calls). split; [by rewrite Hstream, <- app_assoc|].
    constructor; [done|]. eapply Forall_impl; [exact Hcalls|].
    by intros [].
  - destruct (is_write_root logical_plan).
    + intros Hrun. apply Drain_outcome in Hrun as (Hcache & Hruns & _ & Hstream).
      repeat split; try done. cbn in Hstream.
      eexists [_]. split; [exact Hstream|]. by repeat constructor.
    + intros [= <- <-]. repeat split. exists []. by rewrite app_nil_r.
Qed.

(** *** The phases of Interpret *)

Lemma Interpret_staged query params in_explicit_transaction clock w :
  Interpret query params in_explicit_transaction clock w
  = bind (Prepare query params in_explicit_transaction clock)
         (fun cached_plan =>
            bind (ExecutePlan (plan_ cached_plan) (Strip query))
                 (fun _ => Finish clock cached_plan)) w.
Proof.
  unfold Interpret, Prepare, Finish.
  cbv beta iota zeta delta [bind modify get ret].
  destruct (AddParameters _ _ _) as [[[]|e] w1]; [|done].
  destruct (ObtainPlan _ _ _) as [[cached_plan|e] w2]; [|done].
  by destruct (ExecutePlan _ _ _) as [[[]|e] w3].
Qed.

Lemma Prepare_outcome query params in_explicit_transaction clock w r w' :
  Prepare query params in_explicit_transaction clock w = (r, w') ->
  stream_ w' = stream_ w
  /\ plans_executed w' = plans_executed w
  /\ (forall h cached,
        plan_cache_ w !! h = Some cached ->
        kept (at_cache_lookup clock) (Strip query) h cached ->
        plan_cache_ w' !! h = Some cached)
  /\ (forall cached_plan,
        r = Ok cached_plan ->
        symbol_table_ (ctx_ w') = plan_symbol_table_ cached_plan).
Proof.
  unfold Prepare. intros Hrun.
  apply bind_inv in Hrun as [(e & [=] & _)|([] & w1 & [= <-] & Hrun)].
  apply bind_inv in Hrun as [(e & [=] & _)|([] & w2 & [= <-] & Hrun)].
  apply bind_inv in Hrun as [(e & Hadd & ->)|([] & w3 & Hadd & Hrun)].
  { apply AddParameters_outcome in Hadd as [(Hc & Hs & _ & Hp & _) _].
    cbn in *. repeat split; try done. intros h cached Hh _. by rewrite Hc. }
  apply AddParameters_outcome in Hadd as [(Hc & Hs & _ & Hp & _) _]. cbn in *.
  apply bind_inv in Hrun as [(e & Hplan & ->)|(cached_plan & w4 & Hplan & Hrun)].
  { apply ObtainPlan_outcome in Hplan as (Hs' & Hp' & Hkept).
    repeat split; try congruence. intros h cached Hh Hk. apply Hkept; [|done].
    by rewrite Hc. }
  apply ObtainPlan_outcome in Hplan as (Hs' & Hp' & Hkept).
  injection Hrun as <- <-. cbn.
  repeat split; try congruence.
  intros h cached Hh Hk. apply Hkept; [|done]. by rewrite Hc.
Qed.

Lemma Finish_eq clock cached_plan w :
  Finish clock cached_plan w = (Ok tt, finished clock cached_plan w).
Proof.
  unfold Finish, finished, bind, get, modify, ret. cbn.
  by destruct (is_index_created_ (ctx_ w)).
Qed.

(** How a call of [Interpret] ends. *)
Lemma Interpret_inv query params in_explicit_transaction clock w r w' :
  Interpret query params in_explicit_transaction clock w = (r, w') ->
  (exists e,
      Prepare query params in_explicit_transaction clock w = (Throw e, w')
      /\ r = Throw e)
  \/ (exists cached_plan w1,
        Prepare query params in_explicit_transaction clock w = (Ok cached_plan, w1)
        /\ ((exists e,
               ExecutePlan (plan_ cached_plan) (Strip query) w1 = (Throw e, w')
               /\ r = Throw e)
            \/ (exists w2,
                  ExecutePlan (plan_ cached_plan) (Strip query) w1 = (Ok tt, w2)
                  /\ r = Ok tt
                  /\ w' = finished clock cached_plan w2))).
Proof.
  rewrite Interpret_staged. intros Hrun.
  apply bind_inv in Hrun as [(e & Hprep & ->)|(cached_plan & w1 & Hprep & Hrun)].
  { left. eauto. }
  right. exists cached_plan, w1. split; [done|].
  apply bind_inv in Hrun as [(e & Hexec & ->)|([] & w2 & Hexec & Hrun)].
  { left. eauto. }
  right. exists w2. rewrite Finish_eq in Hrun. injection Hrun as <- <-.
  by repeat split.
Qed.

Lemma InvalidateCache_lookup (entries : list (HashType * CachedPlan)) :
  forall (cache : gmap HashType CachedPlan) h,
    foldl (fun acc cached_plan => delete cached_plan.1 acc) cache entries !! h
    = if bool_decide (h ∈ entries.*1) then None else cache !! h.
Proof.
  induction entries as [|[k v] entries IH]; intros cache h; [done|].
  cbn [foldl fmap list_fmap fst]. rewrite IH.
  destruct (decide (h = k)) as [->|Hne].
  - rewrite lookup_delete_eq. rewrite (bool_decide_eq_true_2 (k ∈ k :: _)).
    + by destruct (bool_decide _).
    + apply elem_of_cons. by left.
  - rewrite lookup_delete_ne by done.
    destruct (bool_decide (h ∈ entries.*1)) eqn:Hin.
    + apply bool_decide_eq_true_1 in Hin.
      rewrite bool_decide_eq_true_2; [done|]. apply elem_of_cons. by right.
    + apply bool_decide_eq_false_1 in Hin.
      rewrite bool_decide_eq_false_2; [done|].
      intros [?|?]%elem_of_cons; done.
Qed.

(** Removing every entry the accessor iterates over leaves no entry. *)
Lemma InvalidateCache_empty (cache : gmap HashType CachedPlan) :
  InvalidateCache cache = ∅.
Proof.
  apply map_eq. intros h. unfold InvalidateCache.
  rewrite InvalidateCache_lookup, lookup_empty.
  destruct (bool_decide _) eqn:Hin; [done|].
  apply bool_decide_eq_false_1 in Hin.
  destruct (cache !! h) as [cached|] eqn:Hh; [|done].
  exfalso. apply Hin. apply list_elem_of_fmap. exists (h, cached).
  split; [done|]. by apply elem_of_map_to_list.
Qed.

(** Running a [CreateIndex] plan to the end raises the context's flag. *)
Lemma ExecutePlan_CreateIndex label property stripped w w' :
  ExecutePlan (CreateIndex label property) stripped w = (Ok tt, w') ->
  is_index_created_ (ctx_ w') = true.
Proof.
  rewrite ExecutePlan_eq. cbn zeta. cbn [MakeCursor is_write_root].
  destruct (negb _).
  - cbn. destruct (BuildIndex label property (ctx_ w)) as [db|e]; cbn;
      intros [= <-]; done.
  - cbn. destruct (BuildIndex label property (ctx_ w)) as [db|e]; cbn;
      intros [= <-]; done.
Qed.

(** *** Interpret and ExecutePlan *)

(** C1.  When [Interpret] runs a [CreateIndex] plan and completes, no entry
    is left in the plan cache, so every later lookup misses; and when
    [Interpret] fails, whatever the reason, every entry the lookup kept is
    still in the cache. *)
Theorem CreateIndex_invalidates_the_plan_cache
    query params in_explicit_transaction clock w :
  (forall cached_plan w1 label property w',
      Prepare query params in_explicit_transaction clock w = (Ok cached_plan, w1) ->
      plan_ cached_plan = CreateIndex label property ->
      Interpret query params in_explicit_transaction clock w = (Ok tt, w') ->
      plan_cache_ w' = ∅
      /\ forall now stripped, FindCachedPlan now stripped w' = (Ok None, w'))
  /\ (forall e w',
        Interpret query params in_explicit_transaction clock w = (Throw e, w') ->
        forall h cached,
          plan_cache_ w !! h = Some cached ->
          kept (at_cache_lookup clock) (Strip query) h cached ->
          plan_cache_ w' !! h = Some cached).
Proof.
  split.
  - intros cached_plan w1 label property w' Hprep Hplan Hrun.
    apply Interpret_inv in Hrun
      as [(e & _ & [=])|(cp & w1' & Hprep' & [(e & _ & [=])|(w2 & Hexec & _ & ->)])].
    rewrite Hprep in Hprep'. injection Hprep' as <- <-.
    rewrite Hplan in Hexec. apply ExecutePlan_CreateIndex in Hexec.
    assert (Hempty : plan_cache_ (finished clock cached_plan w2) = ∅).
    { unfold finished. rewrite Hexec. cbn. apply InvalidateCache_empty. }
    split; [exact Hempty|]. intros now stripped.
    rewrite FindCachedPlan_eq, Hempty. by rewrite lookup_empty.
  - intros e w' Hrun h cached Hh Hkept.
    apply Interpret_inv in Hrun
      as [(e' & Hprep & _)|(cp & w1 & Hprep & [(e' & Hexec & _)|(w2 & _ & [=] & _)])].
    + apply Prepare_outcome in Hprep as (_ & _ & Hkeep & _). by apply Hkeep.
    + apply Prepare_outcome in Hprep as (_ & _ & Hkeep & _).
      apply ExecutePlan_outcome in Hexec as (Hcache & _).
      rewrite Hcache. by apply Hkeep.
Qed.

Lemma is_write_root_iff plan :
  is_write_root plan = true <->
  (exists input, plan = CreateNode input)
  \/ (exists input, plan = CreateExpand input)
  \/ (exists input, plan = SetProperty input)
  \/ (exists input, plan = SetProperties input)
  \/ (exists input, plan = SetLabels input)
  \/ (exists input, plan = RemoveProperty input)
  \/ (exists input, plan = RemoveLabels input)
  \/ (exists input, plan = Delete input)
  \/ (exists input merge_match merge_create,
         plan = Merge input merge_match merge_create)
  \/ (exists label property, plan = CreateIndex label property).
Proof.
  split.
  - destruct plan; cbn; intros Hroot; try discriminate; eauto 15.
  - intros Hplan. decompose [or ex] Hplan; subst; reflexivity.
Qed.

(** C3.  A plan whose root yields no output symbols: if the root is one of
    the ten write operators, an empty header is streamed and the root
    cursor is pulled until it is exhausted, for its side effects; for any
    other root [Interpret] throws [QueryRuntimeException] (the spec's
    QueryRuntimeError) and nothing is streamed.  Pulled until exhausted:
    the cursor is pulled on the new frame and on the context of the call,
    and again on what each pull leaves of them, for as long as the pulls
    return true, which is finitely often; no row is streamed.  When the
    last pull returns false, the call goes on to the summary with the
    context that pull left; when it throws, [Interpret] throws the same
    exception, after the empty header, and the context is what the pulls
    have made of it. *)
Theorem ExecutePlan_without_output_symbols
    query params in_explicit_transaction clock w cached_plan w1 :
  Prepare query params in_explicit_transaction clock w = (Ok cached_plan, w1) ->
  OutputSymbols (plan_ cached_plan) (symbol_table_ (ctx_ w1)) = [] ->
  (is_write_root (plan_ cached_plan) = true <->
   (exists input, plan_ cached_plan = CreateNode input)
   \/ (exists input, plan_ cached_plan = CreateExpand input)
   \/ (exists input, plan_ cached_plan = SetProperty input)
   \/ (exists input, plan_ cached_plan = SetProperties input)
   \/ (exists input, plan_ cached_plan = SetLabels input)
   \/ (exists input, plan_ cached_plan = RemoveProperty input)
   \/ (exists input, plan_ cached_plan = RemoveLabels input)
   \/ (exists input, plan_ cached_plan = Delete input)
   \/ (exists input merge_match merge_create,
          plan_ cached_plan = Merge input merge_match merge_create)
   \/ (exists label property, plan_ cached_plan = CreateIndex label property))
  /\ (is_write_root (plan_ cached_plan) = true ->
      ExecutePlan (plan_ cached_plan) (Strip query) w1
      = Drain (MakeCursor (plan_ cached_plan) (db_accessor_ (ctx_ w1)))
              (ExecutePlan_frame (ctx_ w1))
              (stream_call (Header []) (started w1))
      /\ (forall r w',
             ExecutePlan (plan_ cached_plan) (Strip query) w1 = (r, w') ->
             stream_ w' = stream_ w ++ [Header []])
      /\ (forall w',
             Interpret query params in_explicit_transaction clock w = (Ok tt, w') ->
             exists summary, stream_ w' = stream_ w ++ [Header []; Summary summary])
      /\ (exists rows r ctx',
             pulled (MakeCursor (plan_ cached_plan) (db_accessor_ (ctx_ w1)))
                    (ExecutePlan_frame (ctx_ w1)) (ctx_ w1) rows r ctx')
      /\ (forall rows r ctx',
             pulled (MakeCursor (plan_ cached_plan) (db_accessor_ (ctx_ w1)))
                    (ExecutePlan_frame (ctx_ w1)) (ctx_ w1) rows r ctx' ->
             let pulled_out :=
               with_ctx ctx' (stream_call (Header []) (started w1)) in
             ExecutePlan (plan_ cached_plan) (Strip query) w1 = (r, pulled_out)
             /\ Interpret query params in_explicit_transaction clock w
                = match r with
                  | Ok _ => (Ok tt, finished clock cached_plan pulled_out)
                  | Throw e => (Throw e, pulled_out)
                  end))
  /\ (is_write_root (plan_ cached_plan) = false ->
      Interpret query params in_explicit_transaction clock w
      = (Throw (QueryRuntimeException "Unknown top level LogicalOperator"),
         started w1)
      /\ stream_ (started w1) = stream_ w).
Proof.
  intros Hprep Hout.
  pose proof (Prepare_outcome _ _ _ _ _ _ _ Hprep) as (Hstream & _).
  assert (Hexec : ExecutePlan (plan_ cached_plan) (Strip query) w1
                  = if is_write_root (plan_ cached_plan)
                    then Drain (MakeCursor (plan_ cached_plan) (db_accessor_ (ctx_ w1)))
                           (ExecutePlan_frame (ctx_ w1))
                           (stream_call (Header []) (started w1))
                    else (Throw (QueryRuntimeException
                                   "Unknown top level LogicalOperator"),
                          started w1)).
  { rewrite ExecutePlan_eq. cbn zeta. rewrite Hout.
    by rewrite bool_decide_eq_true_2. }
  split; [apply is_write_root_iff|]. split.
  - intros Hroot. rewrite Hroot in Hexec. split; [exact Hexec|].
    assert (Hheader : forall r w',
               ExecutePlan (plan_ cached_plan) (Strip query) w1 = (r, w') ->
               stream_ w' = stream_ w ++ [Header []]).
    { intros r w' Hrun. rewrite Hexec in Hrun.
      apply Drain_outcome in Hrun as (_ & _ & _ & ->). cbn. by rewrite Hstream. }
    split; [exact Hheader|]. split; [|split].
    + intros w' Hrun.
      apply Interpret_inv in Hrun
        as [(e & _ & [=])|(cp & w1' & Hprep' & [(e & _ & [=])|(w2 & Hrun & _ & ->)])].
      rewrite Hprep in Hprep'. injection Hprep' as <- <-.
      apply Hheader in Hrun. eexists. unfold finished.
      destruct (is_index_created_ (ctx_ w2)); cbn; rewrite Hrun;
        by rewrite <- app_assoc.
    + apply pulled_total.
    + intros rows r ctx' Hpulled pulled_out.
      assert (Hrun : ExecutePlan (plan_ cached_plan) (Strip query) w1
                     = (r, pulled_out)).
      { rewrite Hexec. by apply (Drain_pulled _ _ _ _ _ _ Hpulled). }
      split; [exact Hrun|].
      rewrite Interpret_staged, (bind_ok _ _ _ _ _ Hprep).
      destruct r as [[]|e].
      * rewrite (bind_ok _ _ _ _ _ Hrun). apply Finish_eq.
      * by apply bind_throw.
  - intros Hroot. rewrite Hroot in Hexec. split; [|exact Hstream].
    rewrite Interpret_staged.
    rewrite (bind_ok _ _ _ _ _ Hprep). by apply bind_throw.
Qed.

(** C4.  When the stripped query records a user parameter whose name the
    supplied parameters lack, [Interpret] throws
    [UnprovidedParameterError]; nothing was compiled, no plan was run,
    nothing was streamed, and the cache and the database are as before. *)
Theorem Interpret_unprovided_parameter
    query params in_explicit_transaction clock w :
  (exists position name,
      (position, name) ∈ parameters (Strip query) /\ params !! name = None) ->
  exists name w',
    Interpret query params in_explicit_transaction clock w
    = (Throw (UnprovidedParameterError
                ("Parameter$ " +:+ name +:+ " not provided")), w')
    /\ params !! name = None
    /\ frontend_runs w' = frontend_runs w
    /\ plans_executed w' = plans_executed w
    /\ stream_ w' = stream_ w
    /\ plan_cache_ w' = plan_cache_ w
    /\ db_accessor_ (ctx_ w') = db_accessor_ (ctx_ w).
Proof.
  intros (position & name & Hin & Hnone).
  set (w2 := with_ctx (set_parameters (literals (Strip query))
                         (ctx_ (InitContext in_explicit_transaction w)))
                      (InitContext in_explicit_transaction w)).
  destruct (AddParameters (parameters (Strip query)) params w2)
    as [r w'] eqn:Hadd.
  pose proof (AddParameters_outcome _ _ _ _ _ Hadd) as [Hsame Hr].
  destruct r as [[]|e].
  - assert (Hsome : is_Some (params !! name)).
    { apply Hr. apply list_elem_of_fmap. by exists (position, name). }
    rewrite Hnone in Hsome. by destruct Hsome.
  - destruct Hr as (missing & _ & Hmissing & ->).
    exists missing, w'. split.
    + unfold Interpret. cbv beta iota zeta delta [bind modify]. fold w2.
      by rewrite Hadd.
    + destruct Hsame as (? & ? & ? & ? & ?). by repeat split.
Qed.

Lemma whole_seconds_exceed (ttl ticks : Z) :
  (0 <= ttl)%Z -> (0 <= ticks)%Z ->
  (ttl < ticks / nanoseconds_per_second)%Z
  <-> ((ttl + 1) * nanoseconds_per_second <= ticks)%Z.
Proof.
  intros Httl Hticks. unfold nanoseconds_per_second. split.
  - intros Hlt.
    pose proof (Z.mul_div_le ticks 1000000000 ltac:(lia)). nia.
  - intros Hle.
    assert (ttl + 1 <= ticks / 1000000000)%Z; [|lia].
    apply Z.div_le_lower_bound; lia.
Qed.

(** C5 (as amended).  On a plan-cache lookup, a cached entry is removed,
    and the lookup is a miss, when the whole seconds of its age exceed
    [query_plan_cache_ttl]; the age is the double of seconds that the
    entry's timer reports, truncated.  The query is then compiled again, and
    the new plan is in the cache afterwards when caching is enabled.  Any
    other entry is reused as it is, and nothing is compiled.  For an age
    below 2^53 nanoseconds the whole seconds are those of the count of
    nanoseconds, so that, with a time to live that is not negative, the
    entry is removed exactly when it is at least [query_plan_cache_ttl + 1]
    seconds old. *)
Theorem expired_plan_is_compiled_again clock stripped w cached :
  plan_cache_ w !! hash stripped = Some cached ->
  let age := ticks_since (at_cache_lookup clock) (cache_timer_ cached) in
  let whole_seconds :=
    duration_cast_seconds (Elapsed (at_cache_lookup clock) (cache_timer_ cached)) in
  let without := with_plan_cache (delete (hash stripped) (plan_cache_ w)) w in
  ((0 <= age < 2 ^ 53)%Z ->
   whole_seconds = (age / nanoseconds_per_second)%Z
   /\ ((0 <= FLAGS_query_plan_cache_ttl)%Z ->
       (FLAGS_query_plan_cache_ttl < whole_seconds)%Z
       <-> ((FLAGS_query_plan_cache_ttl + 1) * nanoseconds_per_second <= age)%Z))
  /\ ((FLAGS_query_plan_cache_ttl < whole_seconds)%Z ->
      FindCachedPlan (at_cache_lookup clock) stripped w = (Ok None, without)
      /\ ObtainPlan clock stripped w = CompilePlan clock stripped without
      /\ forall new_plan w',
           ObtainPlan clock stripped w = (Ok new_plan, w') ->
           frontend_runs w' = S (frontend_runs w)
           /\ cache_timer_ new_plan = mkTimer (at_plan_created clock)
           /\ plan_cache_ w' !! hash stripped
              = if FLAGS_query_plan_cache then Some new_plan else None)
  /\ (~ (FLAGS_query_plan_cache_ttl < whole_seconds)%Z ->
      ObtainPlan clock stripped w = (Ok cached, w)).
Proof.
  intros Hcached age whole_seconds without.
  split.
  { intros Hage.
    assert (Hexact : whole_seconds = (age / nanoseconds_per_second)%Z)
      by (by apply whole_seconds_exact).
    split; [exact Hexact|]. intros Httl. rewrite Hexact.
    apply whole_seconds_exceed; lia. }
  split.
  - intros Hold.
    assert (Hfind : FindCachedPlan (at_cache_lookup clock) stripped w
                    = (Ok None, without)).
    { rewrite FindCachedPlan_eq, Hcached. unfold IsExpired. fold whole_seconds.
      apply Z.ltb_lt in Hold. by rewrite Hold. }
    assert (Hobtain : ObtainPlan clock stripped w
                      = CompilePlan clock stripped without).
    { unfold ObtainPlan. by rewrite (bind_ok _ _ _ _ _ Hfind). }
    split; [exact Hfind|]. split; [exact Hobtain|].
    intros new_plan w' Hrun. rewrite Hobtain in Hrun.
    apply CompilePlan_outcome in Hrun as (_ & Hruns & _ & _ & Hnew).
    destruct (Hnew new_plan eq_refl) as [Htimer Hlookup].
    { cbn. apply lookup_delete_eq. }
    by repeat split.
  - intros Hyoung. unfold ObtainPlan.
    assert (Hfind : FindCachedPlan (at_cache_lookup clock) stripped w
                    = (Ok (Some cached), w)).
    { rewrite FindCachedPlan_eq, Hcached. unfold IsExpired. fold whole_seconds.
      apply Z.ltb_nlt in Hyoung. by rewrite Hyoung. }
    by rewrite (bind_ok _ _ _ _ _ Hfind).
Qed.

Lemma MakeSummary_keys frontend_time planning_time execution_time cost :
  dom (MakeSummary frontend_time planning_time execution_time cost)
  = ({["parsing_time"; "planning_time"; "plan_execution_time";
       "cost_estimate"; "type"]} : gset string).
Proof.
  unfold MakeSummary. rewrite !dom_insert_L, dom_empty_L. set_solver.
Qed.

(** C6.  When [Interpret] completes without error, the last thing it
    streamed is the one summary of the call; the summary has exactly the
    keys [parsing_time], [planning_time], [plan_execution_time],
    [cost_estimate] and [type], and [type] is the string "rw" whatever the
    plan is. *)
Theorem Interpret_streams_the_summary
    query params in_explicit_transaction clock w w' :
  Interpret query params in_explicit_transaction clock w = (Ok tt, w') ->
  exists calls summary,
    stream_ w' = stream_ w ++ calls ++ [Summary summary]
    /\ Forall (fun c => is_Summary c = false) calls
    /\ dom summary
       = ({["parsing_time"; "planning_time"; "plan_execution_time";
            "cost_estimate"; "type"]} : gset string)
    /\ summary !! "type" = Some (TString "rw").
Proof.
  intros Hrun.
  apply Interpret_inv in Hrun
    as [(e & _ & [=])|(cp & w1 & Hprep & [(e & _ & [=])|(w2 & Hexec & _ & ->)])].
  apply Prepare_outcome in Hprep as (Hstream1 & _).
  apply ExecutePlan_outcome in Hexec as (_ & _ & calls & Hstream2 & Hcalls).
  exists calls. eexists. split; [|split; [exact Hcalls|split]].
  - unfold finished.
    destruct (is_index_created_ (ctx_ w2)); cbn; rewrite Hstream2, Hstream1;
      by rewrite <- app_assoc.
  - apply MakeSummary_keys.
  - unfold MakeSummary. apply lookup_insert_eq.
Qed.

(** *** The frame *)




End Interpreter.

(** *** The sample queries *)

Import OperatorModel Scenarios.

Lemma CreateIndex_invalidates_the_plan_cache_witness :
  plan_cache_
    (Interpret (H := create_index_interpreter) "CREATE INDEX ON :L(p)" ∅ false
               clock (enter other_cache [] graph)).2 = ∅
  /\ plan_cache_
       (Interpret (H := match_only_interpreter) "MATCH (n)" ∅ false
                  clock (enter other_cache [] graph)).2 !! 5%N = Some old_plan.
Proof.
  split.
  - refine (proj1 (proj1 (CreateIndex_invalidates_the_plan_cache
                            (H := create_index_interpreter)
                            "CREATE INDEX ON :L(p)" ∅ false clock
                            (enter other_cache [] graph))
                     create_index_plan
                     (Prepare (H := create_index_interpreter)
                        "CREATE INDEX ON :L(p)" ∅ false clock
                        (enter other_cache [] graph)).2
                     0 0 _ _ _ _)).
    + vm_compute. reflexivity.
    + reflexivity.
    + vm_compute. reflexivity.
  - refine (proj2 (CreateIndex_invalidates_the_plan_cache
                     (H := match_only_interpreter) "MATCH (n)" ∅ false clock
                     (enter other_cache [] graph))
              (QueryRuntimeException "Unknown top level LogicalOperator") _ _
              5%N old_plan _ _).
    + vm_compute. reflexivity.
    + reflexivity.
    + left. vm_compute. discriminate.
Defined.

Lemma ExecutePlan_without_output_symbols_witness :
  Interpret (H := match_only_interpreter) "MATCH (n)" ∅ false clock
            (enter other_cache [] graph)
  = (Throw (QueryRuntimeException "Unknown top level LogicalOperator"),
     started (Prepare (H := match_only_interpreter) "MATCH (n)" ∅ false clock
                      (enter other_cache [] graph)).2)
  /\ (forall w',
        Interpret (H := create_index_interpreter) "CREATE INDEX ON :L(p)" ∅
                  false clock (enter other_cache [] graph) = (Ok tt, w') ->
        exists summary, stream_ w' = [] ++ [Header []; Summary summary])
  /\ (let out := Interpret (H := delete_interpreter) "MATCH (n) DELETE n" ∅
                           false clock (enter other_cache [] lonely_graph) in
      out.1 = Ok tt
      /\ db_accessor_ (ctx_ out.2) = mkGraph [] []
      /\ exists summary, stream_ out.2 = [Header []; Summary summary])
  /\ (let out := Interpret (H := delete_interpreter) "MATCH (n) DELETE n" ∅
                           false clock (enter other_cache [] graph) in
      out.1 = Throw (OtherException "vertex has edges")
      /\ db_accessor_ (ctx_ out.2) = mkGraph [1; 2] [mkEdgeRecord 0 1 2 0]
      /\ stream_ out.2 = [Header []]).
Proof.
  split; [|split; [|split]].
  - refine (proj1 (proj2 (proj2 (ExecutePlan_without_output_symbols
                                   (H := match_only_interpreter) "MATCH (n)" ∅
                                   false clock (enter other_cache [] graph)
                                   match_only_plan _ _ _)) _)).
    + vm_compute. reflexivity.
    + reflexivity.
    + reflexivity.
  - refine (proj1 (proj2 (proj2 (proj1 (proj2 (ExecutePlan_without_output_symbols
                                   (H := create_index_interpreter)
                                   "CREATE INDEX ON :L(p)" ∅
                                   false clock (enter other_cache [] graph)
                                   create_index_plan
                                   (Prepare (H := create_index_interpreter)
                                      "CREATE INDEX ON :L(p)" ∅ false clock
                                      (enter other_cache [] graph)).2 _ _)) _)))).
    + vm_compute. reflexivity.
    + reflexivity.
    + reflexivity.
  - destruct (proj2 (proj2 (proj2 (proj2 (proj1 (proj2
                (ExecutePlan_without_output_symbols
                   (H := delete_interpreter) "MATCH (n) DELETE n" ∅
                   false clock (enter other_cache [] lonely_graph)
                   delete_plan
                   (Prepare (H := delete_interpreter) "MATCH (n) DELETE n" ∅
                      false clock (enter other_cache [] lonely_graph)).2
                   eq_refl eq_refl)) eq_refl))))
                2 (Ok tt)
                (delete_first_vertex []
                   (ctx_ (Prepare (H := delete_interpreter) "MATCH (n) DELETE n"
                            ∅ false clock
                            (enter other_cache [] lonely_graph)).2)))
      as [_ Hrun].
    + eapply pulled_true; [reflexivity|].
      eapply pulled_true; [reflexivity|].
      by apply pulled_false.
    + cbv zeta. rewrite Hrun. split; [reflexivity|]. split; [reflexivity|].
      eexists. vm_compute. reflexivity.
  - destruct (proj2 (proj2 (proj2 (proj2 (proj1 (proj2
                (ExecutePlan_without_output_symbols
                   (H := delete_interpreter) "MATCH (n) DELETE n" ∅
                   false clock (enter other_cache [] graph)
                   delete_plan
                   (Prepare (H := delete_interpreter) "MATCH (n) DELETE n" ∅
                      false clock (enter other_cache [] graph)).2
                   eq_refl eq_refl)) eq_refl))))
                1 (Throw (OtherException "vertex has edges"))
                (delete_first_vertex [1; 2]
                   (ctx_ (Prepare (H := delete_interpreter) "MATCH (n) DELETE n"
                            ∅ false clock (enter other_cache [] graph)).2)))
      as [_ Hrun].
    + eapply pulled_true; [reflexivity|].
      by apply pulled_throw.
    + cbv zeta. rewrite Hrun. split; [reflexivity|]. split; reflexivity.
Defined.

Lemma Interpret_unprovided_parameter_witness :
  exists name w',
    Interpret (H := parameter_interpreter) "MATCH (n {id: $id})" ∅ false clock
              (enter other_cache [] graph)
    = (Throw (UnprovidedParameterError
                ("Parameter$ " +:+ name +:+ " not provided")), w')
    /\ (∅ : gmap string TypedValue) !! name = None
    /\ frontend_runs w' = 0
    /\ plans_executed w' = 0
    /\ stream_ w' = []
    /\ plan_cache_ w' = other_cache
    /\ db_accessor_ (ctx_ w') = graph.
Proof.
  apply (Interpret_unprovided_parameter (H := parameter_interpreter)
           "MATCH (n {id: $id})" ∅ false clock (enter other_cache [] graph)).
  exists 17%Z, "id". split; [|reflexivity].
  apply elem_of_cons. by left.
Defined.

Lemma expired_plan_is_compiled_again_witness :
  (FindCachedPlan (H := short_lived_interpreter) (at_cache_lookup expiry_clock)
     stripped_match_only (enter match_only_cache [] graph)
   = (Ok None, enter ∅ [] graph)
   /\ frontend_runs
        (ObtainPlan (H := short_lived_interpreter) expiry_clock
           stripped_match_only (enter match_only_cache [] graph)).2 = 1
   /\ cache_timer_ recompiled_plan = mkTimer (at_plan_created expiry_clock)
   /\ plan_cache_
        (ObtainPlan (H := short_lived_interpreter) expiry_clock
           stripped_match_only (enter match_only_cache [] graph)).2 !! 14%N
      = Some recompiled_plan)
  /\ ObtainPlan (H := match_only_interpreter) clock stripped_match_only
       (enter match_only_cache [] graph)
     = (Ok old_plan, enter match_only_cache [] graph)
  /\ duration_cast_seconds (Elapsed (at_cache_lookup late_clock)
                                    (cache_timer_ old_plan)) = 5%Z.
Proof.
  split; [|split].
  - destruct (proj1 (proj2 (expired_plan_is_compiled_again
                              (H := short_lived_interpreter) expiry_clock
                              stripped_match_only
                              (enter match_only_cache [] graph) old_plan eq_refl)))
      as (Hfind & _ & Hnew).
    { vm_compute. reflexivity. }
    split.
    { etransitivity; [exact Hfind|]. vm_compute. reflexivity. }
    apply (Hnew recompiled_plan). vm_compute. reflexivity.
  - refine (proj2 (proj2 (expired_plan_is_compiled_again
                            (H := match_only_interpreter) clock
                            stripped_match_only
                            (enter match_only_cache [] graph) old_plan _)) _).
    + reflexivity.
    + vm_compute. discriminate.
  - refine (proj1 (proj1 (expired_plan_is_compiled_again
                            (H := short_lived_interpreter) late_clock
                            stripped_match_only
                            (enter match_only_cache [] graph) old_plan eq_refl)
                     _)).
    vm_compute. split; [discriminate | reflexivity].
Defined.

(** C5 (as stated) fails: with a time to live of five seconds, an entry
    that is five and a half seconds old is older than that, and yet the
    lookup hands it out and leaves it in the cache. *)
Lemma plan_older_than_ttl_is_reused :
  (FLAGS_query_plan_cache_ttl (Collaborators := short_lived_interpreter)
     * nanoseconds_per_second
   < ticks_since (at_cache_lookup late_clock) (cache_timer_ old_plan))%Z
  /\ FindCachedPlan (H := short_lived_interpreter) (at_cache_lookup late_clock)
       stripped_match_only (enter match_only_cache [] graph)
     = (Ok (Some old_plan), enter match_only_cache [] graph)
  /\ ObtainPlan (H := short_lived_interpreter) late_clock stripped_match_only
       (enter match_only_cache [] graph)
     = (Ok old_plan, enter match_only_cache [] graph).
Proof.
  split; [vm_compute; reflexivity | split; vm_compute; reflexivity].
Qed.

(** Beyond 2^53 nanoseconds the count itself is rounded when it becomes a
    double: an entry one nanosecond short of ten million seconds old has, for
    [IsExpired], the age of ten million seconds. *)
Lemma long_ages_are_rounded :
  (ticks_since 0%Z (cache_timer_ aged_plan) < 10000000 * nanoseconds_per_second)%Z
  /\ duration_cast_seconds (Elapsed 0%Z (cache_timer_ aged_plan)) = 10000000%Z.
Proof. split; vm_compute; reflexivity. Qed.

Lemma Interpret_streams_the_summary_witness :
  exists calls summary,
    stream_ (Interpret (H := optional_match_interpreter) optional_match_query ∅
                       false clock (enter ∅ [] graph)).2
    = [] ++ calls ++ [Summary summary]
    /\ Forall (fun c => is_Summary c = false) calls
    /\ dom summary
       = ({["parsing_time"; "planning_time"; "plan_execution_time";
            "cost_estimate"; "type"]} : gset string)
    /\ summary !! "type" = Some (TString "rw").
Proof.
  apply (Interpret_streams_the_summary (H := optional_match_interpreter)
           optional_match_query ∅ false clock (enter ∅ [] graph)).
  vm_compute. reflexivity.
Defined.




End InterpreterFacts.

(** ** Operator cursors *)

Module OperatorFacts.
Import PlanModel InterpreterModel OperatorModel Scenarios.

Lemma UniquenessPasses_null current_sym previous_syms row :
  Frame_at row current_sym = TNull ->
  UniquenessPasses current_sym previous_syms row = true.
Proof. unfold UniquenessPasses. by intros ->. Qed.

(** C2.  [ExpandUniquenessFilter] never drops a row whose current edge
    symbol is null; on the graph made by [CREATE (), ()-[:Type]->()] the
    query [MATCH (n) OPTIONAL MATCH (n)-[r1]->(), (n)-[r2]->()
    RETURN n, r1, r2] yields exactly three rows, and [Interpret] streams
    exactly three results for it. *)
Theorem uniqueness_filter_keeps_null_edges :
  (forall (g : Graph) (input : LogicalOperator) (current_sym : Symbol)
          (previous_syms : list Symbol) (frame : Frame) (rows : list Frame)
          (row : Frame),
      PullAll g input frame = Some rows ->
      row ∈ rows ->
      Frame_at row current_sym = TNull ->
      exists out,
        PullAll g (ExpandUniquenessFilter_EdgeAccessor input current_sym
                                                       previous_syms)
                frame = Some out
        /\ row ∈ out)
  /\ length <$> PullAll graph optional_match_plan (Frame_new 8) = Some 3
  /\ (Interpret (H := optional_match_interpreter) optional_match_query ∅ false
                clock (enter ∅ [] graph)).1 = Ok tt
  /\ length (List.filter is_Result
               (stream_ (Interpret (H := optional_match_interpreter)
                                   optional_match_query ∅ false clock
                                   (enter ∅ [] graph)).2)) = 3.
Proof.
  split; [|split; [|split]].
  - intros g input current_sym previous_syms frame rows row Hrows Hrow Hnull.
    cbn [PullAll]. rewrite Hrows. cbn. eexists. split; [reflexivity|].
    apply list_elem_of_filter. split; [|done].
    by apply UniquenessPasses_null.
  - vm_compute. reflexivity.
  - vm_compute. reflexivity.
  - vm_compute. reflexivity.
Qed.

(** The row [Optional] makes for the vertex without edges has a null [r2];
    a filter on [r2] against [r1] lets it through. *)
Lemma uniqueness_filter_keeps_null_edges_witness :
  exists out,
    PullAll graph
      (ExpandUniquenessFilter_EdgeAccessor
         (Optional (ScanAll Once n)
                   (Expand (Expand Once (mkExpandCommon n r1 anon1 OUT []))
                           (mkExpandCommon n r2 anon2 OUT []))
                   [r1; anon1; r2; anon2])
         r2 [r1])
      (Frame_new 8) = Some out
    /\ [TVertex 0; TNull; TNull; TNull; TNull; TNull; TNull; TNull] ∈ out.
Proof.
  refine (proj1 uniqueness_filter_keeps_null_edges graph
            (Optional (ScanAll Once n)
               (Expand (Expand Once (mkExpandCommon n r1 anon1 OUT []))
                       (mkExpandCommon n r2 anon2 OUT []))
               [r1; anon1; r2; anon2])
            r2 [r1] (Frame_new 8) _
            [TVertex 0; TNull; TNull; TNull; TNull; TNull; TNull; TNull]
            _ _ _).
  - vm_compute. reflexivity.
  - apply elem_of_cons. by left.
  - reflexivity.
Defined.

End OperatorFacts.

(* ===================================================================== *)
(** * Part III: further properties of the code                            *)
(* ===================================================================== *)

(** ** The RPC client: wire format, buffer, failures *)

Module RpcMore.
Import RpcModel RpcFrames.

Section Client.
Context {Message Endpoint : Type}.
Variable sizeof_MessageSize : nat.
Variable serialize : option Message -> list byte.
Variable deserialize : list byte -> option Message.

#[local] Abbreviation header_size := (sizeof_uint32_t + sizeof_MessageSize).
#[local] Abbreviation read_response_data_size :=
  (read_response_data_size sizeof_MessageSize).
#[local] Abbreviation read_response_size := (read_response_size sizeof_MessageSize).
#[local] Abbreviation read_payload := (read_payload sizeof_MessageSize).
#[local] Abbreviation receive := (receive sizeof_MessageSize deserialize).
#[local] Abbreviation request_frame := (request_frame sizeof_MessageSize serialize).
#[local] Abbreviation MessageSize_max := (MessageSize_max sizeof_MessageSize).
#[local] Abbreviation Call := (Call sizeof_MessageSize serialize deserialize).
#[local] Abbreviation send_and_receive :=
  (send_and_receive sizeof_MessageSize serialize deserialize).
#[local] Abbreviation Client := (@Client Endpoint).
#[local] Abbreviation handshake := (@handshake Endpoint sizeof_MessageSize).
#[local] Abbreviation roomy := (roomy sizeof_MessageSize).

(** X1.  What [Call] writes for a request has the layout [Call] expects of a
    response: read back with the response parser, the written bytes give the
    request id, the size of the serialized request and the request itself. *)
Theorem request_frame_reads_back
    (request_id : N) (request : option Message) (rest : list byte) :
  (request_id < 2 ^ 32)%N ->
  (N.of_nat (length (serialize request)) <= MessageSize_max)%N ->
  read_response_id (request_frame request_id request ++ rest) = request_id
  /\ read_response_size (request_frame request_id request ++ rest)
     = length (request_frame request_id request)
  /\ read_payload (request_frame request_id request ++ rest) = serialize request.
Proof.
  intros Hid Hmax.
  assert (Hsize : (N.of_nat (length (serialize request))
                   < 2 ^ (8 * N.of_nat sizeof_MessageSize))%N).
  { unfold RpcModel.MessageSize_max in Hmax.
    assert (0 < 2 ^ (8 * N.of_nat sizeof_MessageSize))%N
      by (apply N.neq_0_lt_0, N.pow_nonzero; lia).
    lia. }
  set (bs := request_frame request_id request ++ rest).
  assert (Hheader :
            take header_size bs
            = encode_le sizeof_uint32_t request_id
                ++ encode_le sizeof_MessageSize
                     (N.of_nat (length (serialize request)))).
  { unfold bs, RpcModel.request_frame. rewrite !app_assoc, <- (app_assoc _ _ rest).
    apply take_app_length'. by rewrite length_app, !length_encode_le. }
  destruct (message_reads_back sizeof_MessageSize _ _ _ Hid Hsize Hheader)
    as [Hrid Hdata].
  split; [exact Hrid|]. split.
  - unfold RpcModel.read_response_size. rewrite Hdata.
    unfold RpcModel.request_frame. rewrite !length_app, !length_encode_le. lia.
  - unfold RpcModel.read_payload. rewrite Hdata.
    unfold bs, RpcModel.request_frame. rewrite <- !app_assoc.
    rewrite (app_assoc (encode_le _ _) (encode_le _ _)).
    rewrite drop_app_length' by (by rewrite length_app, !length_encode_le).
    by apply take_app_length.
Qed.

#[local] Abbreviation response_frame := (response_frame sizeof_MessageSize).

(** *** The buffer always has room *)

Lemma roomy_Clear b : roomy b -> roomy (Clear b).
Proof.
  unfold RpcModel.roomy, size, Clear, sizeof_uint32_t; cbn. lia.
Qed.

Lemma roomy_Allocate b : roomy b -> 0 < Allocate b.
Proof. unfold RpcModel.roomy, Allocate, size. lia. Qed.

Lemma receive_roomy reads :
  forall request_id s inc buffer taken,
    roomy buffer ->
    roomy (call_buffer (receive request_id s reads inc buffer taken)).
Proof.
  induction reads as [|ready reads IH]; intros request_id s inc buffer taken Hroom;
    [done|].
  cbn [RpcModel.receive].
  set (got := take (ready `min` Allocate buffer) inc).
  set (inc' := drop (ready `min` Allocate buffer) inc).
  destruct (length got =? 0)%nat; [done|].
  set (b1 := Written got buffer).
  assert (Hgot : length got <= Allocate buffer).
  { unfold got. rewrite length_take. lia. }
  assert (Hb1 : size b1 <= N.to_nat (capacity b1)
                /\ capacity b1 = capacity buffer).
  { unfold b1, Written, size, Allocate in *; cbn [content capacity].
    rewrite length_app. destruct Hroom as [_ Hfree]. unfold size in Hfree. lia. }
  destruct Hroom as [Hheader Hfree], Hb1 as [Hb1 Hcap1].
  destruct (size b1 <? header_size)%nat eqn:Hshort.
  { apply Nat.ltb_lt in Hshort. apply IH. split; rewrite ?Hcap1; lia. }
  unfold data. rewrite !content_Resize_more.
  set (rs := read_response_size (content b1)).
  assert (Hrs : 0 < rs).
  { unfold rs, RpcModel.read_response_size, sizeof_uint32_t. lia. }
  destruct (capacity_Resize rs b1) as [Hfits Hgrows].
  destruct (size (Resize rs b1) <? rs)%nat eqn:Hpart.
  { apply Nat.ltb_lt in Hpart. apply IH. split; [rewrite Hcap1 in Hgrows; lia|].
    lia. }
  apply Nat.ltb_ge in Hpart.
  assert (Hshifted : roomy (Shift rs (Resize rs b1))).
  { unfold RpcModel.roomy, size, Shift in *; cbn [content capacity].
    rewrite content_Resize_more in *. rewrite length_drop.
    rewrite Hcap1 in Hgrows. lia. }
  destruct (negb _); [by apply IH | exact Hshifted].
Qed.

Lemma send_and_receive_roomy request_id request s buffer :
  roomy buffer ->
  roomy (call_buffer (send_and_receive request_id request s buffer)).
Proof.
  intros Hroom. unfold RpcModel.send_and_receive.
  destruct (Write _ s) as [[] s1]; cbn [negb]; [|done].
  destruct (negb _); [done|].
  destruct (Write _ s1) as [[] s2]; cbn [negb]; [|done].
  destruct (Write _ s2) as [[] s3]; cbn [negb]; [|done].
  by apply receive_roomy.
Qed.

(** X3.  [Call] never fills the buffer: the new buffer has room, and a buffer
    with room has it again after every [Call], whatever the peer sends.  So
    the region each [Read] is given is never empty, and a [Read] that brings
    nothing means that the socket had nothing, not that the buffer was
    full. *)
Theorem Call_keeps_room_in_the_buffer
    (fresh_socket : option Socket) (request : option Message) (c : Client) :
  (header_size <= N.to_nat kBufferInitialSize -> roomy Buffer_new)
  /\ (roomy (buffer_ c) ->
      roomy (buffer_ (Call fresh_socket request c).2)
      /\ 0 < Allocate (buffer_ (Call fresh_socket request c).2)).
Proof.
  split.
  { intros Hheader. split; [exact Hheader|].
    unfold size, Buffer_new, kBufferInitialSize; cbn [content capacity length].
    lia. }
  intros Hroom.
  assert (Hgoal : roomy (buffer_ (Call fresh_socket request c).2)).
  { unfold RpcModel.Call.
    destruct (match socket_ c with
              | Some s => if ErrorStatus s then None else Some s
              | None => None
              end) as [s|]; cbn [snd buffer_].
    - by apply send_and_receive_roomy.
    - destruct fresh_socket as [s|]; [|by apply roomy_Clear].
      destruct (Write _ s) as [[] s1]; cbn [negb snd buffer_ call_buffer];
        [|by apply roomy_Clear].
      destruct (Write _ s1) as [[] s2]; cbn [negb snd buffer_ call_buffer];
        [|by apply roomy_Clear].
      apply send_and_receive_roomy. by apply roomy_Clear. }
  split; [exact Hgoal | by apply roomy_Allocate].
Qed.

(** *** What a call leaves behind *)

Lemma receive_socket reads :
  forall request_id s inc buffer taken,
    match call_socket (receive request_id s reads inc buffer taken) with
    | None => call_result (receive request_id s reads inc buffer taken)
              = Returned None
    | Some s' =>
        sent s' = sent s
        /\ exists response,
             call_result (receive request_id s reads inc buffer taken)
             = Returned response
    end.
Proof.
  induction reads as [|ready reads IH]; intros request_id s inc buffer taken;
    [done|].
  cbn [RpcModel.receive].
  destruct (length _ =? 0)%nat; [done|].
  destruct (size _ <? _)%nat; [apply IH|].
  destruct (size _ <? _)%nat; [apply IH|].
  destruct (negb _); [apply IH|].
  cbn. eauto.
Qed.

Lemma send_and_receive_socket request_id request s buffer :
  match call_socket (send_and_receive request_id request s buffer) with
  | None => call_result (send_and_receive request_id request s buffer)
            = Returned None
  | Some s' =>
      (call_result (send_and_receive request_id request s buffer) = CheckFailed
       /\ sent s' = sent s ++ encode_le sizeof_uint32_t request_id)
      \/ (sent s' = sent s ++ request_frame request_id request
          /\ exists response,
               call_result (send_and_receive request_id request s buffer)
               = Returned response)
  end.
Proof.
  unfold RpcModel.send_and_receive, RpcModel.request_frame.
  destruct (Write _ s) as [[] s1] eqn:Hid; cbn [negb]; [|done].
  apply Write_true in Hid as (Hid & _).
  destruct (negb _); [cbn; by left|].
  destruct (Write _ s1) as [[] s2] eqn:Hsize; cbn [negb]; [|done].
  apply Write_true in Hsize as (Hsize & _).
  destruct (Write _ s2) as [[] s3] eqn:Hdata; cbn [negb]; [|done].
  apply Write_true in Hdata as (Hdata & _ & Hinc & Hreads).
  pose proof (receive_socket (read_sizes s3) request_id s3 (incoming s3) buffer [])
    as Hloop.
  destruct (call_socket _) as [s'|]; [|done].
  right. destruct Hloop as [Hsent Hresponse]. split; [|done].
  rewrite Hsent, Hdata, Hsize, Hid. by rewrite <- !app_assoc.
Qed.

(** X2.  A response to the current request is returned however the socket
    cuts it into pieces.  [Call] finds its connection alive and its three
    writes go through; the buffer is empty and can hold a header; the
    response is the next thing on the wire, and there are as many non-empty
    reads as the response has bytes (fewer are used when a read brings
    several bytes).  Then [Call] returns the deserialized data of the
    response and keeps the connection, on which the request was sent. *)
Theorem response_in_pieces_is_returned
    (fresh_socket : option Socket) (request : option Message) (c : Client)
    (s : Socket) (writes : list bool) (payload rest : list byte) :
  socket_ c = Some s ->
  ErrorStatus s = false ->
  write_results s = true :: true :: true :: writes ->
  (N.of_nat (length (serialize request)) <= MessageSize_max)%N ->
  (N.of_nat (length payload) <= MessageSize_max)%N ->
  incoming s = response_frame (next_request_id c) payload ++ rest ->
  Forall (fun ready => 0 < ready) (read_sizes s) ->
  length (response_frame (next_request_id c) payload) <= length (read_sizes s) ->
  content (buffer_ c) = [] ->
  header_size <= N.to_nat (capacity (buffer_ c)) ->
  (Call fresh_socket request c).1.1 = Returned (deserialize payload)
  /\ exists s',
       socket_ (Call fresh_socket request c).2 = Some s'
       /\ sent s' = sent s ++ request_frame (next_request_id c) request.
Proof.
  intros Hsocket Halive Hwrites Hmax Hsize%MessageSize_fits Hinc Hreads
         Henough Hempty Hcap.
  assert (Hid : (next_request_id c < 2 ^ 32)%N).
  { unfold RpcModel.next_request_id. apply N.mod_lt. lia. }
  unfold RpcModel.Call. fold (next_request_id c).
  rewrite Hsocket, Halive.
  rewrite (send_and_receive_sent sizeof_MessageSize serialize deserialize
             _ _ _ writes _ Hwrites Hmax).
  set (s1 := mkSocket _ _ _ _ _). cbn [fst snd socket_].
  destruct (receive_reassembles sizeof_MessageSize deserialize
              (next_request_id c) s1 payload rest (read_sizes s) Hid Hsize Hreads
              (incoming s) (buffer_ c) [])
    as (Hresult & Hsome & _); rewrite ?Hempty; cbn [length app]; try done.
  { rewrite length_response_frame. unfold sizeof_uint32_t. lia. }
  { unfold sizeof_uint32_t. lia. }
  split; [exact Hresult|].
  pose proof (receive_socket (read_sizes s) (next_request_id c) s1 (incoming s)
                (buffer_ c) []) as Hkept.
  destruct Hsome as [s' Hs']. rewrite Hs' in Hkept.
  exists s'. split; [done|]. by destruct Hkept as [-> _].
Qed.

(** X4.  Every [Call] takes the next message id (a [uint32_t], so after
    2^32 - 1 comes 0) and keeps the endpoint and the service name.  A call
    that ends without a socket returned [nullptr]: a response is only ever
    returned over a connection that is kept for the next call. *)
Theorem Call_without_socket_returned_nullptr
    (fresh_socket : option Socket) (request : option Message) (c : Client) :
  next_message_id_ (Call fresh_socket request c).2 = next_request_id c
  /\ endpoint_ (Call fresh_socket request c).2 = endpoint_ c
  /\ service_name_ (Call fresh_socket request c).2 = service_name_ c
  /\ (socket_ (Call fresh_socket request c).2 = None ->
      (Call fresh_socket request c).1.1 = Returned None).
Proof.
  unfold RpcModel.Call.
  destruct (match socket_ c with
            | Some s => if ErrorStatus s then None else Some s
            | None => None
            end) as [s|]; cbn [fst snd next_message_id_ endpoint_ service_name_
                                 socket_].
  - repeat split. intros Hnone.
    pose proof (send_and_receive_socket (next_request_id c) request s (buffer_ c))
      as Hsocket.
    unfold RpcModel.next_request_id in Hsocket. by rewrite Hnone in Hsocket.
  - destruct fresh_socket as [s|]; [|done].
    destruct (Write _ s) as [[] s1]; cbn [negb]; [|done].
    destruct (Write _ s1) as [[] s2]; cbn [negb]; [|done].
    cbn [fst snd next_message_id_ endpoint_ service_name_ socket_].
    repeat split. intros Hnone.
    pose proof (send_and_receive_socket (next_request_id c) request s2
                  (Clear (buffer_ c))) as Hsocket.
    unfold RpcModel.next_request_id in Hsocket. by rewrite Hnone in Hsocket.
Qed.

(** X5.  What a call that returns has put on the wire.  Over the connection
    it found alive it wrote the request frame and nothing else: id, size of
    the data, data.  When it had no connection, or found it broken, it wrote
    on the new connection the service name size and the service name, and
    then the request frame. *)
Theorem Call_writes_handshake_and_request
    (fresh_socket : option Socket) (request : option Message) (c c' : Client)
    (response : option Message) (taken : list Taken) (s' : Socket) :
  Call fresh_socket request c = (Returned response, taken, c') ->
  socket_ c' = Some s' ->
  match socket_ c with
  | Some s =>
      if ErrorStatus s
      then exists s0, fresh_socket = Some s0
             /\ sent s' = sent s0 ++ handshake c
                            ++ request_frame (next_request_id c) request
      else sent s' = sent s ++ request_frame (next_request_id c) request
  | None =>
      exists s0, fresh_socket = Some s0
        /\ sent s' = sent s0 ++ handshake c
                       ++ request_frame (next_request_id c) request
  end.
Proof.
  intros HCall Hsocket.
  assert (Hsend : forall s buffer,
             (call_result (send_and_receive (next_request_id c) request s buffer),
              call_taken (send_and_receive (next_request_id c) request s buffer),
              mkClient (endpoint_ c) (service_name_ c)
                (call_socket (send_and_receive (next_request_id c) request s buffer))
                (call_buffer (send_and_receive (next_request_id c) request s buffer))
                (next_request_id c))
             = (Returned response, taken, c') ->
             sent s' = sent s ++ request_frame (next_request_id c) request).
  { intros s buffer [= Hresult _ <-]. cbn in Hsocket.
    pose proof (send_and_receive_socket (next_request_id c) request s buffer) as H.
    rewrite Hsocket in H. destruct H as [[H _]|[H _]]; [congruence | done]. }
  assert (Hfresh :
            (let buffer := Clear (buffer_ c) in
             let failed :=
               (Returned None, @nil Taken,
                mkClient (endpoint_ c) (service_name_ c) None buffer
                         (next_request_id c)) in
             match fresh_socket with
             | None => failed
             | Some s =>
                 let '(ok, s) :=
                   Write (encode_le sizeof_MessageSize
                            (N.of_nat (length (service_name_ c)))) s in
                 if negb ok then failed else
                 let '(ok, s) := Write (service_name_ c) s in
                 if negb ok then failed else
                 (call_result (send_and_receive (next_request_id c) request s buffer),
                  call_taken (send_and_receive (next_request_id c) request s buffer),
                  mkClient (endpoint_ c) (service_name_ c)
                    (call_socket (send_and_receive (next_request_id c) request s buffer))
                    (call_buffer (send_and_receive (next_request_id c) request s buffer))
                    (next_request_id c))
             end) = (Returned response, taken, c') ->
            exists s0, fresh_socket = Some s0
              /\ sent s' = sent s0 ++ handshake c
                             ++ request_frame (next_request_id c) request).
  { cbv zeta. destruct fresh_socket as [s0|].
    2:{ intros [= _ _ <-]. done. }
    destruct (Write _ s0) as [[] s1] eqn:Hlen; cbn [negb].
    2:{ intros [= _ _ <-]. done. }
    destruct (Write _ s1) as [[] s2] eqn:Hname; cbn [negb].
    2:{ intros [= _ _ <-]. done. }
    intros Hrest%Hsend. exists s0. split; [done|].
    apply Write_true in Hlen as (Hlen & _), Hname as (Hname & _).
    rewrite Hrest, Hname, Hlen. unfold RpcModel.handshake.
    by rewrite <- !app_assoc. }
  unfold RpcModel.Call in HCall. fold (next_request_id c) in HCall.
  destruct (socket_ c) as [s|]; [|by apply Hfresh].
  destruct (ErrorStatus s); [by apply Hfresh | by eapply Hsend].
Qed.

(** X6.  The size check on the request runs after the request id went out:
    a request whose serialization does not fit [MessageSize] stops the
    process, on a connection that is alive and accepts the write, with the
    four bytes of the id sent and neither size nor data. *)
Theorem Call_oversized_request_fails_the_check
    (fresh_socket : option Socket) (request : option Message) (c : Client)
    (s : Socket) (rest : list bool) :
  socket_ c = Some s ->
  ErrorStatus s = false ->
  write_results s = true :: rest ->
  (MessageSize_max < N.of_nat (length (serialize request)))%N ->
  Call fresh_socket request c
  = (CheckFailed, [],
     mkClient (endpoint_ c) (service_name_ c)
       (Some (mkSocket (error_status s) rest
                (sent s ++ encode_le sizeof_uint32_t (next_request_id c))
                (incoming s) (read_sizes s)))
       (buffer_ c) (next_request_id c)).
Proof.
  intros Hsocket Halive Hwrite Hbig.
  unfold RpcModel.Call, RpcModel.send_and_receive, Write.
  rewrite Hsocket, Halive, Hwrite. cbn [negb write_results].
  apply N.leb_gt in Hbig. by rewrite Hbig.
Qed.

(** X7.  [Abort] forgets the socket and nothing else, and a second [Abort]
    changes nothing.  The [Call] after an [Abort] never uses the old
    connection: with the peer out of reach it returns [nullptr], with the
    buffer cleared and the message id taken. *)
Theorem Call_after_Abort_reconnects (request : option Message) (c : Client) :
  socket_ (Abort c) = None
  /\ buffer_ (Abort c) = buffer_ c
  /\ next_message_id_ (Abort c) = next_message_id_ c
  /\ Abort (Abort c) = Abort c
  /\ Call None request (Abort c)
     = (Returned None, [],
        mkClient (endpoint_ c) (service_name_ c) None (Clear (buffer_ c))
                 (next_request_id c))
  /\ forall fresh_socket,
       Call fresh_socket request (Abort c)
       = Call fresh_socket request
           (mkClient (endpoint_ c) (service_name_ c)
              (Some (mkSocket true [] [] [] [])) (buffer_ c)
              (next_message_id_ c)).
Proof.
  unfold RpcModel.Abort, RpcModel.Call, RpcModel.next_request_id.
  destruct c as [endpoint name [s|] buffer id]; cbn; done.
Qed.

End Client.

Lemma request_frame_reads_back_witness :
  RpcModel.read_response_id
    (RpcModel.request_frame 4 sample_serialize 2 (Some [x01]) ++ [x07]) = 2%N
  /\ RpcModel.read_response_size 4
       (RpcModel.request_frame 4 sample_serialize 2 (Some [x01]) ++ [x07]) = 9
  /\ RpcModel.read_payload 4
       (RpcModel.request_frame 4 sample_serialize 2 (Some [x01]) ++ [x07])
     = [x01].
Proof.
  apply (request_frame_reads_back 4 sample_serialize 2 (Some [x01]) [x07]).
  - reflexivity.
  - vm_compute. discriminate.
Defined.

Lemma response_in_pieces_is_returned_witness :
  (RpcModel.Call 4 sample_serialize sample_deserialize None (Some [x01])
     slow_client).1.1
  = Returned (Some [x62; x63])
  /\ exists s',
       socket_ (RpcModel.Call 4 sample_serialize sample_deserialize None
                  (Some [x01]) slow_client).2 = Some s'
       /\ sent s' = [] ++ RpcModel.request_frame 4 sample_serialize 2 (Some [x01]).
Proof.
  apply (response_in_pieces_is_returned 4 sample_serialize sample_deserialize
           None (Some [x01]) slow_client slow_socket [] [x62; x63] [x07]).
  - reflexivity.
  - reflexivity.
  - reflexivity.
  - vm_compute. discriminate.
  - vm_compute. discriminate.
  - reflexivity.
  - cbn. repeat constructor.
  - vm_compute. lia.
  - reflexivity.
  - unfold sizeof_uint32_t, slow_client, Buffer_new, kBufferInitialSize.
    cbn [buffer_ capacity]. lia.
Defined.

Lemma Call_keeps_room_in_the_buffer_witness :
  0 < Allocate
        (buffer_ (RpcModel.Call 4 sample_serialize sample_deserialize None
                    (Some [x01]) sample_client).2).
Proof.
  pose proof (Call_keeps_room_in_the_buffer (Endpoint := unit) 4 sample_serialize
                sample_deserialize None (Some [x01]) sample_client)
    as [Hnew Hkept].
  apply Hkept. apply Hnew.
  unfold sizeof_uint32_t, kBufferInitialSize. lia.
Defined.

Lemma Call_without_socket_returned_nullptr_witness :
  (RpcModel.Call 4 sample_serialize sample_deserialize None (Some [x01])
     disconnected_client).1.1 = Returned None.
Proof.
  apply (Call_without_socket_returned_nullptr (Endpoint := unit) 4
           sample_serialize sample_deserialize None (Some [x01])
           disconnected_client).
  reflexivity.
Defined.

Lemma Call_writes_handshake_and_request_witness :
  encode_le 4 2 ++ encode_le 4 1 ++ [x01]
  = sent sample_socket ++ RpcModel.request_frame 4 sample_serialize 2 (Some [x01]).
Proof.
  apply (Call_writes_handshake_and_request (Endpoint := unit) 4 sample_serialize
           sample_deserialize None (Some [x01]) sample_client
           (mkClient tt [x72; x70; x63]
              (Some (mkSocket false []
                       (encode_le 4 2 ++ encode_le 4 1 ++ [x01]) [] []))
              Buffer_new 2)
           (Some [x62; x63])
           [mkTaken 1 9 (on_wire 1 [x61]) [];
            mkTaken 2 10 (on_wire 2 [x62; x63]) []]
           (mkSocket false [] (encode_le 4 2 ++ encode_le 4 1 ++ [x01]) [] [])).
  - vm_compute. reflexivity.
  - reflexivity.
Defined.

Lemma Call_oversized_request_fails_the_check_witness :
  RpcModel.Call 1 sample_serialize sample_deserialize None oversized_request
    sample_client
  = (CheckFailed, [],
     mkClient tt [x72; x70; x63]
       (Some (mkSocket false [true; true] [x02; x00; x00; x00]
                (incoming sample_socket) (read_sizes sample_socket)))
       Buffer_new 2).
Proof.
  apply (Call_oversized_request_fails_the_check (Endpoint := unit) 1
           sample_serialize sample_deserialize None oversized_request
           sample_client sample_socket [true; true]).
  - reflexivity.
  - reflexivity.
  - reflexivity.
  - vm_compute. reflexivity.
Defined.

End RpcMore.

(** ** The interpreter *)

Module InterpreterMore.
Import PlanModel InterpreterModel DoubleFacts InterpreterFacts.

Section Interpreter.
Context {Db AstTreeStorage : Type} `{!@Collaborators Db AstTreeStorage}.

#[local] Abbreviation World := (@World Db AstTreeStorage).
#[local] Abbreviation CachedPlan := (@CachedPlan AstTreeStorage).

Implicit Types (w : World).

(** *** What a call streams *)




(** *** What a call does to the plan cache *)

Lemma FindCachedPlan_cases now stripped w r w' :
  FindCachedPlan now stripped w = (r, w') ->
  (exists cached,
      plan_cache_ w !! hash stripped = Some cached
      /\ IsExpired now cached = false /\ r = Ok (Some cached) /\ w' = w)
  \/ (r = Ok None
      /\ (forall cached,
            plan_cache_ w !! hash stripped = Some cached ->
            IsExpired now cached = true)
      /\ plan_cache_ w' = delete (hash stripped) (plan_cache_ w)
      /\ stream_ w' = stream_ w /\ ctx_ w' = ctx_ w
      /\ frontend_runs w' = frontend_runs w
      /\ plans_executed w' = plans_executed w).
Proof.
  rewrite FindCachedPlan_eq.
  destruct (plan_cache_ w !! hash stripped) as [cached|] eqn:Hlookup.
  - destruct (IsExpired now cached) eqn:Hexp; intros [= <- <-].
    + right. repeat split; try done. by intros c [= <-].
    + left. eauto.
  - intros [= <- <-]. right. repeat split; try done.
    symmetry. by apply delete_id.
Qed.

Lemma CompilePlan_entries clock stripped w r w' :
  CompilePlan clock stripped w = (r, w') ->
  plan_cache_ w !! hash stripped = None ->
  forall h cached,
    plan_cache_ w' !! h = Some cached ->
    plan_cache_ w !! h = Some cached
    \/ (FLAGS_query_plan_cache = true /\ h = hash stripped /\ r = Ok cached
        /\ cache_timer_ cached = mkTimer (at_plan_created clock)).
Proof.
  unfold CompilePlan, bind, modify, get, lift, ret. cbn.
  destruct (QueryToAst stripped (ctx_ w)) as [[ast ctx]|e]; cbn;
    [|intros [= <- <-]; by left].
  destruct (SymbolGenerator ast (symbol_table_ ctx)) as [st|e]; cbn;
    [|intros [= <- <-]; by left].
  destruct (MakeLogicalPlan ast (set_symbol_table st ctx))
    as [[[[plan cost] ast'] ctx']|e]; cbn;
    [|intros [= <- <-]; by left].
  destruct FLAGS_query_plan_cache; cbn.
  - unfold ConcurrentMap_insert. intros Hrun Hnone. rewrite Hnone in Hrun.
    injection Hrun as <- <-. cbn. intros h cached Hh.
    destruct (decide (h = hash stripped)) as [->|Hne].
    + rewrite lookup_insert_eq in Hh. injection Hh as <-. right. by repeat split.
    + rewrite lookup_insert_ne in Hh by done. by left.
  - intros [= <- <-] _ h cached Hh. by left.
Qed.

(** How [Prepare] ends: a parameter is missing; or the cache has the plan;
    or the plan is compiled, after the expired entry, if any, was
    removed. *)
Lemma Prepare_inv query params in_explicit_transaction clock w r w' :
  Prepare query params in_explicit_transaction clock w = (r, w') ->
  (untouched w w' /\ exists e, r = Throw e)
  \/ (exists cached,
        plan_cache_ w !! hash (Strip query) = Some cached
        /\ IsExpired (at_cache_lookup clock) cached = false
        /\ r = Ok cached /\ untouched w w')
  \/ (exists w0 r0 w1,
        (forall cached,
            plan_cache_ w !! hash (Strip query) = Some cached ->
            IsExpired (at_cache_lookup clock) cached = true)
        /\ plan_cache_ w0 = delete (hash (Strip query)) (plan_cache_ w)
        /\ stream_ w0 = stream_ w
        /\ frontend_runs w0 = frontend_runs w
        /\ plans_executed w0 = plans_executed w
        /\ CompilePlan clock (Strip query) w0 = (r0, w1)
        /\ plan_cache_ w' = plan_cache_ w1
        /\ frontend_runs w' = frontend_runs w1
        /\ match r0 with Ok cached => r = Ok cached | Throw e => r = Throw e end).
Proof.
  unfold Prepare. intros Hrun.
  apply bind_inv in Hrun as [(e & [=] & _)|([] & w1 & [= <-] & Hrun)].
  apply bind_inv in Hrun as [(e & [=] & _)|([] & w2 & [= <-] & Hrun)].
  apply bind_inv in Hrun as [(e & Hadd & ->)|([] & w3 & Hadd & Hrun)].
  { apply AddParameters_outcome in Hadd as [Hsame _]. left. split; [|eauto].
    eapply untouched_trans; [|exact Hsame]. by repeat split. }
  apply AddParameters_outcome in Hadd as [Hsame _].
  assert (Hw3 : untouched w w3).
  { eapply untouched_trans; [|exact Hsame]. by repeat split. }
  clear Hsame. unfold ObtainPlan in Hrun.
  apply bind_inv in Hrun as [(e & Hplan & ->)|(cached_plan & w4 & Hplan & Hrun)].
  - apply bind_inv in Hplan as [(e' & Hfind & _)|(found & w5 & Hfind & Hplan)].
    { apply FindCachedPlan_cases in Hfind
        as [(c & _ & _ & [=] & _)|([=] & _)]. }
    apply FindCachedPlan_cases in Hfind
      as [(c & Hc & Hfresh & [= ->] & ->)
         |([= ->] & Hold & Hcache & Hs & Hctx & Hf & Hp)].
    { discriminate. }
    right. right. destruct Hw3 as (Hc3 & Hs3 & Hf3 & Hp3 & _).
    exists w5, (Throw e), w'. rewrite Hc3 in Hold, Hcache.
    split; [exact Hold|]. repeat split; try congruence.
  - apply bind_inv in Hplan as [(e' & Hfind & [=])|(found & w5 & Hfind & Hplan)].
    injection Hrun as <- <-.
    apply FindCachedPlan_cases in Hfind
      as [(c & Hc & Hfresh & [= ->] & ->)
         |([= ->] & Hold & Hcache & Hs & Hctx & Hf & Hp)].
    + injection Hplan as <- <-. right. left. exists c.
      destruct Hw3 as (Hc3 & Hs3 & Hf3 & Hp3 & Hdb3).
      split; [congruence|]. split; [done|]. split; [done|].
      by repeat split.
    + right. right. destruct Hw3 as (Hc3 & Hs3 & Hf3 & Hp3 & _).
      exists w5, (Ok cached_plan), w4. rewrite Hc3 in Hold, Hcache.
      split; [exact Hold|]. repeat split; try congruence.
Qed.

(** X9.  [Interpret] never changes an entry of the plan cache and adds at
    most one: whatever is in the cache afterwards was there before, or is
    the plan this call compiled for its own query, stored under the query's
    hash, and then plan caching is switched on. *)
Theorem Interpret_adds_only_its_own_plan
    query params in_explicit_transaction clock w r w' h cached :
  Interpret query params in_explicit_transaction clock w = (r, w') ->
  plan_cache_ w' !! h = Some cached ->
  plan_cache_ w !! h = Some cached
  \/ (FLAGS_query_plan_cache = true
      /\ h = hash (Strip query)
      /\ cache_timer_ cached = mkTimer (at_plan_created clock)
      /\ frontend_runs w' = S (frontend_runs w)).
Proof.
  intros Hrun Hentry.
  assert (Hprepared : forall rp w1,
             Prepare query params in_explicit_transaction clock w = (rp, w1) ->
             plan_cache_ w1 !! h = Some cached ->
             plan_cache_ w !! h = Some cached
             \/ (FLAGS_query_plan_cache = true
                 /\ h = hash (Strip query)
                 /\ cache_timer_ cached = mkTimer (at_plan_created clock)
                 /\ frontend_runs w1 = S (frontend_runs w))).
  { intros rp w1 Hprep Hh.
    apply Prepare_inv in Hprep
      as [[(Hc & _) _]
         |[(c & _ & _ & _ & Hc & _)
          |(w0 & r0 & w2 & _ & Hc0 & _ & Hf0 & _ & Hcompile & Hc1 & Hf1 & _)]].
    - left. congruence.
    - left. congruence.
    - rewrite Hc1 in Hh.
      pose proof (CompilePlan_outcome _ _ _ _ _ Hcompile) as (_ & Hruns & _).
      assert (Hnone : plan_cache_ w0 !! hash (Strip query) = None).
      { rewrite Hc0. apply lookup_delete_eq. }
      destruct (CompilePlan_entries _ _ _ _ _ Hcompile Hnone h cached Hh)
        as [Hold|(Hon & -> & _ & Htimer)].
      + left. rewrite Hc0 in Hold.
        apply lookup_delete_Some in Hold as [_ Hold]. exact Hold.
      + right. repeat split; try done. congruence. }
  apply Interpret_inv in Hrun
    as [(e & Hprep & ->)
       |(cp & w1 & Hprep & [(e & Hexec & ->)|(w2 & Hexec & -> & ->)])].
  - eapply Hprepared; eauto.
  - apply ExecutePlan_outcome in Hexec as (Hcache & Hruns & _).
    rewrite Hcache in Hentry. rewrite Hruns. eapply Hprepared; eauto.
  - apply ExecutePlan_outcome in Hexec as (Hcache & Hruns & _).
    unfold finished in Hentry |- *.
    destruct (is_index_created_ (ctx_ w2)); cbn in Hentry |- *.
    + rewrite InvalidateCache_empty, lookup_empty in Hentry. discriminate.
    + rewrite Hcache in Hentry. rewrite Hruns. eapply Hprepared; eauto.
Qed.

Lemma frontend_runs_finished clock (cached_plan : CachedPlan) w :
  frontend_runs (finished clock cached_plan w) = frontend_runs w.
Proof. unfold finished. by destruct (is_index_created_ (ctx_ w)). Qed.

Lemma Prepare_plan_is_cached
    query params in_explicit_transaction clock w cached_plan w1 :
  Prepare query params in_explicit_transaction clock w = (Ok cached_plan, w1) ->
  FLAGS_query_plan_cache = true ->
  plan_cache_ w1 !! hash (Strip query) = Some cached_plan.
Proof.
  intros Hprep Hon.
  apply Prepare_inv in Hprep
    as [[_ [e [=]]]
       |[(c & Hc & _ & [= <-] & Hsame & _)
        |(w0 & r0 & w2 & _ & Hc0 & _ & _ & _ & Hcompile & Hc1 & _ & Hr)]].
  - congruence.
  - destruct r0 as [c|e]; [|discriminate]. injection Hr as <-.
    apply CompilePlan_outcome in Hcompile as (_ & _ & _ & _ & Hnew).
    destruct (Hnew _ eq_refl) as [_ Hlookup].
    { rewrite Hc0. apply lookup_delete_eq. }
    rewrite Hon in Hlookup. congruence.
Qed.

Lemma Prepare_hit query params in_explicit_transaction clock w cached r w1 :
  plan_cache_ w !! hash (Strip query) = Some cached ->
  IsExpired (at_cache_lookup clock) cached = false ->
  Prepare query params in_explicit_transaction clock w = (r, w1) ->
  untouched w w1 /\ (r = Ok cached \/ exists e, r = Throw e).
Proof.
  intros Hcached Hfresh Hprep.
  apply Prepare_inv in Hprep
    as [[Hsame Hr]
       |[(c & Hc & _ & -> & Hsame)
        |(w0 & r0 & w2 & Hold & _)]].
  - split; [done | by right].
  - split; [done|]. left. congruence.
  - apply Hold in Hcached. congruence.
Qed.

(** X10.  With plan caching on, the plan a completed call ran is the entry
    of the cache under the hash of its query, unless the call created an
    index.  As long as that entry has not expired, a call for a query with
    the same hash (the text of the query is not compared) compiles nothing
    and runs that plan. *)
Theorem Interpret_reuses_the_cached_plan
    query params in_explicit_transaction clock w w' :
  Interpret query params in_explicit_transaction clock w = (Ok tt, w') ->
  FLAGS_query_plan_cache = true ->
  is_index_created_ (ctx_ w') = false ->
  exists cached_plan w1,
    Prepare query params in_explicit_transaction clock w = (Ok cached_plan, w1)
    /\ plan_cache_ w' !! hash (Strip query) = Some cached_plan
    /\ forall query2 params2 in_explicit_transaction2 clock2,
         hash (Strip query2) = hash (Strip query) ->
         IsExpired (at_cache_lookup clock2) cached_plan = false ->
         (forall r2 w2,
             Prepare query2 params2 in_explicit_transaction2 clock2 w' = (r2, w2) ->
             r2 = Ok cached_plan \/ exists e, r2 = Throw e)
         /\ (forall r2 w2,
                Interpret query2 params2 in_explicit_transaction2 clock2 w'
                = (r2, w2) ->
                frontend_runs w2 = frontend_runs w').
Proof.
  intros Hrun Hon Hindex.
  apply Interpret_inv in Hrun
    as [(e & _ & [=])|(cp & w1 & Hprep & [(e & _ & [=])|(w2 & Hexec & _ & ->)])].
  exists cp, w1. split; [done|].
  assert (Hentry : plan_cache_ (finished clock cp w2) !! hash (Strip query)
                   = Some cp).
  { apply ExecutePlan_outcome in Hexec as (Hcache & _).
    assert (Hflag : is_index_created_ (ctx_ w2) = false).
    { unfold finished in Hindex.
      destruct (is_index_created_ (ctx_ w2)) eqn:Hflag; cbn in Hindex;
        congruence. }
    unfold finished. rewrite Hflag. cbn. rewrite Hcache.
    by eapply Prepare_plan_is_cached. }
  split; [exact Hentry|].
  intros query2 params2 tx2 clock2 Hhash Hfresh.
  rewrite <- Hhash in Hentry.
  split.
  - intros r2 w3 Hprep2.
    by destruct (Prepare_hit _ _ _ _ _ _ _ _ Hentry Hfresh Hprep2) as [_ Hr].
  - intros r2 w3 Hrun2.
    apply Interpret_inv in Hrun2
      as [(e & Hprep2 & ->)
         |(cp2 & w4 & Hprep2 & [(e & Hexec2 & ->)|(w5 & Hexec2 & -> & ->)])].
    + destruct (Prepare_hit _ _ _ _ _ _ _ _ Hentry Hfresh Hprep2)
        as [(_ & _ & Hruns & _) _]. exact Hruns.
    + destruct (Prepare_hit _ _ _ _ _ _ _ _ Hentry Hfresh Hprep2)
        as [(_ & _ & Hruns & _) _].
      apply ExecutePlan_outcome in Hexec2 as (_ & Hruns2 & _). congruence.
    + destruct (Prepare_hit _ _ _ _ _ _ _ _ Hentry Hfresh Hprep2)
        as [(_ & _ & Hruns & _) _].
      apply ExecutePlan_outcome in Hexec2 as (_ & Hruns2 & _).
      rewrite (frontend_runs_finished clock2 cp2 w5). congruence.
Qed.

(** *** Expiry *)

(** X11.  Expiry only depends on how long ago the plan was made, and grows
    with it: a plan that has expired stays expired at every later reading
    of the clock, and, with a time to live that is not negative, a plan has
    not expired at the moment it is made.  With a negative time to live
    every plan has expired from the start, so every lookup misses. *)
Theorem IsExpired_grows_with_time (cached : CachedPlan) :
  (forall now later,
      (now <= later)%Z ->
      IsExpired now cached = true -> IsExpired later cached = true)
  /\ ((0 <= FLAGS_query_plan_cache_ttl)%Z ->
      IsExpired (start_time_ (cache_timer_ cached)) cached = false)
  /\ ((FLAGS_query_plan_cache_ttl < 0)%Z ->
      forall now stripped w,
        (forall h entry,
            plan_cache_ w !! h = Some entry ->
            (start_time_ (cache_timer_ entry) <= now)%Z) ->
        (FindCachedPlan now stripped w).1 = Ok None).
Proof.
  unfold IsExpired. split; [|split].
  - intros now later Hlater Hexpired. apply Z.ltb_lt in Hexpired. apply Z.ltb_lt.
    eapply Z.lt_le_trans; [exact Hexpired|].
    by apply whole_seconds_mono.
  - intros Httl. apply Z.ltb_ge.
    rewrite whole_seconds_exact; unfold ticks_since; rewrite Z.sub_diag;
      [exact Httl | lia].
  - intros Httl now stripped w Hmade. rewrite FindCachedPlan_eq.
    destruct (plan_cache_ w !! hash stripped) as [entry|] eqn:Hentry; [|done].
    apply Hmade in Hentry.
    assert (Hexpired : IsExpired now entry = true).
    { unfold IsExpired. apply Z.ltb_lt.
      pose proof (whole_seconds_mono _ _ (cache_timer_ entry) Hentry) as Hmono.
      rewrite (whole_seconds_exact (start_time_ (cache_timer_ entry))) in Hmono
        by (unfold ticks_since; rewrite Z.sub_diag; lia).
      unfold ticks_since in Hmono. rewrite Z.sub_diag in Hmono.
      change (0 / nanoseconds_per_second)%Z with 0%Z in Hmono. lia. }
    by rewrite Hexpired.
Qed.

End Interpreter.
Import OperatorModel Scenarios.


Lemma Interpret_adds_only_its_own_plan_witness :
  other_cache !! 14%N = Some match_only_plan
  \/ (FLAGS_query_plan_cache (Collaborators := match_only_interpreter) = true
      /\ 14%N = hash (Strip (Collaborators := match_only_interpreter) "MATCH (n)")
      /\ cache_timer_ match_only_plan = mkTimer (at_plan_created clock)
      /\ frontend_runs
           (Interpret (H := match_only_interpreter) "MATCH (n)" ∅ false clock
                      (enter other_cache [] graph)).2 = 1).
Proof.
  apply (Interpret_adds_only_its_own_plan (H := match_only_interpreter)
           "MATCH (n)" ∅ false clock (enter other_cache [] graph)
           (Throw (QueryRuntimeException "Unknown top level LogicalOperator"))
           (Interpret (H := match_only_interpreter) "MATCH (n)" ∅ false clock
                      (enter other_cache [] graph)).2
           14%N match_only_plan).
  - vm_compute. reflexivity.
  - vm_compute. reflexivity.
Defined.

Lemma Interpret_reuses_the_cached_plan_witness :
  exists cached_plan,
    plan_cache_ (Interpret (H := optional_match_interpreter) optional_match_query
                           ∅ false clock (enter ∅ [] graph)).2
      !! hash stripped_optional_match = Some cached_plan.
Proof.
  destruct (Interpret_reuses_the_cached_plan
              (H := optional_match_interpreter) optional_match_query ∅ false
              clock (enter ∅ [] graph)
              (Interpret (H := optional_match_interpreter) optional_match_query
                         ∅ false clock (enter ∅ [] graph)).2)
    as (cached_plan & _ & _ & Hentry & _).
  - vm_compute. reflexivity.
  - reflexivity.
  - vm_compute. reflexivity.
  - exists cached_plan. exact Hentry.
Defined.

Lemma IsExpired_grows_with_time_witness :
  IsExpired (H := short_lived_interpreter) 7000000000%Z old_plan = true
  /\ IsExpired (H := short_lived_interpreter) 0%Z old_plan = false
  /\ (FindCachedPlan (H := forgetful_interpreter) 1%Z stripped_match_only
        (enter match_only_cache [] graph)).1 = Ok None.
Proof.
  split; [|split].
  - apply (proj1 (IsExpired_grows_with_time (H := short_lived_interpreter)
                    old_plan) 6000000000%Z 7000000000%Z).
    + lia.
    + reflexivity.
  - apply (proj1 (proj2 (IsExpired_grows_with_time
                           (H := short_lived_interpreter) old_plan))).
    cbn. lia.
  - apply (proj2 (proj2 (IsExpired_grows_with_time
                           (H := forgetful_interpreter) old_plan))).
    + cbn. lia.
    + intros h entry Hentry. unfold match_only_cache in Hentry.
      cbn [enter plan_cache_] in Hentry.
      apply lookup_singleton_Some in Hentry as [_ <-]. cbn. lia.
Defined.

End InterpreterMore.

(** ** Edges *)

Module EdgeMore.
Import EdgeModel EdgeFacts.

Section Edge.
Context {VertexAddress EdgeType PropertyValueStore MvccRecord : Type}.
Variable MvccRecord_default : MvccRecord.

#[local] Abbreviation Edge := (@Edge VertexAddress EdgeType PropertyValueStore MvccRecord).
#[local] Abbreviation CloneData := (CloneData MvccRecord_default).
#[local] Abbreviation Edge_copy := (Edge_copy MvccRecord_default).

Lemma Edge_copy_again (self : Edge) : Edge_copy (Edge_copy self) = Edge_copy self.
Proof. reflexivity. Qed.

(** X12.  Cloning the same edge twice gives two objects at different
    addresses, both different from the source's, with the same contents;
    the source is as it was.  A clone differs from its source exactly when
    the source's [mvcc::Record] state is not the default-constructed one,
    and the clone of a clone is equal to the clone. *)
Theorem CloneData_twice_gives_two_equal_objects
    (h : gmap positive Edge) (this : positive) (self : Edge) :
  h !! this = Some self ->
  exists p1 h1 p2 h2,
    CloneData h this = Some (p1, h1)
    /\ CloneData h1 this = Some (p2, h2)
    /\ p1 <> this /\ p2 <> this /\ p1 <> p2
    /\ h2 !! this = Some self
    /\ h2 !! p1 = Some (Edge_copy self)
    /\ h2 !! p2 = Some (Edge_copy self)
    /\ (Edge_copy self = self <-> record_base self = MvccRecord_default)
    /\ exists p3 h3,
         CloneData h1 p1 = Some (p3, h3)
         /\ p3 <> p1
         /\ h3 !! p3 = h3 !! p1.
Proof.
  intros Hself.
  set (p1 := operator_new h).
  set (h1 := <[p1 := Edge_copy self]> h).
  set (p2 := operator_new h1).
  assert (Hp1 : h !! p1 = None) by apply operator_new_fresh.
  assert (Hp2 : h1 !! p2 = None) by apply operator_new_fresh.
  assert (Hne1 : p1 <> this) by congruence.
  assert (Hself1 : h1 !! this = Some self).
  { unfold h1. by rewrite lookup_insert_ne. }
  assert (Hclone1 : h1 !! p1 = Some (Edge_copy self)).
  { unfold h1. apply lookup_insert_eq. }
  assert (Hne2 : p2 <> this) by congruence.
  assert (Hne12 : p1 <> p2) by congruence.
  exists p1, h1, p2, (<[p2 := Edge_copy self]> h1).
  split. { unfold EdgeModel.CloneData. by rewrite Hself. }
  split. { unfold EdgeModel.CloneData. by rewrite Hself1. }
  split; [done|]. split; [done|]. split; [done|].
  split. { by rewrite lookup_insert_ne. }
  split. { by rewrite lookup_insert_ne. }
  split. { apply lookup_insert_eq. }
  split.
  { split.
    - intros Hsame. rewrite <- Hsame. reflexivity.
    - intros Hbase. destruct self. cbn in Hbase. subst. reflexivity. }
  exists p2, (<[p2 := Edge_copy (Edge_copy self)]> h1).
  split. { unfold EdgeModel.CloneData. by rewrite Hclone1. }
  split; [done|].
  rewrite lookup_insert_eq, lookup_insert_ne by done.
  by rewrite Hclone1, Edge_copy_again.
Qed.

End Edge.

Lemma CloneData_twice_gives_two_equal_objects_witness :
  exists p1 h1 p2 h2,
    CloneData 0 {[ 1%positive := sample_edge ]} 1%positive = Some (p1, h1)
    /\ CloneData 0 h1 1%positive = Some (p2, h2)
    /\ p1 <> 1%positive /\ p2 <> 1%positive /\ p1 <> p2
    /\ h2 !! 1%positive = Some sample_edge
    /\ h2 !! p1 = Some (Edge_copy 0 sample_edge)
    /\ h2 !! p2 = Some (Edge_copy 0 sample_edge)
    /\ (Edge_copy 0 sample_edge = sample_edge <-> record_base sample_edge = 0)
    /\ exists p3 h3,
         CloneData 0 h1 p1 = Some (p3, h3) /\ p3 <> p1 /\ h3 !! p3 = h3 !! p1.
Proof.
  apply (CloneData_twice_gives_two_equal_objects 0
           {[ 1%positive := sample_edge ]} 1%positive sample_edge).
  reflexivity.
Defined.

End EdgeMore.

(** ** The console *)

Module ConsoleFacts.
Import InterpreterModel ConsoleModel PrinterFacts.

Lemma length_append (s1 s2 : string) :
  String.length (s1 +:+ s2) = String.length s1 + String.length s2.
Proof.
  induction s1 as [|c s1 IH]; [done|].
  rewrite append_cons. cbn [String.length]. by rewrite IH.
Qed.

Lemma length_copies count ch : String.length (copies count ch) = count.
Proof. induction count as [|count IH]; cbn; [done | by rewrite IH]. Qed.

(** *** PrintIterable *)

Lemma PrintIterable_from_false {A} (iterable : list A) delim
    (converter : A -> string) :
  forall stream,
    PrintIterable_from false stream iterable delim converter
    = stream +:+ joined (map (fun item => delim +:+ converter item) iterable).
Proof.
  induction iterable as [|item rest IH]; intros stream; cbn.
  - by rewrite append_nil_r.
  - rewrite IH. by rewrite !append_assoc.
Qed.

Lemma concat_cons sep (text : string) (texts : list string) :
  String.concat sep (text :: texts)
  = text +:+ joined (map (fun t => sep +:+ t) texts).
Proof.
  revert text. induction texts as [|next texts IH]; intros text.
  - cbn. by rewrite append_nil_r.
  - change (String.concat sep (text :: next :: texts))
      with (text +:+ sep +:+ String.concat sep (next :: texts)).
    rewrite IH. cbn. by rewrite !append_assoc.
Qed.

Lemma utils_PrintIterable_joins {A} (iterable : list A) delim
    (streamer : A -> string) :
  forall out,
    PrinterModel.PrintIterable out iterable delim streamer
    = out +:+ String.concat delim (map streamer iterable).
Proof.
  induction iterable as [|item rest IH]; intros out.
  - cbn. by rewrite append_nil_r.
  - destruct rest as [|next rest].
    + reflexivity.
    + change (PrinterModel.PrintIterable out (item :: next :: rest) delim streamer)
        with (PrinterModel.PrintIterable (out +:+ streamer item +:+ delim)
                (next :: rest) delim streamer).
      rewrite IH.
      change (String.concat delim (map streamer (item :: next :: rest)))
        with (streamer item +:+ delim
                +:+ String.concat delim (map streamer (next :: rest))).
      by rewrite !append_assoc.
Qed.

Lemma PrintIterable_concat {A} (stream : string) (iterable : list A)
    (delim : string) (converter : A -> string) :
  PrintIterable stream iterable delim converter
  = stream +:+ String.concat delim (map converter iterable).
Proof.
  unfold PrintIterable. destruct iterable as [|item rest].
  - cbn. by rewrite append_nil_r.
  - cbn [PrintIterable_from map]. rewrite PrintIterable_from_false.
    rewrite concat_cons, map_map. by rewrite append_assoc.
Qed.

(** X13.  The console's [PrintIterable] writes the converted items with the
    delimiter between them: nothing for no item, and no delimiter before the
    first item or behind the last one.  It writes what [utils::PrintIterable]
    of the plan printer writes. *)
Theorem PrintIterable_joins_the_items {A} (stream : string) (iterable : list A)
    (delim : string) (converter : A -> string) :
  PrintIterable stream iterable delim converter
  = stream +:+ String.concat delim (map converter iterable)
  /\ PrintIterable stream iterable delim converter
     = PrinterModel.PrintIterable stream iterable delim converter.
Proof.
  split; [apply PrintIterable_concat|].
  by rewrite PrintIterable_concat, utils_PrintIterable_joins.
Qed.

(** *** PrintResults *)

Lemma int_of_small (z : Z) : (0 <= z < 2 ^ 31)%Z -> int_of z = z.
Proof. intros Hz. unfold int_of. rewrite Z.mod_small; lia. Qed.

Lemma size_t_of_small (z : Z) : (0 <= z < 2 ^ 64)%Z -> size_t_of z = z.
Proof. intros Hz. unfold size_t_of. by rewrite Z.mod_small. Qed.

Lemma joined_app (texts1 texts2 : list string) :
  joined (texts1 ++ texts2) = joined texts1 +:+ joined texts2.
Proof.
  induction texts1 as [|text texts1 IH]; [done|].
  cbn. unfold joined in IH. by rewrite IH, append_assoc.
Qed.

Lemma length_widen (column_widths : list Z) (texts : list string) :
  length texts = length column_widths ->
  length (widen column_widths texts) = length column_widths.
Proof.
  intros Hlen. unfold widen. rewrite length_zip_with_l_eq; [done|].
  by rewrite length_map.
Qed.

Lemma covers_length column_widths texts :
  covers column_widths texts -> length texts = length column_widths.
Proof. intros Hcovers. symmetry. by eapply Forall2_length. Qed.

Lemma covers_own_sizes (texts : list string) :
  Forall short texts ->
  covers (map (fun s => Z.of_nat (String.length s)) texts) texts.
Proof.
  unfold covers, short. induction 1 as [|text texts Htext _ IH]; cbn.
  - constructor.
  - constructor; [lia | exact IH].
Qed.

Lemma covers_widen_new (column_widths : list Z) :
  forall texts,
    length texts = length column_widths ->
    Forall (fun w => (w < 2 ^ 31)%Z) column_widths ->
    Forall short texts ->
    covers (widen column_widths texts) texts.
Proof.
  unfold covers, widen, short.
  induction column_widths as [|w column_widths IH];
    intros [|text texts] Hlen Hwidths Htexts; try discriminate; cbn.
  - constructor.
  - apply Forall_cons in Hwidths as [Hw Hwidths].
    apply Forall_cons in Htexts as [Htext Htexts].
    constructor; [lia|]. apply IH; [|done..]. by injection Hlen.
Qed.

Lemma covers_widen_old (column_widths : list Z) (old : list string) :
  covers column_widths old ->
  forall texts,
    length texts = length column_widths ->
    Forall short texts ->
    covers (widen column_widths texts) old.
Proof.
  unfold covers, widen, short.
  induction 1 as [|w text column_widths old Hw _ IH];
    intros [|new texts] Hlen Htexts; try discriminate; cbn.
  - constructor.
  - apply Forall_cons in Htexts as [Htext Htexts].
    constructor; [lia|]. apply IH; [|done]. by injection Hlen.
Qed.

Lemma widen_below (column_widths : list Z) :
  forall texts,
    Forall (fun w => (w < 2 ^ 31)%Z) column_widths ->
    Forall short texts ->
    Forall (fun w => (w < 2 ^ 31)%Z) (widen column_widths texts).
Proof.
  unfold widen, short.
  induction column_widths as [|w column_widths IH];
    intros [|text texts] Hwidths Htexts; cbn; try constructor.
  - apply Forall_cons in Hwidths as [Hw _].
    apply Forall_cons in Htexts as [Htext _]. lia.
  - apply Forall_cons in Hwidths as [_ Hwidths].
    apply Forall_cons in Htexts as [_ Htexts]. by apply IH.
Qed.

Lemma covers_foldl_old (rows : list (list string)) :
  forall column_widths old,
    covers column_widths old ->
    Forall (fun texts => length texts = length column_widths /\ Forall short texts)
           rows ->
    covers (foldl widen column_widths rows) old.
Proof.
  induction rows as [|texts rows IH]; intros column_widths old Hold Hrows; [done|].
  apply Forall_cons in Hrows as [[Hlen Hshort] Hrows]. cbn.
  apply IH; [by apply covers_widen_old|].
  eapply Forall_impl; [exact Hrows|]. intros t [Ht Hs].
  by rewrite length_widen.
Qed.

Lemma covers_foldl_rows (rows : list (list string)) :
  forall column_widths,
    Forall (fun w => (w < 2 ^ 31)%Z) column_widths ->
    Forall (fun texts => length texts = length column_widths /\ Forall short texts)
           rows ->
    Forall (covers (foldl widen column_widths rows)) rows.
Proof.
  induction rows as [|texts rows IH]; intros column_widths Hwidths Hrows;
    [constructor|].
  apply Forall_cons in Hrows as [[Hlen Hshort] Hrows]. cbn.
  assert (Hrest : Forall (fun t => length t = length (widen column_widths texts)
                                   /\ Forall short t) rows).
  { eapply Forall_impl; [exact Hrows|]. intros t [Ht Hs].
    by rewrite length_widen. }
  constructor.
  - apply covers_foldl_old; [|done]. by apply covers_widen_new.
  - apply IH; [|done]. by apply widen_below.
Qed.

Section Console.
Variable TypedValueToString : TypedValue -> string.
Variable string_max_size : Z.
Hypothesis string_max_size_large : (2 ^ 31 + 1 <= string_max_size)%Z.

#[local] Abbreviation convert_columns := (convert_columns TypedValueToString).
#[local] Abbreviation convert_rows := (convert_rows TypedValueToString).
#[local] Abbreviation cell_texts := (cell_texts TypedValueToString).
#[local] Abbreviation horizontal_cells := (horizontal_cells string_max_size).
#[local] Abbreviation emit_horizontal_line := (emit_horizontal_line string_max_size).
#[local] Abbreviation result_cells := (result_cells string_max_size).
#[local] Abbreviation emit_result_vec := (emit_result_vec string_max_size).
#[local] Abbreviation emit_result_vecs := (emit_result_vecs string_max_size).
#[local] Abbreviation PrintResults :=
  (PrintResults TypedValueToString string_max_size).

Lemma convert_columns_spec (post_w : list Z) :
  forall pre_w pre_s post_s pre_r post_r,
    length pre_s = length pre_w ->
    length pre_r = length pre_w ->
    length post_s = length post_w ->
    length post_w <= length post_r ->
    Forall short (cell_texts (length post_w) post_r) ->
    convert_columns (length post_w) (length pre_w) (pre_r ++ post_r)
                    (pre_w ++ post_w) (pre_s ++ post_s)
    = Done (pre_w ++ widen post_w (cell_texts (length post_w) post_r),
            pre_s ++ cell_texts (length post_w) post_r).
Proof.
  induction post_w as [|w post_w IH];
    intros pre_w pre_s post_s pre_r post_r Hs Hr Hpost Hrow Hshort.
  - destruct post_s; [|discriminate]. reflexivity.
  - destruct post_s as [|s post_s]; [discriminate|].
    destruct post_r as [|value post_r]; [cbn in Hrow; lia|].
    cbn [length ConsoleModel.convert_columns].
    rewrite <- Hr at 1. rewrite list_lookup_middle by done.
    rewrite list_lookup_middle by done. cbn [default from_option id].
    unfold ConsoleModel.cell_texts in Hshort. cbn in Hshort.
    apply Forall_cons in Hshort as [Hvalue Hshort].
    rewrite int_of_small by (unfold short in Hvalue; lia).
    rewrite (insert_app_r_alt pre_w) by lia.
    rewrite (insert_app_r_alt pre_s) by lia.
    rewrite Hs, !Nat.sub_diag. cbn [insert list_insert].
    rewrite (cons_middle _ pre_w), (cons_middle _ pre_s), (cons_middle _ pre_r).
    rewrite !app_assoc.
    replace (S (length pre_w)) with (length (pre_w ++ [Z.max w (Z.of_nat (String.length (TypedValueToString value)))]))
      by (rewrite length_app; cbn; lia).
    rewrite IH.
    + unfold ConsoleModel.cell_texts, widen. cbn. by rewrite <- !app_assoc.
    + rewrite !length_app. cbn. lia.
    + rewrite !length_app. cbn. lia.
    + by injection Hpost.
    + cbn in Hrow. lia.
    + exact Hshort.
Qed.

Lemma length_cell_texts columns row :
  columns <= length row -> length (cell_texts columns row) = columns.
Proof.
  intros Hrow. unfold ConsoleModel.cell_texts.
  rewrite length_map, length_take. lia.
Qed.

Lemma convert_rows_spec (results_data : list (list TypedValue)) :
  forall column_widths,
    Forall (fun row => length column_widths <= length row) results_data ->
    Forall (Forall short)
           (map (cell_texts (length column_widths)) results_data) ->
    convert_rows results_data column_widths
    = Done (foldl widen column_widths
                  (map (cell_texts (length column_widths)) results_data),
            map (cell_texts (length column_widths)) results_data).
Proof.
  induction results_data as [|row results_data IH];
    intros column_widths Hrows Hshort; [done|].
  apply Forall_cons in Hrows as [Hrow Hrows].
  cbn [map] in Hshort. apply Forall_cons in Hshort as [Hcells Hshort].
  cbn [ConsoleModel.convert_rows].
  pose proof (convert_columns_spec column_widths [] []
                (replicate (length column_widths) "") [] row
                eq_refl eq_refl (length_replicate _ _) Hrow Hcells) as Hcolumns.
  cbn [app length] in Hcolumns. rewrite Hcolumns. cbn [and_then].
  assert (Hlen : length (widen column_widths (cell_texts (length column_widths) row))
                 = length column_widths).
  { apply length_widen. by apply length_cell_texts. }
  rewrite IH; rewrite ?Hlen; [done | done | done].
Qed.

Lemma horizontal_cells_spec (column_widths : list Z) :
  Forall (fun w => (0 <= w < 2 ^ 31)%Z) column_widths ->
  forall out,
    horizontal_cells column_widths out
    = Done (out +:+ joined (map (fun w => copies (Z.to_nat w + 2) "-"%char +:+ "+")
                                column_widths)).
Proof.
  induction 1 as [|w column_widths Hw _ IH]; intros out.
  - cbn. by rewrite append_nil_r.
  - cbn [ConsoleModel.horizontal_cells].
    rewrite (size_t_of_small w) by lia.
    rewrite size_t_of_small by lia.
    unfold string_of_copies.
    replace (string_max_size <? w + 2)%Z with false by (symmetry; apply Z.ltb_ge; lia).
    cbn [and_then]. rewrite IH. cbn [map joined foldr].
    replace (Z.to_nat (w + 2)) with (Z.to_nat w + 2) by lia.
    by rewrite !append_assoc.
Qed.

Lemma emit_horizontal_line_spec (column_widths : list Z) out :
  Forall (fun w => (0 <= w < 2 ^ 31)%Z) column_widths ->
  emit_horizontal_line column_widths out
  = Done (out +:+ rule_line column_widths).
Proof.
  intros Hwidths. unfold ConsoleModel.emit_horizontal_line, rule_line.
  rewrite horizontal_cells_spec by done. cbn [and_then].
  by rewrite !append_assoc.
Qed.

Lemma result_cells_spec (post_w : list Z) :
  forall pre_w pre_t post_t out,
    length pre_t = length pre_w ->
    covers post_w post_t ->
    result_cells (length post_w) (length pre_w) (pre_w ++ post_w)
                 (pre_t ++ post_t) out
    = Done (out +:+ joined (zip_with
                              (fun w s =>
                                 s +:+ copies (Z.to_nat w - String.length s) " "%char
                                   +:+ " | ")
                              post_w post_t)).
Proof.
  induction post_w as [|w post_w IH]; intros pre_w pre_t post_t out Ht Hcovers.
  - cbn. by rewrite append_nil_r.
  - apply Forall2_cons_inv_l in Hcovers as (text & post_t' & Hw & Hcovers & ->).
    cbn [length ConsoleModel.result_cells].
    rewrite <- Ht at 1. rewrite list_lookup_middle by done.
    rewrite list_lookup_middle by done. cbn [default from_option id].
    rewrite size_t_of_small by lia.
    unfold string_of_copies.
    replace (string_max_size <? w - Z.of_nat (String.length text))%Z with false
      by (symmetry; apply Z.ltb_ge; lia).
    cbn [and_then].
    rewrite (cons_middle _ pre_w), (cons_middle _ pre_t), !app_assoc.
    replace (S (length pre_w)) with (length (pre_w ++ [w]))
      by (rewrite length_app; cbn; lia).
    rewrite IH; [|rewrite !length_app; cbn; lia | done].
    cbn [zip_with joined foldr].
    replace (Z.to_nat (w - Z.of_nat (String.length text)))
      with (Z.to_nat w - String.length text) by lia.
    by rewrite !append_assoc.
Qed.

Lemma emit_result_vec_spec (column_widths : list Z) (texts : list string) out :
  covers column_widths texts ->
  emit_result_vec column_widths texts out
  = Done (out +:+ row_line column_widths texts).
Proof.
  intros Hcovers. unfold ConsoleModel.emit_result_vec, row_line.
  rewrite (result_cells_spec column_widths [] [] texts) by done.
  cbn [and_then]. by rewrite !append_assoc.
Qed.

Lemma emit_result_vecs_spec (column_widths : list Z)
    (result_strings : list (list string)) :
  Forall (covers column_widths) result_strings ->
  forall out,
    emit_result_vecs column_widths result_strings out
    = Done (out +:+ joined (map (row_line column_widths) result_strings)).
Proof.
  induction 1 as [|texts result_strings Htexts _ IH]; intros out.
  - cbn. by rewrite append_nil_r.
  - cbn [ConsoleModel.emit_result_vecs].
    rewrite emit_result_vec_spec by done. cbn [and_then]. rewrite IH.
    cbn [map joined foldr]. by rewrite append_assoc.
Qed.

Lemma own_sizes_fit (texts : list string) :
  Forall short texts ->
  map (fun s => int_of (Z.of_nat (String.length s))) texts
  = map (fun s => Z.of_nat (String.length s)) texts.
Proof.
  induction 1 as [|text texts Htext _ IH]; [done|].
  cbn. rewrite IH, int_of_small; [done|]. unfold short in Htext. lia.
Qed.

Lemma covers_bounds column_widths texts :
  covers column_widths texts ->
  Forall (fun w => (0 <= w < 2 ^ 31)%Z) column_widths.
Proof.
  induction 1 as [|w text column_widths texts Hw _ IH]; constructor; [lia | done].
Qed.

Lemma covers_same_length column_widths texts :
  covers column_widths texts ->
  String.length (row_line column_widths texts)
  = S (String.length (rule_line column_widths)).
Proof.
  intros Hcovers. unfold row_line, rule_line.
  rewrite !length_append.
  assert (Hcells :
            String.length
              (joined (zip_with
                         (fun w s =>
                            s +:+ copies (Z.to_nat w - String.length s) " "%char
                              +:+ " | ")
                         column_widths texts))
            = String.length
                (joined (map (fun w => copies (Z.to_nat w + 2) "-"%char +:+ "+")
                             column_widths))).
  { induction Hcovers as [|w text column_widths texts Hw _ IH]; [done|].
    cbn [zip_with map joined foldr]. unfold joined in IH.
    rewrite !length_append, !length_copies, IH. cbn [String.length]. lia. }
  rewrite Hcells. cbn [String.length]. lia.
Qed.

(** X14.  [PrintResults] on results whose rows have at least as many values
    as the header has fields, and whose texts are shorter than 2^31
    characters: nothing is read outside a vector and no padding is
    negative.  The width of a column is the size of its longest text, header
    included; the table is the rule, the header, the rule, the rows and the
    rule, then the summary; every text is padded to the width of its
    column, so that all the rows are equally long, one character longer
    than the rules (each row ends in a blank). *)
Theorem PrintResults_prints_an_aligned_table
    (results : ResultStreamFaker) (out : string) :
  let header := GetHeader results in
  let rows := map (cell_texts (length header)) (GetResults results) in
  let column_widths :=
    foldl widen (map (fun s => Z.of_nat (String.length s)) header) rows in
  (Z.of_nat (length header) < 2 ^ 31)%Z ->
  (Z.of_nat (length (GetResults results)) < 2 ^ 31)%Z ->
  Forall (fun row => length header <= length row) (GetResults results) ->
  Forall short header ->
  Forall (Forall short) rows ->
  PrintResults results out
  = Done (out +:+ rule_line column_widths
              +:+ row_line column_widths header
              +:+ rule_line column_widths
              +:+ joined (map (row_line column_widths) rows)
              +:+ rule_line column_widths
              +:+ "Query summary: {"
              +:+ String.concat ", "
                    (map (fun kv => kv.1 +:+ ": " +:+ TypedValueToString kv.2)
                         (GetSummary results))
              +:+ "}" +:+ endl)
  /\ Forall (covers column_widths) (header :: rows)
  /\ Forall (fun texts =>
               String.length (row_line column_widths texts)
               = S (String.length (rule_line column_widths)))
            (header :: rows).
Proof.
  intros header rows column_widths Hcolumns Hresults Hrows Hheader Hcells.
  set (own := map (fun s => Z.of_nat (String.length s)) header).
  assert (Hown : length own = length header) by apply length_map.
  assert (Hshape : Forall (fun texts => length texts = length own
                                        /\ Forall short texts) rows).
  { rewrite Forall_forall in Hrows. rewrite Forall_forall in Hcells.
    unfold rows. apply Forall_fmap, Forall_forall. intros row Hrow. cbn. split.
    - rewrite Hown. apply length_cell_texts. by apply Hrows.
    - apply Hcells. unfold rows. apply list_elem_of_fmap. eauto. }
  assert (Hbelow : Forall (fun w => (w < 2 ^ 31)%Z) own).
  { unfold own. apply Forall_fmap. eapply Forall_impl; [exact Hheader|].
    intros text Htext. exact Htext. }
  assert (Hcovers : Forall (covers column_widths) (header :: rows)).
  { constructor.
    - apply covers_foldl_old; [by apply covers_own_sizes | done].
    - by apply covers_foldl_rows. }
  split; [|split; [exact Hcovers|]].
  - pose proof (Forall_inv Hcovers) as Hcovers_header.
    pose proof (Forall_inv_tail Hcovers) as Hcovers_rows.
    pose proof (covers_bounds _ _ Hcovers_header) as Hbounds.
    unfold ConsoleModel.PrintResults. fold header.
    rewrite own_sizes_fit by done. fold own.
    unfold int_indexable. rewrite Hown.
    replace (Z.of_nat (length (GetResults results)) <? 2 ^ 31)%Z with true
      by (symmetry; by apply Z.ltb_lt).
    replace (Z.of_nat (length header) <? 2 ^ 31)%Z with true
      by (symmetry; by apply Z.ltb_lt).
    cbn [andb negb].
    rewrite convert_rows_spec; rewrite ?Hown; [|done|done].
    fold rows. fold column_widths. cbn [and_then].
    rewrite emit_horizontal_line_spec by done. cbn [and_then].
    rewrite emit_result_vec_spec by done. cbn [and_then].
    rewrite emit_horizontal_line_spec by done. cbn [and_then].
    rewrite emit_result_vecs_spec by done. cbn [and_then].
    rewrite emit_horizontal_line_spec by done. cbn [and_then].
    rewrite PrintIterable_concat. by rewrite !append_assoc.
  - eapply Forall_impl; [exact Hcovers|]. intros texts Htexts.
    by apply covers_same_length.
Qed.

End Console.

(** *** The read-eval-print loop *)

Section Repl.
Context {Db : Type}.
Variable HAS_READLINE : bool.
Variable TypedValueToString : TypedValue -> string.
Variable string_max_size : Z.
Variable active : Db -> Db.
Variable Interpret : string -> Db -> Res ResultStreamFaker * Db.
Variable commit : Db -> Db.
Variable release : Db -> Db.

#[local] Abbreviation ReplState := (@ReplState Db).
#[local] Abbreviation Repl_loop :=
  (Repl_loop HAS_READLINE TypedValueToString string_max_size active Interpret
             commit release).
#[local] Abbreviation Repl :=
  (Repl HAS_READLINE TypedValueToString string_max_size active Interpret
        commit release).
#[local] Abbreviation PrintResults :=
  (PrintResults TypedValueToString string_max_size).

Lemma ReadLine_at_end prompt t :
  cin t = [] ->
  (ReadLine HAS_READLINE prompt t).1 = ""
  /\ cin (ReadLine HAS_READLINE prompt t).2 = [].
Proof.
  intros Hend. unfold ReadLine. rewrite Hend. by destruct HAS_READLINE.
Qed.

Lemma ReadLine_line prompt t line rest :
  cin t = line :: rest ->
  (ReadLine HAS_READLINE prompt t).1 = line
  /\ cin (ReadLine HAS_READLINE prompt t).2 = rest.
Proof.
  intros Hline. unfold ReadLine. rewrite Hline. by destruct HAS_READLINE.
Qed.

Lemma Repl_loop_skips_empty_lines (fuel : nat) :
  forall s : ReplState,
    Forall (fun line => line = "") (cin (terminal s)) ->
    Repl_loop fuel s = None.
Proof.
  induction fuel as [|fuel IH]; intros s Hempty; [done|].
  cbn [ConsoleModel.Repl_loop].
  destruct (ReadLine HAS_READLINE ">" (terminal s)) as [command t] eqn:Hread.
  assert (Hcommand : command = "" /\ Forall (fun line => line = "") (cin t)).
  { destruct (cin (terminal s)) as [|line rest] eqn:Hcin.
    - destruct (ReadLine_at_end ">" _ Hcin) as [Hcommand Hrest].
      rewrite Hread in Hcommand, Hrest. cbn in Hcommand, Hrest.
      split; [done|]. rewrite Hrest. constructor.
    - destruct (ReadLine_line ">" _ _ _ Hcin) as [Hcommand Hrest].
      rewrite Hread in Hcommand, Hrest. cbn in Hcommand, Hrest.
      apply Forall_cons in Hempty as [Hline Hempty].
      split; [congruence|]. by rewrite Hrest. }
  destruct Hcommand as [-> Hrest]. cbn [String.length Nat.eqb].
  by apply IH.
Qed.

(** X15.  [Repl] has no way out at the end of the input: when only empty
    lines are left, or nothing at all, every [ReadLine] returns the empty
    command, which the loop skips; [Repl] never returns, however long it
    runs. *)
Theorem Repl_never_returns_at_end_of_input (fuel : nat) (s : ReplState) :
  Forall (fun line => line = "") (cin (terminal s)) ->
  Repl fuel s = None.
Proof.
  intros Hempty. unfold ConsoleModel.Repl. by apply Repl_loop_skips_empty_lines.
Qed.

#[local] Abbreviation handled :=
  (handled TypedValueToString string_max_size active Interpret commit release).
#[local] Abbreviation printable := (printable TypedValueToString string_max_size).

(** Whether [PrintResults] completes does not depend on what the terminal
    shows already. *)
Lemma same_end_and_then {A B} (a b : Outcome A) (k k' : A -> Outcome B) :
  same_end a b -> (forall x y, same_end (k x) (k' y)) ->
  same_end (and_then a k) (and_then b k').
Proof. destruct a, b; cbn; intros Hab Hk; first [done | apply Hk]. Qed.

Lemma same_end_and_then_eq {A B} (a : Outcome A) (k k' : A -> Outcome B) :
  (forall x, same_end (k x) (k' x)) ->
  same_end (and_then a k) (and_then a k').
Proof. destruct a; cbn; intros Hk; first [done | apply Hk]. Qed.

Lemma horizontal_cells_same_end column_widths :
  forall out out2,
    same_end (horizontal_cells string_max_size column_widths out)
             (horizontal_cells string_max_size column_widths out2).
Proof.
  induction column_widths as [|col_width rest IH]; intros out out2; [done|].
  cbn [horizontal_cells]. apply same_end_and_then_eq. intros dashes. apply IH.
Qed.

Lemma emit_horizontal_line_same_end column_widths out out2 :
  same_end (emit_horizontal_line string_max_size column_widths out)
           (emit_horizontal_line string_max_size column_widths out2).
Proof.
  unfold emit_horizontal_line.
  apply same_end_and_then; [apply horizontal_cells_same_end | done].
Qed.

Lemma result_cells_same_end column_widths result_vec remaining :
  forall col_ind out out2,
    same_end (result_cells string_max_size remaining col_ind column_widths
                           result_vec out)
             (result_cells string_max_size remaining col_ind column_widths
                           result_vec out2).
Proof.
  induction remaining as [|remaining IH]; intros col_ind out out2; [done|].
  cbn [result_cells]. destruct (result_vec !! col_ind) as [res|]; [|done].
  apply same_end_and_then_eq. intros padding. apply IH.
Qed.

Lemma emit_result_vec_same_end column_widths result_vec out out2 :
  same_end (emit_result_vec string_max_size column_widths result_vec out)
           (emit_result_vec string_max_size column_widths result_vec out2).
Proof.
  unfold emit_result_vec.
  apply same_end_and_then; [apply result_cells_same_end | done].
Qed.

Lemma emit_result_vecs_same_end column_widths result_strings :
  forall out out2,
    same_end (emit_result_vecs string_max_size column_widths result_strings out)
             (emit_result_vecs string_max_size column_widths result_strings out2).
Proof.
  induction result_strings as [|result_vec rest IH]; intros out out2; [done|].
  cbn [emit_result_vecs].
  apply same_end_and_then; [apply emit_result_vec_same_end | intros; apply IH].
Qed.

Lemma PrintResults_same_end results out out2 :
  same_end (PrintResults results out) (PrintResults results out2).
Proof.
  unfold ConsoleModel.PrintResults. destruct (negb _); [done|].
  apply same_end_and_then_eq. intros [column_widths result_strings].
  apply same_end_and_then; [apply emit_horizontal_line_same_end|].
  intros out3 out4.
  apply same_end_and_then; [apply emit_result_vec_same_end|].
  intros out5 out6.
  apply same_end_and_then; [apply emit_horizontal_line_same_end|].
  intros out7 out8.
  apply same_end_and_then; [apply emit_result_vecs_same_end|].
  intros out9 out10.
  apply same_end_and_then; [apply emit_horizontal_line_same_end | done].
Qed.

Lemma printable_anywhere results out :
  printable results -> exists out', PrintResults results out = Done out'.
Proof.
  intros (out0 & out' & Hprint).
  pose proof (PrintResults_same_end results out out0) as Hsame.
  rewrite Hprint in Hsame.
  destruct (PrintResults results out) as [printed| |]; [by exists printed|done..].
Qed.

Lemma Repl_loop_until_quit (before : list string) (rest : list string) :
  Forall (fun line => line <> "quit") before ->
  forall s : ReplState,
    cin (terminal s) = before ++ "quit" :: rest ->
    handled before (db s) ->
    exists s',
      Repl_loop (S (length before)) s = Some (Quit, s')
      /\ cin (terminal s') = rest
      /\ interpreted s' = interpreted s ++ filter (fun line => line <> "") before.
Proof.
  induction 1 as [|line before Hline _ IH]; intros s Hcin Hhandled.
  - cbn [length ConsoleModel.Repl_loop app] in *.
    destruct (ReadLine HAS_READLINE ">" (terminal s)) as [command t] eqn:Hread.
    destruct (ReadLine_line ">" _ _ _ Hcin) as [Hcommand Hrest].
    rewrite Hread in Hcommand, Hrest. cbn in Hcommand, Hrest. subst command.
    cbn. eexists. split; [done|]. cbn. split; [done|].
    by rewrite app_nil_r.
  - cbn [length]. remember (S (length before)) as fuel eqn:Hfuel.
    cbn [ConsoleModel.Repl_loop].
    destruct (ReadLine HAS_READLINE ">" (terminal s)) as [command t] eqn:Hread.
    destruct (ReadLine_line ">" _ _ _ Hcin) as [Hcommand Hrest].
    rewrite Hread in Hcommand, Hrest. cbn in Hcommand, Hrest. subst command.
    cbn [ConsoleModel.handled] in Hhandled.
    destruct (String.length line =? 0)%nat eqn:Hsize.
    + assert (line = "") as -> by (by destruct line).
      rewrite bool_decide_eq_true_2 in Hhandled by done.
      destruct (IH (mkRepl t (db s) (interpreted s) (commits s)) Hrest Hhandled)
        as (s' & Hrun & Hcin' & Hlog).
      exists s'. split; [done|]. split; [done|].
      rewrite filter_cons_False by (intros Hne; by apply Hne).
      exact Hlog.
    + assert (Hcommand : line <> "") by (by intros ->).
      rewrite bool_decide_eq_false_2 in Hhandled by done.
      rewrite bool_decide_eq_false_2 by done.
      cbn [terminal db interpreted commits].
      destruct (Interpret line (active (db s))) as [results dba].
      rewrite filter_cons_True by done.
      destruct results as [results|e]; cbv beta iota zeta.
      * destruct Hhandled as [Hprint Hhandled].
        destruct (printable_anywhere _ (cout t) Hprint) as [out' ->].
        destruct (IH (mkRepl (mkTerminal (cin t) out' (history t))
                             (release (commit dba)) (interpreted s ++ [line])
                             (S (commits s))) Hrest Hhandled)
          as (s' & Hrun & Hcin' & Hlog).
        exists s'. split; [done|]. split; [done|].
        rewrite Hlog. cbn. by rewrite <- app_assoc.
      * destruct e as [what|what|what|what|what]; try done; cbv beta iota zeta.
        -- destruct (IH (mkRepl (print ("SYNTAX EXCEPTION: " +:+ what +:+ endl) t)
                                (release dba) (interpreted s ++ [line])
                                (commits s)) Hrest Hhandled)
             as (s' & Hrun & Hcin' & Hlog).
           exists s'. split; [done|]. split; [done|].
           rewrite Hlog. cbn. by rewrite <- app_assoc.
        -- destruct (IH (mkRepl (print ("SEMANTIC EXCEPTION: " +:+ what +:+ endl) t)
                                (release dba) (interpreted s ++ [line])
                                (commits s)) Hrest Hhandled)
             as (s' & Hrun & Hcin' & Hlog).
           exists s'. split; [done|]. split; [done|].
           rewrite Hlog. cbn. by rewrite <- app_assoc.
Qed.

(** X16.  [Repl] leaves at the first line that is [quit], after as many
    rounds as there are lines up to it, provided every query before it
    returns printable results or throws what the handlers catch, each on
    the database as the queries before it left it: the lines behind [quit]
    are not read, and the interpreter was given the lines before it that
    are not empty, each once and in their order; an exception that is
    caught does not end the loop. *)
Theorem Repl_runs_the_commands_before_quit
    (before rest : list string) (s : ReplState) :
  cin (terminal s) = before ++ "quit" :: rest ->
  Forall (fun line => line <> "quit") before ->
  handled before (db s) ->
  exists s',
    Repl (S (length before)) s = Some (Quit, s')
    /\ cin (terminal s') = rest
    /\ interpreted s' = interpreted s ++ filter (fun line => line <> "") before.
Proof.
  intros Hcin Hbefore Hhandled. unfold ConsoleModel.Repl.
  by apply (Repl_loop_until_quit before rest Hbefore
              (mkRepl (print _ (terminal s)) (db s) (interpreted s) (commits s))).
Qed.

End Repl.

Lemma PrintResults_prints_an_aligned_table_witness :
  exists table,
    PrintResults sample_TypedValueToString (2 ^ 62) sample_results "" = Done table
    /\ Forall (covers [3; 6]%Z)
              [["n"; "name"]; ["int"; "Sanjay"]; ["int"; "Li"]].
Proof.
  destruct (PrintResults_prints_an_aligned_table sample_TypedValueToString
              (2 ^ 62) ltac:(lia) sample_results "")
    as (Hprint & Hcovers & _).
  - cbn. lia.
  - cbn. lia.
  - repeat constructor.
  - repeat constructor.
  - repeat constructor.
  - eexists. split; [exact Hprint | exact Hcovers].
Defined.

Lemma Repl_never_returns_at_end_of_input_witness :
  sample_Repl 5 (mkRepl (mkTerminal [""] "" []) 0 [] 0) = None.
Proof.
  apply (Repl_never_returns_at_end_of_input false sample_TypedValueToString
           (2 ^ 62) id sample_Interpret S id 5
           (mkRepl (mkTerminal [""] "" []) 0 [] 0)).
  repeat constructor.
Defined.

Lemma Repl_runs_the_commands_before_quit_witness :
  exists s',
    sample_Repl 4 sample_session = Some (Quit, s')
    /\ cin (terminal s') = ["n"]
    /\ interpreted s' = ["n"; "boom"].
Proof.
  assert (Hbefore : Forall (fun line : string => line <> "quit") [""; "n"; "boom"]).
  { repeat constructor; discriminate. }
  assert (Hhandled : handled sample_TypedValueToString (2 ^ 62) id
                             sample_Interpret S id [""; "n"; "boom"]
                             (db sample_session)).
  { cbn. split; [|exact I]. exists "". eexists. vm_compute. reflexivity. }
  destruct (Repl_runs_the_commands_before_quit false sample_TypedValueToString
              (2 ^ 62) id sample_Interpret S id
              [""; "n"; "boom"] ["n"] sample_session eq_refl Hbefore Hhandled)
    as (s' & Hrun & Hcin & Hlog).
  exists s'. split; [exact Hrun|]. split; [exact Hcin | exact Hlog].
Defined.

End ConsoleFacts.
